(** * Lumped-capacitance analysis of a transmon pocket (qiskit_metal)

    A shallow embedding of
    [qiskit_metal/analyses/quantization/lumped_capacitive.py]:
    the basis reorderer ([move_index_to], [df_reorder_matrix_basis]),
    the circuit-parameter reducer ([extract_transmon_coupled_Noscillator]),
    the quantum-level solver ([levels_vs_ng_real_units]), the two
    Q3D file loaders ([readin_q3d_matrix], [readin_q3d_matrix_m]), and the
    converters and small formulas around them ([Ic_from_Lj], [Ic_from_Ej],
    [Cs_from_Ec], [transmon_props], [chi], [cos_to_mega_and_delta],
    [chargeline_T1]).

    Conventions of the embedding.
    - Python [int] is [Z]; a position inside a list is a [nat] obtained by
      Python's index normalisation ([norm_index]).
    - Python and numpy floating-point numbers are idealised as the real
      numbers [R]: rounding, infinities and NaN are not represented. The
      one exception is the solver on numpy scalars ([float64],
      [level_table64]), where a division by zero gives an infinity and
      the infinities and NaN are carried into the Hamiltonian.
    - numpy arrays are lists (2-D arrays are lists of rows); a pandas
      DataFrame is a record of its values and its two label vectors.
    - An exception is the [Raise] branch of the [result] monad.
    - Library routines whose algorithm is not part of this module
      ([numpy.linalg.eig], [pandas.read_csv]) are section variables. *)

From Stdlib Require Import ZArith Reals Lra Lia String Ascii.
From stdpp Require Import base option list sorting gmap strings.
From Equations Require Import Equations.
From Equations.Prop Require Import Logic.

(** ** Exceptions and the result monad *)

Inductive exn : Type :=
  | ValueError (msg : string)
  | IndexError
  | AssertionError (msg : string)
  | UnboundLocalError (var : string)
  | ZeroDivisionError.

Inductive result (T : Type) : Type :=
  | Ok (x : T)
  | Raise (e : exn).
Arguments Ok {T} x.
Arguments Raise {T} e.

#[global] Instance result_ret : MRet result := @Ok.
#[global] Instance result_bind : MBind result :=
  λ A B f m, match m with Ok x => f x | Raise e => Raise e end.
#[global] Instance result_fmap : FMap result :=
  λ A B f m, match m with Ok x => Ok (f x) | Raise e => Raise e end.

Definition is_ok {T} (m : result T) : Prop := ∃ x, m = Ok x.

(** ** Python indexing and the numpy primitives used by the module *)

(** [a[i]] for a Python integer [i] on a sequence of length [n]: negative
    indices count from the end, anything else out of range raises. *)
Definition norm_index (n : nat) (i : Z) : result nat :=
  if decide (0 ≤ i < Z.of_nat n)%Z then Ok (Z.to_nat i)
  else if decide (- Z.of_nat n ≤ i < 0)%Z then Ok (Z.to_nat (i + Z.of_nat n))
  else Raise IndexError.

Definition py_get {T} (l : list T) (i : Z) : result T :=
  k ← norm_index (length l) i;
  match l !! k with Some x => Ok x | None => Raise IndexError end.

(** [a[idx]] with an integer index array (numpy and pandas [Index] alike). *)
Definition take_along {T} (l : list T) (idx : list Z) : result (list T) :=
  mapM (py_get l) idx.

(** The positions an index array refers to in a sequence of length [n]. *)
Definition positions (n : nat) (idx : list Z) : result (list nat) :=
  mapM (norm_index n) idx.

(** [np.arange(0, len_)] *)
Definition np_arange (len_ : nat) : list Z := Z.of_nat <$> seq 0 len_.

(** Elements of [arr] whose position is not listed in [ks]
    ([keep = ones(N); keep[obj] = False; arr[keep]]). *)
Definition drop_positions {T} (ks : list nat) (arr : list T) : list T :=
  (filter (λ ix, ix.1 ∉ ks) (zip (seq 0 (length arr)) arr)).*2.

(** [np.delete(arr, obj)] for a list of integers [obj]. *)
Definition np_delete {T} (arr : list T) (obj : list Z) : result (list T) :=
  ks ← positions (length arr) obj;
  Ok (drop_positions ks arr).

(** [np.insert(arr, obj, values)] for a scalar position [obj]. *)
Definition np_insert {T} (arr : list T) (obj : Z) (vals : list T)
  : result (list T) :=
  let N := Z.of_nat (length arr) in
  if decide (obj < - N ∨ obj > N)%Z then Raise IndexError
  else
    let index := Z.to_nat (if decide (obj < 0)%Z then obj + N else obj)%Z in
    Ok (take index arr ++ vals ++ drop index arr).

(** ** The basis reorderer *)

Definition move_index_to (i_from : list Z) (i_to : Z) (len_ : nat)
  : result (list Z) :=
  idxs ← np_delete (np_arange len_) i_from;
  np_insert idxs i_to i_from.

Section reorder.
Context {A L : Type}.

(** Cell values of type [A], labels of type [L]. *)
Record DataFrame : Type := mkDataFrame {
  df_values : list (list A);
  df_index : list L;
  df_columns : list L
}.

(** An [n] by [n] table carrying [n] row labels and [n] column labels. *)
Definition square (n : nat) (df : DataFrame) : Prop :=
  length (df_values df) = n
  ∧ Forall (λ row, length row = n) (df_values df)
  ∧ length (df_index df) = n
  ∧ length (df_columns df) = n.

(** [arr[np.ix_(ridx, cidx)]] *)
Definition np_ix (arr : list (list A)) (ridx cidx : list Z)
  : result (list (list A)) :=
  rows ← take_along arr ridx;
  mapM (λ row, take_along row cidx) rows.

(** [pd.DataFrame(arr, columns=cols, index=rows)]: pandas refuses label
    vectors that do not fit the shape of the data. *)
Definition pd_DataFrame (arr : list (list A)) (cols rows : list L)
  : result DataFrame :=
  if decide (length arr = length rows
             ∧ Forall (λ row, length row = length cols) arr)
  then Ok (mkDataFrame arr rows cols)
  else Raise (ValueError "Shape of passed values does not match indices").

Definition df_reorder_matrix_basis (df : DataFrame) (i_from : list Z)
    (i_to : Z) : result DataFrame :=
  let arr := df_values df in
  idx ← move_index_to i_from i_to (length arr);
  arr ← np_ix arr idx idx;
  cols ← take_along (df_columns df) idx;
  rows ← take_along (df_index df) idx;
  pd_DataFrame arr cols rows.
End reorder.
Arguments DataFrame : clear implicits.

Section reorder_laws.
Context {A L : Type}.

(** [df_reorder_matrix_basis] behind the computation of [idx]. *)
Definition reindex (df : DataFrame A L) (idx : list Z)
  : result (DataFrame A L) :=
  arr ← np_ix (df_values df) idx idx;
  cols ← take_along (df_columns df) idx;
  rows ← take_along (df_index df) idx;
  pd_DataFrame arr cols rows.
End reorder_laws.

(** The source indices are in range and name [n]-positions no more than
    once each. *)
Definition distinct_sources (n : nat) (i_from : list Z) : Prop :=
  ∃ F, positions n i_from = Ok F ∧ NoDup F.

(** [q] is the inverse of the index permutation [p] of [n] positions: the
    entry that [p] brings to position [k] is brought back by [q]. *)
Definition inverse_on (n : nat) (p q : list Z) : Prop :=
  ∃ P Q, positions n p = Ok P ∧ positions n q = Ok Q
    ∧ length P = n ∧ length Q = n
    ∧ ∀ a, (a < n)%nat → ∃ k, Q !! a = Some k ∧ P !! k = Some a.

(** The arguments [i_from'], [i_to'] undo the move that produced [p]. *)
Definition undoes_move (n : nat) (p : list Z) (i_from' : list Z) (i_to' : Z)
  : Prop :=
  ∃ q, move_index_to i_from' i_to' n = Ok q ∧ inverse_on n p q.

(** ** The reorderer on a store of Python objects

    The same function with the objects it touches made explicit: the frame,
    its block of values and its two label vectors live in a store, and
    [df.values] hands out the frame's own block (no copy). *)

Definition loc := positive.

Section heap.
Context {A L : Type}.

Inductive pyobj : Type :=
  | ObjMatrix (rows : list (list A))
  | ObjIntArray (xs : list Z)
  | ObjIndex (labels : list L)
  | ObjFrame (vals idx cols : loc).

(** The store maps the addresses in use to the objects they hold. *)
Local Abbreviation store := (gmap loc pyobj).

(** A computation reads and extends the store; the store survives a
    raised exception. *)
Definition heapM (T : Type) : Type := store → result T * store.

#[global] Instance heapM_ret : MRet heapM := λ T x σ, (Ok x, σ).
#[global] Instance heapM_bind : MBind heapM := λ T U f m σ,
  match m σ with
  | (Ok x, σ') => f x σ'
  | (Raise e, σ') => (Raise e, σ')
  end.

Definition lift {T} (r : result T) : heapM T := λ σ, (r, σ).

(** A new object gets an address that is not in use. *)
Definition alloc (o : pyobj) : heapM loc := λ σ,
  let l := fresh (dom σ) in (Ok l, <[l:=o]> σ).

Definition load (l : loc) : heapM pyobj := λ σ,
  match σ !! l with
  | Some o => (Ok o, σ)
  | None => (Raise (ValueError "dangling reference"), σ)
  end.

(** In-place assignment to an existing object ([a[...] = ...]). *)
Definition overwrite (l : loc) (o : pyobj) : heapM unit := λ σ,
  (Ok (), <[l:=o]> σ).

Definition load_matrix (l : loc) : heapM (list (list A)) :=
  o ← load l;
  match o with
  | ObjMatrix rows => mret rows
  | _ => lift (Raise (ValueError "not a 2-D array"))
  end.

Definition load_ints (l : loc) : heapM (list Z) :=
  o ← load l;
  match o with
  | ObjIntArray xs => mret xs
  | _ => lift (Raise (ValueError "not an integer array"))
  end.

Definition load_labels (l : loc) : heapM (list L) :=
  o ← load l;
  match o with
  | ObjIndex ls => mret ls
  | _ => lift (Raise (ValueError "not an Index"))
  end.

Definition load_frame (l : loc) : heapM (loc * loc * loc) :=
  o ← load l;
  match o with
  | ObjFrame v i c => mret (v, i, c)
  | _ => lift (Raise (ValueError "not a DataFrame"))
  end.

(** [idxs = np.arange(0, len_); idxs = np.delete(idxs, i_from);
     return np.insert(idxs, i_to, i_from)]: three new arrays. *)
Definition move_index_to_st (i_from : list Z) (i_to : Z) (len_ : nat)
  : heapM loc :=
  idxs ← alloc (ObjIntArray (np_arange len_));
  xs ← load_ints idxs;
  ys ← lift (np_delete xs i_from);
  idxs ← alloc (ObjIntArray ys);
  ys ← load_ints idxs;
  zs ← lift (np_insert ys i_to i_from);
  alloc (ObjIntArray zs).

(** [pd.DataFrame(arr, columns=cols, index=rows)] on stored objects. *)
Definition pd_DataFrame_st (arr cols rows : loc) : heapM loc :=
  a ← load_matrix arr;
  c ← load_labels cols;
  r ← load_labels rows;
  _ ← lift (pd_DataFrame a c r);
  alloc (ObjFrame arr rows cols).

Definition df_reorder_matrix_basis_st (df : loc) (i_from : list Z)
    (i_to : Z) : heapM loc :=
  '(v, i, c) ← load_frame df;
  let arr := v in
  rows ← load_matrix arr;
  idx ← move_index_to_st i_from i_to (length rows);
  ks ← load_ints idx;
  rows ← load_matrix arr;
  new ← lift (np_ix rows ks ks);
  arr ← alloc (ObjMatrix new);
  ls ← load_labels c;
  ls ← lift (take_along ls ks);
  cols ← alloc (ObjIndex ls);
  ls ← load_labels i;
  ls ← lift (take_along ls ks);
  rows ← alloc (ObjIndex ls);
  pd_DataFrame_st arr cols rows.

(** What a frame stored at [l] holds. *)
Definition frame_at (σ : store) (l : loc) : option (DataFrame A L) :=
  match σ !! l with
  | Some (ObjFrame v i c) =>
      match σ !! v, σ !! i, σ !! c with
      | Some (ObjMatrix rows), Some (ObjIndex ri), Some (ObjIndex ci) =>
          Some (mkDataFrame rows ri ci)
      | _, _, _ => None
      end
  | _ => None
  end.

(** A computation that keeps every object of the store as it is: whatever
    an address held before, it holds afterwards. *)
Definition preserving {T} (m : heapM T) : Prop :=
  ∀ σ : gmap loc pyobj, σ ⊆ (m σ).2.

(** A computation that leaves the store as it is. *)
Definition readonly {T} (m : heapM T) : Prop :=
  ∀ σ : gmap loc pyobj, (m σ).2 = σ.
End heap.
Arguments pyobj : clear implicits.
Arguments heapM : clear implicits.
Abbreviation store A L := (gmap loc (pyobj A L)).

(** ** Numbers, vectors and matrices of the numerical part *)

#[global] Instance R_eq_dec : EqDecision R := Req_dec_T.
#[global] Instance Rle_rel_dec : RelDecision Rle := Rle_dec.

Abbreviation matrix := (list (list R)).

(** [for i in iters: s = body(i, s)], stopping at the first exception. *)
Fixpoint for_loop {S} (iters : list nat) (body : nat → S → result S) (s : S)
  : result S :=
  match iters with
  | [] => Ok s
  | i :: rest => s' ← body i s; for_loop rest body s'
  end.

(** [for i in range(n)] *)
Definition for_range {S} (n : nat) (body : nat → S → result S) (s : S)
  : result S :=
  for_loop (seq 0 n) body s.

(** [a[i] = x] for [i] produced by [range]: out of range raises. *)
Definition set_item {T} (a : list T) (i : nat) (x : T) : result (list T) :=
  if decide (i < length a)%nat then Ok (<[i:=x]> a) else Raise IndexError.

(** [M[i, j] = x] *)
Definition mat_set {T} (M : list (list T)) (i j : nat) (x : T)
  : result (list (list T)) :=
  match M !! i with
  | Some row => row' ← set_item row j x; Ok (<[i:=row']> M)
  | None => Raise IndexError
  end.

(** [M[i, j]] *)
Definition mat_get {T} (M : list (list T)) (i j : Z) : result T :=
  row ← py_get M i; py_get row j.

(** [M[:, j]] *)
Definition mat_col {T} (M : list (list T)) (j : Z) : result (list T) :=
  mapM (λ row, py_get row j) M.

(** [M[:, j] = v]: [v] has one entry per row, or a single entry that is
    broadcast; any other length cannot be broadcast. *)
Definition set_column {T} (M : list (list T)) (j : nat) (v : list T)
  : result (list (list T)) :=
  if decide (length v = length M) then
    mapM (λ rx : list T * T, set_item rx.1 j rx.2) (zip M v)
  else
    match v with
    | [x] => mapM (λ row, set_item row j x) M
    | _ => Raise (ValueError "could not broadcast input array")
    end.

Section numerics.
Local Open Scope R_scope.

(** Python's [x / y] on floats. *)
Definition py_div (x y : R) : result R :=
  if decide (y = 0) then Raise ZeroDivisionError else Ok (x / y).

Definition np_zeros (n : nat) : list R := replicate n 0.
Definition np_ones (n : nat) : list R := replicate n 1.
Definition np_zeros2 (n m : nat) : matrix := replicate n (np_zeros m).

Definition tabulate (n m : nat) (f : nat → nat → R) : matrix :=
  (λ i, f i <$> seq 0 m) <$> seq 0 n.

(** [np.eye(n)] *)
Definition np_eye (n : nat) : matrix :=
  tabulate n n (λ i j, if decide (i = j) then 1 else 0).

(** [np.diag(v, 1)]: [v] on the first super-diagonal. *)
Definition np_diag1 (v : list R) : matrix :=
  tabulate (S (length v)) (S (length v))
    (λ i j, if decide (j = S i) then default 0 (v !! i) else 0).

Definition ncols (M : matrix) : nat :=
  match M with [] => 0%nat | row :: _ => length row end.

(** [np.transpose(M)] *)
Definition np_transpose (M : matrix) : matrix :=
  (λ j, omap (λ row : list R, row !! j) M) <$> seq 0 (ncols M).

(** [np.conj(M)] on a real array. *)
Definition np_conj (M : matrix) : matrix := M.

(** Element-wise arithmetic, scalar with array and array with array. *)
Definition vscale (c : R) (v : list R) : list R := Rmult c <$> v.
Definition vdiv (v : list R) (c : R) : list R := (λ x, x / c) <$> v.
Definition vneg (v : list R) : list R := Ropp <$> v.
Definition vshift (v : list R) (c : R) : list R := (λ x, x + c) <$> v.
Definition vadd (u v : list R) : list R := zip_with Rplus u v.
Definition vsub (u v : list R) : list R := zip_with Rminus u v.
Definition vmul (u v : list R) : list R := zip_with Rmult u v.
Definition vquot (u v : list R) : list R := zip_with Rdiv u v.
Definition vsq (v : list R) : list R := (λ x, x ^ 2) <$> v.
Definition vsqrt (v : list R) : list R := sqrt <$> v.
Definition vrecip (c : R) (v : list R) : list R := (λ x, c / x) <$> v.
Definition vtimes (v : list R) (c : R) : list R := (λ x, x * c) <$> v.
Definition vminus (v : list R) (c : R) : list R := (λ x, x - c) <$> v.

Definition mscale (c : R) (M : matrix) : matrix := vscale c <$> M.
Definition madd (M M' : matrix) : matrix := zip_with vadd M M'.
Definition msub (M M' : matrix) : matrix := zip_with vsub M M'.
Definition msq (M : matrix) : matrix := vsq <$> M.

(** [np.sum], [np.mean], [np.max] of a 1-D array. *)
Definition np_sum (v : list R) : R := foldr Rplus 0 v.
Definition np_mean (v : list R) : R := np_sum v / INR (length v).
Definition np_max (v : list R) : result R :=
  match v with
  | [] => Raise (ValueError "zero-size array to reduction operation maximum")
  | x :: v' => Ok (foldl Rmax x v')
  end.

(** [np.linspace(start, stop, num)] with the end point included. *)
Definition np_linspace (start stop : R) (num : nat) : list R :=
  let div := (num - 1)%nat in
  (λ i, if decide (0 < div)%nat
        then INR i * ((stop - start) / INR div) + start
        else INR i * (stop - start) + start) <$> seq 0 num.

(** [np.array_equal(M, M')] *)
Definition np_array_equal (M M' : matrix) : bool := bool_decide (M = M').

(** *** Physical constants *)
Definition e : R := 1.60217657e-19.
Definition h : R := 6.62606957e-34.
Definition hbar : R := 1.0545718e-34.
Definition phinot : R := 2.067 * 1e-15.
Definition phi0 : R := phinot / (2 * PI).

(** ** The quantum-level solver *)

Definition nmax : nat := 40.
Definition dim : nat := (2 * nmax + 1)%nat.

(** [nmat = np.zeros([dim, dim]); for ii in range(dim): nmat[ii, ii] = ii - nmax] *)
Definition charge_operator : result matrix :=
  for_range dim
    (λ ii nmat, mat_set nmat ii ii (IZR (Z.of_nat ii - Z.of_nat nmax)))
    (np_zeros2 dim dim).

(** [V = np.diag(-0.5 * np.ones([dim - 1]), 1); V = V + np.transpose(np.conj(V))] *)
Definition josephson_operator : matrix :=
  let V := np_diag1 (vscale (-0.5) (np_ones (dim - 1))) in
  madd V (np_transpose (np_conj V)).

(** [H = 4 * Ec * (nmat - ng * np.eye(dim))**2 + EJ * V] *)
Definition hamiltonian (Ec EJ : R) (nmat V : matrix) (ng : R) : matrix :=
  madd (mscale (4 * Ec) (msq (msub nmat (mscale ng (np_eye dim)))))
       (mscale EJ V).

Definition not_hermitian : exn := ValueError "Matrix is not Hermitian".

Section with_eig.
(** [numpy.linalg.eig], reduced to the eigenvalues it returns. *)
Variable eig : matrix → list R.

(** One pass of the loop over the offset charges, for finite [Ec] and [EJ]:
    the array [H] then holds numbers, and [np.array_equal] compares them.
    [level_step64] below is the pass for energies that may be [inf] or
    [nan]. *)
Definition level_step (Ec EJ : R) (nmat V : matrix) (charge : list R)
    (iindex : nat) (elvls : matrix) : result matrix :=
  ng ← py_get charge (Z.of_nat iindex);
  let H := hamiltonian Ec EJ nmat V ng in
  if negb (np_array_equal H (np_transpose (np_conj H)))
  then Raise not_hermitian
  else
    let d := eig H in
    let sorted_d := merge_sort Rle d in
    d0 ← py_get sorted_d 0;
    set_column elvls iindex (vminus sorted_d d0).

(** The table [elvls] after the loop: one row per level, one column
    per offset charge. [Cq] and [IC] are Python floats, taken as real
    numbers: [e**2 / 2 / C] raises [ZeroDivisionError] when [C] is zero, and
    the underflow of [Cq * 1e-15] to zero is not modelled. For numpy
    scalars, which divide by zero without raising, see [level_table64]. *)
Definition level_table (Cq IC : R) (N : nat) : result matrix :=
  let C := Cq * 1e-15 in
  let IC := IC * 1e-9 in
  Ec ← py_div (e ^ 2 / 2) C;
  nmat ← charge_operator;
  let charge := np_linspace (-1) 1 N in
  let V := josephson_operator in
  let varphi := hbar / 2 / e in
  let EJ := IC * varphi in
  for_range N (level_step Ec EJ nmat V charge) (np_zeros2 dim N).

(** The four numbers computed from the table. *)
Definition level_summary (elvls : matrix) : result (R * R * R * R) :=
  E0 ← py_get elvls 0;
  E1 ← py_get elvls 1;
  E2 ← py_get elvls 2;
  let fqubitGHz := np_mean (vdiv (vdiv E1 h) 1e9) in
  let anharMHz :=
    np_mean (vscale 1000
      (vsub (vsub (vsub (vdiv (vdiv E2 h) 1e9) (vdiv (vdiv E0 h) 1e9))
                  (vdiv (vdiv (vscale 2 E1) h) 1e9))
            (vdiv (vdiv E0 h) 1e9))) in
  E10 ← mat_get elvls 1 0;
  disp ← np_max (vshift (vdiv (vneg E1) h) (E10 / h));
  let tphi_ms := 2 / (2 * PI * disp * PI * 1e-4 * 1e-3) in
  Ok (fqubitGHz, anharMHz, disp, tphi_ms).

Definition levels_vs_ng_real_units (Cq IC : R) (N : nat)
  : result (R * R * R * R) :=
  elvls ← level_table Cq IC N;
  level_summary elvls.
End with_eig.
End numerics.

(** ** The solver on numpy scalars *)

(** A [numpy.float64]: a number, an infinity with its sign, or [nan]. The
    numbers are real numbers: the arithmetic of the finite values is exact
    (no rounding, no overflow, no underflow) and zero carries no sign. *)
Inductive float64 : Type :=
  | Num (x : R)
  | Inf (negative : bool)
  | NaN.

Abbreviation matrix64 := (list (list float64)).

Section numpy_scalars.
Local Open Scope R_scope.

Definition is_negative (x : R) : bool := if Rlt_dec x 0 then true else false.

(** [a + b] *)
Definition f64_add (a b : float64) : float64 :=
  match a, b with
  | Num x, Num y => Num (x + y)
  | Num _, Inf s | Inf s, Num _ => Inf s
  | Inf s, Inf s' => if bool_decide (s = s') then Inf s else NaN
  | _, _ => NaN
  end.

(** [a * b]: an infinity times zero is [nan]. *)
Definition f64_mul (a b : float64) : float64 :=
  match a, b with
  | Num x, Num y => Num (x * y)
  | Num x, Inf s | Inf s, Num x =>
      if decide (x = 0) then NaN else Inf (xorb s (is_negative x))
  | Inf s, Inf s' => Inf (xorb s s')
  | _, _ => NaN
  end.

(** [a / b] of numpy: a zero divisor gives an infinity or [nan] (with a
    warning), where Python's own floats raise [ZeroDivisionError]. *)
Definition f64_div (a b : float64) : float64 :=
  match a, b with
  | Num x, Num y =>
      if decide (y = 0) then
        if decide (x = 0) then NaN else Inf (is_negative x)
      else Num (x / y)
  | Num _, Inf _ => Num 0
  | Inf s, Num y => Inf (xorb s (is_negative y))
  | _, _ => NaN
  end.

(** [a == b]: [nan] equals nothing, itself included. *)
Definition f64_eqb (a b : float64) : bool :=
  match a, b with
  | Num x, Num y => bool_decide (x = y)
  | Inf s, Inf s' => bool_decide (s = s')
  | _, _ => false
  end.

(** Neither an infinity nor [nan]. *)
Definition is_finite (a : float64) : Prop := ∃ x, a = Num x.

#[global] Instance is_finite_dec (a : float64) : Decision (is_finite a).
Proof.
  destruct a as [x|s|]; [left; by exists x|right; by intros [? ?]..].
Defined.

(** The number a finite float64 stands for. *)

Definition f64_real (a : float64) : option R :=
  match a with Num x => Some x | _ => None end.

(** A scalar times an array of finite numbers, and the sum of two arrays. *)
Definition mscale64 (c : float64) (M : matrix) : matrix64 :=
  (λ row : list R, (λ x, f64_mul c (Num x)) <$> row) <$> M.
Definition madd64 (M M' : matrix64) : matrix64 :=
  zip_with (zip_with f64_add) M M'.

(** [np.transpose(np.conj(M))] on an array of real float64. *)
Definition transpose64 (M : matrix64) : matrix64 :=
  (λ j, omap (λ row : list float64, row !! j) M)
    <$> seq 0 (match M with [] => 0%nat | row :: _ => length row end).

(** [np.array_equal(M, M')]: the same shape and [==] at every entry. *)
Fixpoint all2 {A} (eqb : A → A → bool) (l l' : list A) : bool :=
  match l, l' with
  | [], [] => true
  | x :: l, y :: l' => eqb x y && all2 eqb l l'
  | _, _ => false
  end.
Definition np_array_equal64 (M M' : matrix64) : bool :=
  all2 (all2 f64_eqb) M M'.

(** An array of finite numbers as an array of float64, and back when the
    array holds neither [inf] nor [nan]. *)
Definition lift64 (M : matrix) : matrix64 :=
  (λ row : list R, Num <$> row) <$> M.
Definition finite_matrix (M : matrix64) : option matrix :=
  mapM (mapM f64_real) M.

(** [H = 4 * Ec * (nmat - ng * np.eye(dim))**2 + EJ * V] with numpy scalars
    [Ec] and [EJ]; the arrays [nmat], [np.eye(dim)] and [V] and the sample
    [ng] are finite. *)
Definition hamiltonian64 (Ec EJ : float64) (nmat V : matrix) (ng : R)
  : matrix64 :=
  madd64 (mscale64 (f64_mul (Num 4) Ec)
            (msq (msub nmat (mscale ng (np_eye dim)))))
         (mscale64 EJ V).

Section with_eig64.
(** [numpy.linalg.eig], which refuses an array that holds [inf] or [nan]
    with a [LinAlgError] (a [ValueError]). *)
Variable eig : matrix → list R.

Definition level_step64 (Ec EJ : float64) (nmat V : matrix) (charge : list R)
    (iindex : nat) (elvls : matrix) : result matrix :=
  ng ← py_get charge (Z.of_nat iindex);
  let H := hamiltonian64 Ec EJ nmat V ng in
  if negb (np_array_equal64 H (transpose64 H))
  then Raise not_hermitian
  else
    match finite_matrix H with
    | None => Raise (ValueError "Array must not contain infs or NaNs")
    | Some H =>
        let d := eig H in
        let sorted_d := merge_sort Rle d in
        d0 ← py_get sorted_d 0;
        set_column elvls iindex (vminus sorted_d d0)
    end.

(** The solver from [nmax = 40] on, for given energies [Ec] and [EJ]. *)
Definition level_loop64 (Ec EJ : float64) (N : nat) : result matrix :=
  nmat ← charge_operator;
  let charge := np_linspace (-1) 1 N in
  let V := josephson_operator in
  for_range N (level_step64 Ec EJ nmat V charge) (np_zeros2 dim N).

(** [Ec = e**2 / 2 / C] and [EJ = IC * varphi] for numpy scalars [Cq] and
    [IC]: no division raises. *)
Definition charging_energy64 (Cq : float64) : float64 :=
  f64_div (Num (e ^ 2 / 2)) (f64_mul Cq (Num 1e-15)).
Definition josephson_energy64 (IC : float64) : float64 :=
  f64_mul (f64_mul IC (Num 1e-9)) (Num (hbar / 2 / e)).

(** The table [elvls] when [Cq] and [IC] are numpy scalars, as they are
    when the reducer calls the solver. *)
Definition level_table64 (Cq IC : float64) (N : nat) : result matrix :=
  level_loop64 (charging_energy64 Cq) (josephson_energy64 IC) N.

Definition levels_vs_ng_real_units64 (Cq IC : float64) (N : nat)
  : result (R * R * R * R) :=
  elvls ← level_table64 Cq IC N;
  level_summary elvls.
End with_eig64.
End numpy_scalars.

(** ** The circuit-parameter reducer *)

(** [fb] is a single number or a list of numbers. *)
Inductive freq_arg : Type :=
  | FreqScalar (f : R)
  | FreqList (fs : list R).

(** A value stored in [ham_dict]. *)
Inductive pyval : Type :=
  | VFloat (x : R)
  | VArray (xs : list R).

(** The local variables of [extract_transmon_coupled_Noscillator] that are
    alive at its [return]. *)
Record locals : Type := mkLocals {
  l_ground_index : Z;
  l_qubit_index : list Z;
  l_bus_index : list Z;
  l_Cg : list R;
  l_Cs : R;
  l_Cbus : matrix;
  l_Cq : R;
  l_T1bus : list R;
  l_T1 : R;
  l_ham_dict : gmap string pyval
}.

Section reducer.
Local Open Scope R_scope.
Variable eig : matrix → list R.

(** [transmon_props(Ic, Cq)], with [Ic] a Python float and [Cq] a numpy
    scalar, as the reducer calls it. *)
Definition transmon_props (Ic Cq : R) : result (R * R * R * R * R * R * R) :=
  LJ ← py_div phi0 Ic;
  EJ_hbar ← py_div (phi0 ^ 2) LJ;
  let EJ := EJ_hbar / hbar in
  let Zqp := sqrt (LJ / Cq) in
  let EC := e ^ 2 / 2 / Cq / hbar in
  let wq0 := 1 / sqrt (LJ * Cq) in
  let wq := 1 / sqrt (LJ * Cq) - EC in
  let eps1 := EC * 2 ^ 9 * (2 / sqrt PI) * Rpower (EJ / 2 / EC) 1.25
              * exp (- sqrt (8 * EJ / EC)) in
  Ok (LJ, EJ, Zqp, EC, wq, wq0, eps1).

(** [chi(g, wr, w01, w12)] on numbers; the reducer applies it to arrays
    element by element. *)
Definition chi (g wr w01 w12 : R) : R :=
  let chibus_0 := -2 * g ^ 2 * w01 / (w01 ^ 2 - wr ^ 2) in
  let chibus_1 := g ^ 2 * (1 / (w01 - wr) - 2 / (w12 - wr)
                           + 1 / (w01 + wr) - 2 / (w12 + wr)) in
  (chibus_1 - chibus_0) / 2.

(** The two checks at the top of the function. *)
Definition error_checks (capMatrix : matrix) (N : Z) : result unit :=
  if decide (N < 0)%Z then Raise (ValueError "N must positive")
  else if decide (Z.of_nat (length capMatrix) ≠ (N + 3)%Z)
  then Raise (ValueError "Capacitance matrix is not the right size")
  else Ok ().

(** [wr]: angular frequencies of the resonators, read-out first. *)
Definition resonator_frequencies (N : nat) (fb : freq_arg) (fr : R)
  : result (list R) :=
  for_range N
    (λ ii wr,
       if decide (ii = 0%nat) then set_item wr ii (2 * PI * fr * 1e9)
       else match fb with
            | FreqScalar f => set_item wr ii (2 * PI * f * 1e9)
            | FreqList fs =>
                f ← py_get fs (Z.of_nat ii - 1);
                set_item wr ii (2 * PI * f * 1e9)
            end)
    (np_zeros N).

(** The quarter-wave correction, applied in place to [Cr] and [Lr]. *)
Definition apply_L4_corr (res_L4_corr : option (list bool))
    (CrLr : list R * list R) : result (list R * list R) :=
  match res_L4_corr with
  | None => Ok CrLr
  | Some flags =>
      for_range (length flags)
        (λ i '(Cr, Lr),
           match flags !! i with
           | Some true =>
               c ← py_get Cr (Z.of_nat i);
               Cr ← set_item Cr i (c / 2.0);
               l ← py_get Lr (Z.of_nat i);
               Lr ← set_item Lr i (l * 2.0);
               Ok (Cr, Lr)
           | _ => Ok (Cr, Lr)
           end)
        CrLr
  end.

(** [ground_index = max([0, N - 1])] *)
Definition ground_index (N : Z) : Z := Z.max 0 (N - 1).

(** [qubit_index = [ground_index + 1, ground_index + 2]] *)
Definition qubit_index (N : Z) : list Z :=
  [(ground_index N + 1)%Z; (ground_index N + 2)%Z].

(** [bus_index]: the read-out pad is the last node of the matrix, the bus
    pads are the first ones. *)
Definition bus_index (N : nat) (len_capMatrix : nat) : result (list Z) :=
  for_range N
    (λ ii b,
       if decide (ii = 0%nat)
       then set_item b ii (Z.of_nat len_capMatrix - 1)%Z
       else set_item b ii (Z.of_nat ii - 1)%Z)
    (replicate N 0%Z).

(** [Cbus[ii, jj] = -capMatrix[qubit_index[ii], bus_index[jj]]] *)
Definition pad_to_bus (capMatrix : matrix) (qubit bus : list Z) (N : nat)
  : result matrix :=
  for_range 2
    (λ ii Cbus,
       for_range N
         (λ jj Cbus,
            q ← py_get qubit (Z.of_nat ii);
            b ← py_get bus (Z.of_nat jj);
            c ← mat_get capMatrix q b;
            mat_set Cbus ii jj (- c))
         Cbus)
    (np_zeros2 2 N).

(** [Cbusbus[ii, jj] = -capMatrix[bus_index[ii], bus_index[jj]]], [ii != jj] *)
Definition bus_to_bus (capMatrix : matrix) (bus : list Z) (N : nat)
  : result matrix :=
  for_range N
    (λ ii Cbusbus,
       for_range N
         (λ jj Cbusbus,
            if decide (ii ≠ jj) then
              bi ← py_get bus (Z.of_nat ii);
              bj ← py_get bus (Z.of_nat jj);
              c ← mat_get capMatrix bi bj;
              mat_set Cbusbus ii jj (- c)
            else Ok Cbusbus)
         Cbusbus)
    (np_zeros2 N N).

(** [T1 = 1 / np.sum(1 / T1bus)] for at least one port, else [100]. *)
Definition total_T1 (N : Z) (T1bus : list R) : R :=
  if decide (N > 0)%Z then 1 / np_sum (vrecip 1 T1bus) else 100.
End reducer.

Section reducer_main.
Local Open Scope R_scope.
Variable eig : matrix → list R.

(** The body of [extract_transmon_coupled_Noscillator] up to its [return].
    The text printed under [print_info] is not part of the embedding. The
    capacitances are real numbers: where numpy divides zero by zero
    ([C1S + C2S = 0]) and carries [nan] on, or hands a zero capacitance to
    the solver, the embedding does not follow the source, and the
    properties of the reducer leave these inputs out. *)
Definition extract_locals (capMatrix : matrix) (Ic CJ : R) (N : Z)
    (fb : freq_arg) (fr : R) (res_L4_corr : option (list bool))
    (g_scale : R) : result locals :=
  _ ← error_checks capMatrix N;
  let n := Z.to_nat N in
  wr ← resonator_frequencies n fb fr;
  (* Transmission line properties *)
  let Zbus := 50 in
  let Cr := vrecip (0.5 * PI) (vtimes wr Zbus) in
  let Lr := vquot (vrecip 1 (vsq wr)) Cr in
  '(Cr, Lr) ← apply_L4_corr res_L4_corr (Cr, Lr);
  (* Capacitance matrix parsing *)
  let ground := ground_index N in
  let qubit := qubit_index N in
  bus ← bus_index n (length capMatrix);
  q0 ← py_get qubit 0;
  q1 ← py_get qubit 1;
  cg0 ← mat_get capMatrix q0 ground;
  cg1 ← mat_get capMatrix q1 ground;
  let Cg := [- cg0; - cg1] in
  cs ← mat_get capMatrix q0 q1;
  let Cs := - cs in
  Cbus ← pad_to_bus capMatrix qubit bus n;
  Cbusbus ← bus_to_bus capMatrix bus n;
  Cg0 ← py_get Cg 0;
  Cg1 ← py_get Cg 1;
  Cbus0 ← py_get Cbus 0;
  Cbus1 ← py_get Cbus 1;
  let C1S := Cg0 + np_sum Cbus0 in
  let C2S := Cg1 + np_sum Cbus1 in
  let tCSq := Cs + C1S * C2S / (C1S + C2S) in
  tCSbus ← for_range n
    (λ ii tCSbus,
       cr ← py_get Cr (Z.of_nat ii);
       b0 ← mat_get Cbus 0 (Z.of_nat ii);
       b1 ← mat_get Cbus 1 (Z.of_nat ii);
       col ← mat_col Cbus (Z.of_nat ii);
       row ← py_get Cbusbus (Z.of_nat ii);
       set_item tCSbus ii
         (cr - (b0 + b1) ^ 2 / (C1S + C2S) + np_sum col + np_sum row))
    (np_zeros n);
  let tCqbus :=
    vdiv (vsub (vscale C2S Cbus0) (vtimes Cbus1 C1S)) (C1S + C2S) in
  tCqbusbus ← for_range n
    (λ ii t,
       for_range n
         (λ jj t,
            c ← mat_get Cbusbus (Z.of_nat ii) (Z.of_nat jj);
            a0 ← mat_get Cbus 0 (Z.of_nat ii);
            a1 ← mat_get Cbus 1 (Z.of_nat ii);
            b0 ← mat_get Cbus 0 (Z.of_nat jj);
            b1 ← mat_get Cbus 1 (Z.of_nat jj);
            mat_set t ii jj (c + (a0 + a1) * (b0 + b1) / (C1S + C2S)))
         t)
    (np_zeros2 n n);
  let bbus :=
    vdiv (vsub (vscale C2S Cbus0) (vtimes Cbus1 C1S))
         ((C1S + C2S) * Cs + C1S * C2S) in
  let Cq := tCSq + CJ in
  (* Transmon qubit and bus quantum properties *)
  '(LJ, EJ, Zqp, EC, wq, wq0, eps1) ← transmon_props Ic Cq;
  '(fq, alpha, disp, tphi_ms) ←
    levels_vs_ng_real_units eig (Cq / 1e-15) (Ic / 1e-9) 51;
  let wq := 2 * PI * fq * 1e9 in
  let Zbus := vsqrt (vquot Lr tCSbus) in
  let gqbus :=
    vtimes (vmul (vmul (vscale 0.5 wr) bbus) (vsqrt (vdiv Zbus Zqp)))
           g_scale in
  let gbus_in_MHz := vdiv (vdiv (vdiv gqbus 1e6) 2) PI in
  gbusbus ← for_range n
    (λ ii g,
       for_range n
         (λ jj g,
            t ← mat_get tCqbusbus (Z.of_nat ii) (Z.of_nat jj);
            si ← py_get tCSbus (Z.of_nat ii);
            sj ← py_get tCSbus (Z.of_nat jj);
            mat_set g ii jj (0.01 * t / (si * sj)))
         g)
    (np_zeros2 n n);
  (* Purcell, Qs, dissipative *)
  let Qreadout := 1e4 in
  let Qcouplingbus := 1e5 in
  Qbus ← for_range n
    (λ ii Qbus,
       if decide (ii = 0%nat) then set_item Qbus ii Qreadout
       else set_item Qbus ii Qcouplingbus)
    (np_zeros n);
  let kbus := vquot wr Qbus in
  let T1bus :=
    vquot (vsq (vminus (vsq wr) (wq ^ 2)))
          (vtimes (vmul (vscale 4 kbus) (vsq gqbus)) (wq ^ 2)) in
  let T1 := total_T1 N T1bus in
  (* Transmon properties and final summary *)
  let d := alpha * 2 * PI * 1e6 in
  let Chi_in_MHz :=
    vdiv (vdiv (vdiv
      (vscale 2 (zip_with (λ g w, chi g w wq (d + wq)) gqbus wr)) 2) PI)
      1e6 in
  let ham_dict : gmap string pyval := ∅ in
  let ham_dict := <["fQ" := VFloat (wq / 2 / PI / 1e9)]> ham_dict in
  let ham_dict := <["EC" := VFloat (EC / 2 / PI / 1e6)]> ham_dict in
  let ham_dict := <["EJ" := VFloat (EJ / 2 / PI / 1e9)]> ham_dict in
  let ham_dict := <["alpha" := VFloat alpha]> ham_dict in
  let ham_dict := <["dispersion" := VFloat (disp / 1e3)]> ham_dict in
  let ham_dict := <["gbus" := VArray gbus_in_MHz]> ham_dict in
  let ham_dict := <["chi_in_MHz" := VArray Chi_in_MHz]> ham_dict in
  Ok (mkLocals ground qubit bus Cg Cs Cbus Cq T1bus T1 ham_dict).

Definition extract_transmon_coupled_Noscillator (capMatrix : matrix)
    (Ic CJ : R) (N : Z) (fb : freq_arg) (fr : R)
    (res_L4_corr : option (list bool)) (g_scale : R) (print_info : bool)
  : result (gmap string pyval) :=
  l_ham_dict <$> extract_locals capMatrix Ic CJ N fb fr res_L4_corr g_scale.
End reducer_main.

(** ** Text primitives of the loaders

    A Python [str] is a list of characters. *)

Definition text : Type := list ascii.
Definition lit (s : string) : text := list_ascii_of_string s.
Definition newline : ascii := ascii_of_nat 10.

(** What follows [p] in [s] when [s] starts with [p]. *)
Fixpoint strip_prefix (p s : text) : option text :=
  match p, s with
  | [], _ => Some s
  | a :: p', b :: s' => if decide (a = b) then strip_prefix p' s' else None
  | _ :: _, [] => None
  end.

(** The text before and after the leftmost occurrence of [sep]. *)
Fixpoint find_first (sep s : text) {struct s} : option (text * text) :=
  match strip_prefix sep s with
  | Some rest => Some ([], rest)
  | None =>
      match s with
      | [] => None
      | c :: s' =>
          match find_first sep s' with
          | Some (pre, post) => Some (c :: pre, post)
          | None => None
          end
      end
  end.

(** [s.split(sep)] for the separator [c :: sep]: cut at the leftmost
    occurrence and go on behind it. *)
Equations? split_loop (c : ascii) (sep s : text) : list text
  by wf (length s) lt :=
  split_loop c sep s with inspect (find_first (c :: sep) s) := {
    | exist _ (Some (pre, post)) Hf => pre :: split_loop c sep post
    | exist _ None _ => [s] }.
Proof.
  clear split_loop. revert pre Hf.
  induction s as [|a s IH]; intros pre Hf; simpl in Hf; [discriminate|].
  destruct (decide (c = a)) as [->|].
  - destruct (strip_prefix sep s) as [rest|] eqn:Hs.
    + inversion Hf; subst. clear -Hs. revert s Hs.
      induction sep as [|b sep IH]; intros s Hs; simpl in *.
      { inversion Hs; subst. lia. }
      destruct s as [|x s]; [discriminate|].
      destruct (decide (b = x)); [|discriminate].
      apply IH in Hs. simpl in *. lia.
    + destruct (find_first (a :: sep) s) as [[pre' post']|] eqn:Hff;
        [|discriminate].
      inversion Hf; subst. specialize (IH _ eq_refl). simpl. lia.
  - destruct (find_first (c :: sep) s) as [[pre' post']|] eqn:Hff;
      [|discriminate].
    inversion Hf; subst. specialize (IH _ eq_refl). simpl. lia.
Qed.

(** [s.split(sep)]; Python refuses an empty separator. *)
Definition str_split (sep s : text) : result (list text) :=
  match sep with
  | [] => Raise (ValueError "empty separator")
  | c :: sep' => Ok (split_loop c sep' s)
  end.

(** Characters that [str.strip()] removes (code points below 256). *)
Definition is_space (c : ascii) : bool :=
  let n := nat_of_ascii c in
  ((9 <=? n) && (n <=? 13)) || ((28 <=? n) && (n <=? 32))
  || (n =? 133) || (n =? 160).

Fixpoint lstrip_by (p : ascii → bool) (s : text) : text :=
  match s with
  | c :: s' => if p c then lstrip_by p s' else s
  | [] => []
  end.

Definition strip_by (p : ascii → bool) (s : text) : text :=
  rev (lstrip_by p (rev (lstrip_by p s))).

(** [s.strip()] and [s.strip(chars)] *)
Definition str_strip (s : text) : text := strip_by is_space s.
Definition str_strip_chars (chars s : text) : text :=
  strip_by (λ c, bool_decide (c ∈ chars)) s.

(** The lazy group [(.*?)] followed by the character [stop]: the shortest
    run of characters accepted by [.] that ends before a [stop]. Without
    [re.DOTALL] the dot does not accept a line break. *)
Fixpoint lazy_until (dotall : bool) (stop : ascii) (s : text)
  : option (text * text) :=
  match s with
  | [] => None
  | c :: s' =>
      if decide (c = stop) then Some ([], s')
      else if dotall || negb (bool_decide (c = newline)) then
        match lazy_until dotall stop s' with
        | Some (g, rest) => Some (c :: g, rest)
        | None => None
        end
      else None
  end.

(** A match of the pattern [pat(.*?)stop] at the start of [s]: the
    group and the text behind the match. *)
Definition match_here (pat : text) (dotall : bool) (stop : ascii) (s : text)
  : option (text * text) :=
  match strip_prefix pat s with
  | Some rest => lazy_until dotall stop rest
  | None => None
  end.

(** [re.findall(pat + '(.*?)' + stop, s)]: the groups of the matches
    found from left to right, each search starting behind the last match. *)
Equations? re_findall (pat : text) (dotall : bool) (stop : ascii) (s : text)
  : list text by wf (length s) lt :=
  re_findall pat dotall stop [] := [];
  re_findall pat dotall stop (a :: s')
    with inspect (match_here pat dotall stop (a :: s')) := {
    | exist _ (Some (g, rest)) Hm => g :: re_findall pat dotall stop rest
    | exist _ None _ => re_findall pat dotall stop s' }.
Proof.
  clear re_findall. unfold match_here in Hm.
  { destruct (strip_prefix pat (a :: s')) as [r|] eqn:Hp; [|discriminate].
    assert (length r ≤ length (a :: s')) as Hr.
    { clear -Hp. revert Hp. generalize (a :: s'). intros s Hp. revert s Hp.
      induction pat as [|b p IH]; intros s Hp; simpl in Hp.
      - inversion Hp; subst. lia.
      - destruct s as [|x s]; [discriminate|].
        destruct (decide (b = x)); [|discriminate].
        apply IH in Hp. simpl. lia. }
    assert (length rest < length r); [|simpl in *; lia].
    clear -Hm. revert g Hm. induction r as [|x r IH]; intros g Hm; simpl in Hm.
    + discriminate.
    + destruct (decide (x = stop)).
      * inversion Hm; subst. simpl. lia.
      * destruct (dotall || negb (bool_decide (x = newline))); [|discriminate].
        destruct (lazy_until dotall stop r) as [[g' rest']|] eqn:Hl;
          [|discriminate].
        inversion Hm; subst. specialize (IH _ eq_refl). simpl. lia. }
Qed.

(** ** The loaders *)

Section loaders.
(** [pd.read_csv(io.StringIO(block), delim_whitespace=..,
    skipinitialspace=True, index_col=0)] and
    [pd.read_csv(io.StringIO(block), skipinitialspace=True, header=None)]. *)
Variable read_csv : text → bool → result (DataFrame R text).
Variable read_csv_noheader : text → result (DataFrame R text).

(** [df.drop(df.columns[-1], axis=1)]: every column that carries the
    label of the last column goes. *)
Definition drop_last_label (df : DataFrame R text)
  : result (DataFrame R text) :=
  last_label ← py_get (df_columns df) (-1);
  let ks := (filter (λ jl, jl.2 = last_label)
               (zip (seq 0 (length (df_columns df))) (df_columns df))).*1 in
  Ok (mkDataFrame (drop_positions ks <$> df_values df)
                  (df_index df)
                  (drop_positions ks (df_columns df))).

(** The part of [readin_q3d_matrix] behind the assertion; [s1_1] is the
    text that follows the capacitance marker. *)
Definition read_sections (txt s1_1 : text) (delim_whitespace : bool)
  : result (DataFrame R text * text * text * option (DataFrame R text)) :=
  s2 ← str_split (lit "Conductance Matrix") s1_1;
  s2_0 ← py_get s2 0;
  df_cmat ← read_csv (str_strip s2_0) delim_whitespace;
  df_cond ←
    (if decide (1 < length s2) then
       s2_1 ← py_get s2 1;
       d ← read_csv (str_strip s2_1) delim_whitespace;
       Ok (Some d)
     else Ok None);
  df_cmat ←
    (if negb delim_whitespace && negb (length (df_columns df_cmat) =? 0)
     then drop_last_label df_cmat else Ok df_cmat);
  units ← py_get (re_findall (lit "C Units:") false ","%char txt) 0;
  let design_variation := re_findall (lit "DesignVariation:") false newline txt in
  design_variation ←
    (if decide (length design_variation = 0) then
       let design_variation :=
         re_findall (lit "Design Variation:") false newline txt in
       match design_variation with
       | _ :: _ => py_get design_variation 0
       | [] => Ok ([] : text)
       end
     else py_get design_variation 0);
  Ok (df_cmat, units, design_variation, df_cond).

Definition capacitance_marker : text := lit "Capacitance Matrix".

(** [readin_q3d_matrix], from the text of the file on. *)
Definition readin_q3d_matrix (txt : text) (delim_whitespace : bool)
  : result (DataFrame R text * text * text * option (DataFrame R text)) :=
  s1 ← str_split capacitance_marker txt;
  if decide (length s1 = 2) then
    s1_1 ← py_get s1 1;
    read_sections txt s1_1 delim_whitespace
  else Raise (AssertionError "Copuld not split text to `Capacitance Matrix`").

(** [readin_q3d_matrix_m], from the text of the file on. The local [dfC]
    is bound only inside the [if]. *)
Definition readin_q3d_matrix_m (txt : text) : result (DataFrame R text) :=
  let match_ := re_findall (lit "capMatrix ") true "]"%char txt in
  dfC ←
    (match match_ with
     | _ :: _ =>
         m ← py_get match_ 0;
         let m := str_strip_chars [newline]
                    (str_strip_chars (lit "]")
                       (str_strip_chars (lit "= [") m)) in
         d ← read_csv_noheader m;
         Ok (Some d)
     | [] => Ok None
     end);
  match dfC with
  | Some d => Ok d
  | None => Raise (UnboundLocalError "dfC")
  end.
End loaders.

(** The number of places of [s] at which [m] begins. *)
Fixpoint occurrences (m s : text) : nat :=
  match s with
  | [] => if decide (m = []) then 1 else 0
  | _ :: s' =>
      (if strip_prefix m s is Some _ then 1 else 0) + occurrences m s'
  end.

(** Whether [txt] holds a segment that a dot-matches-all pattern
    [pat(.*?)stop] accepts: the text [pat] with a [stop] somewhere behind it. *)
Definition has_segment (pat : text) (stop : ascii) (txt : text) : bool :=
  match find_first pat txt with
  | Some (_, post) => bool_decide (stop ∈ post)
  | None => false
  end.

(** ** Notions used to state the properties of the solver *)

(** The eigenvalue routine returns one eigenvalue per row of its input. *)
Definition eig_shape (eig : matrix → list R) : Prop :=
  ∀ H : matrix, length (eig H) = length H.

(** The entry in row [r] and column [j] of a table. *)
Definition entry (M : matrix) (r j : nat) : option R :=
  M !! r ≫= λ row, row !! j.

(** The levels of one offset charge: the eigenvalues of its Hamiltonian in
    ascending order, counted from the smallest one. *)
Definition sample_levels (eig : matrix → list R) (Ec EJ : R) (nmat : matrix)
    (ng : R) : list R :=
  let sorted_d :=
    merge_sort Rle (eig (hamiltonian Ec EJ nmat josephson_operator ng)) in
  vminus sorted_d (default 0%R (head sorted_d)).

(** The charging and Josephson energies the solver derives from its
    arguments. *)
Definition charging_energy (Cq : R) : R := (e ^ 2 / 2 / (Cq * 1e-15))%R.
Definition josephson_energy (IC : R) : R := (IC * 1e-9 * (hbar / 2 / e))%R.

(** [np.diag(H)]: the diagonal of a matrix, which holds the eigenvalues of
    a diagonal matrix. It stands in for the eigenvalue routine in the
    examples. *)
Definition np_diagonal (H : matrix) : list R :=
  imap (λ i row, default 0%R (row !! i)) H.

(** The sum over a row of the absolute values of its entries off the
    diagonal, [i] being the number of the row. *)
Definition offdiag_sum (i : nat) (row : list R) : R :=
  np_sum (imap (λ j x, if decide (j = i) then 0 else Rabs x)%R row).

(** What is assumed of the eigenvalue routine where the size of the levels
    matters: the eigenvalues of a square symmetric matrix, in ascending
    order, lie as close to the entries of its diagonal, in ascending order,
    as the largest sum of the absolute values of the off-diagonal entries
    of a row (Weyl's inequality for the matrix and its diagonal, the norm
    of their difference being bounded by its largest absolute row sum). *)
Definition eig_near_diagonal (eig : matrix → list R) : Prop :=
  ∀ (H : matrix) (r : R),
    Forall (λ row, length row = length H) H →
    np_transpose H = H →
    (∀ i row, H !! i = Some row → (offdiag_sum i row <= r)%R) →
    ∀ k x d,
      merge_sort Rle (eig H) !! k = Some x →
      merge_sort Rle (np_diagonal H) !! k = Some d →
      (Rabs (x - d) <= r)%R.

(** Largest and smallest element of a non-empty list, the spread between
    them, and the mean. *)
Definition list_max (v : list R) : R :=
  match v with [] => 0%R | x :: v' => foldl Rmax x v' end.
Definition list_min (v : list R) : R :=
  match v with [] => 0%R | x :: v' => foldl Rmin x v' end.
Definition peak_to_peak (v : list R) : R := (list_max v - list_min v)%R.
Definition mean (v : list R) : R := (foldr Rplus 0 v / INR (length v))%R.

(** No port is marked as a quarter-wave resonator: the correction list is
    absent, empty, or holds no true entry. *)
Definition no_L4_corr (res_L4_corr : option (list bool)) : Prop :=
  match res_L4_corr with
  | None => True
  | Some flags => Forall (λ b, b = false) flags
  end.

(** ** The remaining functions of the module *)

Section converters.
Local Open Scope R_scope.

(** [Ic_from_Lj], [Ic_from_Ej], [Cs_from_Ec] and [chargeline_T1]. The
    numbers are real numbers and [/] is Python's division of floats, which
    raises on a zero divisor: the rounding of the floats, an overflow of
    [**] ([OverflowError]) and the underflow of a product to zero are not
    modelled, so what is proved of these functions is proved of their exact
    arithmetic. *)
Definition Ic_from_Lj (Lj : R) : result R := py_div phi0 Lj.
Definition Ic_from_Ej (Ej : R) : result R := py_div Ej phi0.
Definition Cs_from_Ec (Ec : R) : result R := py_div (e ^ 2) (2 * Ec).
Definition chargeline_T1 (Ccharge Cq f01 : R) : result R :=
  py_div Cq (Ccharge ^ 2 * 50 * (2 * PI * f01) ^ 2).

(** [cos_to_mega_and_delta]: the distance between the computed and the
    measured pair of frequencies ([x ** 0.5] is the square root). *)
Definition cos_to_mega_and_delta (eig : matrix → list R)
    (Cin ICin f01 f02on2 : R) : result R :=
  '(fqubitGHz, anharMHz, disp, tphi_ms) ←
    levels_vs_ng_real_units eig Cin ICin 51;
  Ok (sqrt ((fqubitGHz - f01) ^ 2
            + (fqubitGHz + anharMHz / 2 / 1e3 - f02on2) ^ 2)).
End converters.

Definition conductance_marker : text := lit "Conductance Matrix".

(** A parser that fails on an empty text, as [pandas.read_csv] does
    ([EmptyDataError], a [ValueError]), and returns an empty frame for any
    other text. It stands in for [pandas.read_csv] in an example. *)
Definition read_csv_nonempty (s : text) (delim_whitespace : bool)
  : result (DataFrame R text) :=
  if decide (s = []) then Raise (ValueError "No columns to parse from file")
  else Ok (mkDataFrame [] [] []).

(** A table that equals its transpose, entry by entry. *)
Definition symmetric_table {A} (M : list (list A)) : Prop :=
  ∀ a b : nat, M !! a ≫= (λ row, row !! b) = M !! b ≫= (λ row, row !! a).

(** ** Closed forms of the reducer's capacitances *)

(** Positions of the nodes in a capacitance matrix of [N + 3] rows, as
    natural numbers: [ground_index], [qubit_index[i]] and [bus_index[j]]. *)
Definition ground_position (N : nat) : nat := (N - 1)%nat.
Definition qubit_position (N i : nat) : nat := (N - 1 + 1 + i)%nat.
Definition bus_position (N j : nat) : nat :=
  if decide (j = 0%nat) then (N + 2)%nat else (j - 1)%nat.

(** [-capMatrix[a, b]] *)
Definition coupling (M : matrix) (a b : nat) : R :=
  (- default 0 (entry M a b))%R.

(** [C1S] and [C2S]: the capacitance of qubit pad [i] to ground plus its
    capacitances to all port pads, [Cg[i] + np.sum(Cbus[i,])]. *)
Definition pad_total (M : matrix) (N i : nat) : R :=
  (coupling M (qubit_position N i) (ground_position N)
   + np_sum ((λ j, coupling M (qubit_position N i) (bus_position N j))
             <$> seq 0 N))%R.

(** [Cq = Cs + C1S * C2S / (C1S + C2S) + CJ], for [C1S + C2S] other than
    zero: there numpy divides zero by zero and the source holds [nan],
    which no real number stands for. *)
Definition qubit_capacitance (M : matrix) (N : nat) (CJ : R) : R :=
  (coupling M (qubit_position N 0) (qubit_position N 1)
   + pad_total M N 0 * pad_total M N 1 / (pad_total M N 0 + pad_total M N 1)
   + CJ)%R.

(** An [n] by [m] array. *)
Definition shape (n m : nat) (M : matrix) : Prop :=
  length M = n ∧ Forall (λ row, length row = m) M.

(** [fb] is a number, or a list with a frequency for each of the [N - 1]
    bus ports; the list of quarter-wave flags has no more than [N] entries. *)
Definition enough_frequencies (N : nat) (fb : freq_arg) : Prop :=
  match fb with
  | FreqScalar _ => True
  | FreqList fs => (N - 1 ≤ length fs)%nat
  end.
Definition flags_fit (N : nat) (res_L4_corr : option (list bool)) : Prop :=
  match res_L4_corr with
  | None => True
  | Some flags => (length flags ≤ N)%nat
  end.

(** ** The node order of the capacitance matrix *)

(** Which rows and columns of the capacitance matrix stand for which node. *)
Record node_order : Type := mkNodeOrder {
  bus_pads : list Z;
  readout_pad : list Z;
  ground_node : Z;
  qubit_pads : list Z
}.

(** The order the reducer works with: [bus_index] lists the read-out pad
    first and the bus pads behind it. *)
Definition reducer_node_order (N : nat) : result node_order :=
  b ← bus_index N (N + 3);
  Ok (mkNodeOrder (drop 1 b) (take 1 b) (ground_index (Z.of_nat N))
                  (qubit_index (Z.of_nat N))).

(** The order in the words of the specification: bus pads at [0 .. N-2],
    read-out pad at [N-1], ground at [N], qubit pads at [N+1] and [N+2]. *)
Definition spec_node_order (N : nat) : node_order :=
  mkNodeOrder (Z.of_nat <$> seq 0 (N - 1)) [(Z.of_nat N - 1)%Z] (Z.of_nat N)
              [(Z.of_nat N + 1)%Z; (Z.of_nat N + 2)%Z].

(** The order in the words of the docstring: bus pads at [0 .. N-2], ground
    at [N-1], qubit pads at [N] and [N+1], read-out pad last, at [N+2]. *)
Definition docstring_node_order (N : nat) : node_order :=
  mkNodeOrder (Z.of_nat <$> seq 0 (N - 1)) [(Z.of_nat N + 2)%Z]
              (Z.of_nat N - 1)%Z [Z.of_nat N; (Z.of_nat N + 1)%Z].

(** * Properties *)

(** ** The result monad and loops *)

Lemma result_bind_ok {T U} (m : result T) (f : T → result U) (y : U) :
  m ≫= f = Ok y ↔ ∃ x, m = Ok x ∧ f x = Ok y.
Proof.
  destruct m as [x|err]; simpl; split.
  - intros Hf. by exists x.
  - by intros (x' & [= ->] & Hf).
  - discriminate.
  - by intros (x' & [=] & _).
Qed.

Lemma result_bind_raise {T U} (m : result T) (f : T → result U) (err : exn) :
  m = Raise err → m ≫= f = Raise err.
Proof. by intros ->. Qed.

Lemma set_item_ok {T} (a : list T) (i : nat) (x : T) :
  (i < length a)%nat → set_item a i x = Ok (<[i:=x]> a).
Proof. intros Hi. unfold set_item. by rewrite decide_True. Qed.

(** A loop that fills position [i] with [f i] leaves the table of [f]. *)
Lemma for_loop_fill {T} (f : nat → T) (m k : nat) (a : list T) :
  length a = (k + m)%nat →
  for_loop (seq k m) (λ i a, set_item a i (f i)) a
  = Ok (take k a ++ (f <$> seq k m)).
Proof.
  revert k a. induction m as [|m IH]; intros k a Hlen; simpl.
  - rewrite app_nil_r, take_ge by lia. done.
  - rewrite set_item_ok by lia. simpl.
    rewrite IH by (rewrite length_insert; lia).
    f_equal. rewrite (take_S_r _ k (f k)).
    + rewrite take_insert_ge by lia. by rewrite <- app_assoc.
    + apply list_lookup_insert_eq. lia.
Qed.

Lemma for_range_fill {T} (f : nat → T) (n : nat) (a : list T) :
  length a = n →
  for_range n (λ i a, set_item a i (f i)) a = Ok (f <$> seq 0 n).
Proof.
  intros Hlen. unfold for_range. rewrite for_loop_fill by done.
  by rewrite take_0.
Qed.

Lemma for_loop_ext {S} (its : list nat) (body body' : nat → S → result S) s :
  (∀ i s, i ∈ its → body i s = body' i s) →
  for_loop its body s = for_loop its body' s.
Proof.
  revert s. induction its as [|i its IH]; intros s Hext; simpl; [done|].
  rewrite Hext by set_solver. destruct (body' i s); simpl; [|done].
  apply IH. intros. apply Hext. set_solver.
Qed.

(** ** Input validation of the reducer *)

Lemma error_checks_negative (capMatrix : matrix) (N : Z) :
  (N < 0)%Z → error_checks capMatrix N = Raise (ValueError "N must positive").
Proof. intros HN. unfold error_checks. by rewrite decide_True. Qed.

Lemma error_checks_size (capMatrix : matrix) (N : Z) :
  (0 ≤ N)%Z → Z.of_nat (length capMatrix) ≠ (N + 3)%Z →
  error_checks capMatrix N
  = Raise (ValueError "Capacitance matrix is not the right size").
Proof.
  intros HN Hlen. unfold error_checks.
  rewrite decide_False by lia. by rewrite decide_True.
Qed.

Lemma error_checks_pass (capMatrix : matrix) (N : Z) :
  (0 ≤ N)%Z → Z.of_nat (length capMatrix) = (N + 3)%Z →
  error_checks capMatrix N = Ok ().
Proof.
  intros HN Hlen. unfold error_checks.
  rewrite decide_False by lia. by rewrite decide_False by (intros ?; lia).
Qed.

Lemma extract_raises_checks eig capMatrix Ic CJ N fb fr res_L4_corr g_scale
    print_info err :
  error_checks capMatrix N = Raise err →
  extract_transmon_coupled_Noscillator eig capMatrix Ic CJ N fb fr
    res_L4_corr g_scale print_info = Raise err.
Proof.
  intros Hc. unfold extract_transmon_coupled_Noscillator, extract_locals.
  by rewrite Hc.
Qed.

(** C2. [extract_transmon_coupled_Noscillator] raises a [ValueError] when
    [N < 0] and when the number of rows of the capacitance matrix is not
    [N + 3]; for [N >= 0] and exactly [N + 3] rows both checks pass. *)
Theorem extract_input_validation eig (capMatrix : matrix) Ic CJ (N : Z) fb fr
    res_L4_corr g_scale print_info :
  ((N < 0)%Z →
     ∃ msg, extract_transmon_coupled_Noscillator eig capMatrix Ic CJ N fb fr
              res_L4_corr g_scale print_info = Raise (ValueError msg))
  ∧ (Z.of_nat (length capMatrix) ≠ (N + 3)%Z →
     ∃ msg, extract_transmon_coupled_Noscillator eig capMatrix Ic CJ N fb fr
              res_L4_corr g_scale print_info = Raise (ValueError msg))
  ∧ ((0 ≤ N)%Z → Z.of_nat (length capMatrix) = (N + 3)%Z →
     error_checks capMatrix N = Ok ()).
Proof.
  split; [|split].
  - intros HN. eexists. apply extract_raises_checks.
    by apply error_checks_negative.
  - intros Hlen. destruct (decide (N < 0)%Z) as [HN|HN].
    + eexists. apply extract_raises_checks. by apply error_checks_negative.
    + eexists. apply extract_raises_checks. apply error_checks_size; [lia|done].
  - apply error_checks_pass.
Qed.

(** At [N = -1], at [N = 1] with three rows, and at [N = 1] with four. *)
Lemma extract_input_validation_witness :
  (∃ msg, extract_transmon_coupled_Noscillator (λ _, [])
            (replicate 3 (replicate 3 0%R)) 1 1 (-1)
            (FreqScalar 1) 1 None 1 false = Raise (ValueError msg))
  ∧ (∃ msg, extract_transmon_coupled_Noscillator (λ _, [])
            (replicate 3 (replicate 3 0%R)) 1 1 1
            (FreqScalar 1) 1 None 1 false = Raise (ValueError msg))
  ∧ error_checks (replicate 4 (replicate 4 0%R)) 1 = Ok ().
Proof.
  split; [|split].
  - apply (proj1 (extract_input_validation (λ _, [])
             (replicate 3 (replicate 3 0%R)) 1 1 (-1) (FreqScalar 1) 1 None 1
             false)). lia.
  - apply (proj1 (proj2 (extract_input_validation (λ _, [])
             (replicate 3 (replicate 3 0%R)) 1 1 1 (FreqScalar 1) 1 None 1
             false))). simpl. lia.
  - apply (proj2 (proj2 (extract_input_validation (λ _, [])
             (replicate 4 (replicate 4 0%R)) 1 1 1 (FreqScalar 1) 1 None 1
             false))); simpl; lia.
Defined.

(** ** The node order read by the reducer *)

Lemma bus_index_table (N len : nat) :
  bus_index N len
  = Ok ((λ ii : nat, if decide (ii = 0%nat) then (Z.of_nat len - 1)%Z
                     else (Z.of_nat ii - 1)%Z) <$> seq 0 N).
Proof.
  unfold bus_index, for_range.
  rewrite (for_loop_ext _ _
    (λ ii b, set_item b ii
       (if decide (ii = 0%nat) then (Z.of_nat len - 1)%Z
        else (Z.of_nat ii - 1)%Z))).
  - apply (for_range_fill _ N). apply length_replicate.
  - intros i b _. by destruct (decide (i = 0%nat)).
Qed.

Lemma bus_index_ports (N len : nat) :
  bus_index (S N) len = Ok ((Z.of_nat len - 1)%Z :: (Z.of_nat <$> seq 0 N)).
Proof.
  rewrite bus_index_table. simpl. do 2 f_equal.
  rewrite <- fmap_S_seq, <- list_fmap_compose.
  apply list_fmap_ext. intros _ i _. simpl. lia.
Qed.

Lemma ground_index_ports (N : nat) :
  ground_index (Z.of_nat (S N)) = Z.of_nat N.
Proof. unfold ground_index. lia. Qed.

(** The specification's order is not the one the reducer reads with one port: the
    reducer finds the ground at index 0 and the read-out pad at index 3,
    not the read-out pad at 0 and the ground at 1. *)
Lemma spec_node_order_counterexample :
  reducer_node_order 1 ≠ Ok (spec_node_order 1).
Proof. vm_compute. intros [=]. Qed.

(** C3 (amended). For every port count [N >= 1] the reducer reads the
    [(N+3)]-node capacitance matrix in the order of its docstring: bus pads
    at indices [0 .. N-2], ground at [N-1], the two qubit pads at [N] and
    [N+1], and the read-out pad last, at [N+2]. *)
Theorem reducer_node_order_docstring (N : nat) :
  (1 ≤ N)%nat → reducer_node_order N = Ok (docstring_node_order N).
Proof.
  intros HN. destruct N as [|N]; [lia|].
  unfold reducer_node_order, docstring_node_order, qubit_index.
  rewrite bus_index_ports, ground_index_ports. cbn -[Z.of_nat].
  rewrite Nat.sub_0_r, take_0. do 2 f_equal.
  - f_equal. lia.
  - lia.
  - f_equal; [lia|]. f_equal. lia.
Qed.

Lemma reducer_node_order_docstring_witness :
  (1 ≤ 3)%nat
  ∧ reducer_node_order 3 = Ok (mkNodeOrder [0; 1] [5] 2 [3; 4])%Z.
Proof.
  split; [lia|]. apply (reducer_node_order_docstring 3). lia.
Defined.

(** Without ports there is neither bus nor read-out pad: the ground is
    node 0 and the qubit pads are nodes 1 and 2. *)
Lemma reducer_node_order_no_port :
  reducer_node_order 0 = Ok (mkNodeOrder [] [] 0 [1; 2])%Z.
Proof. reflexivity. Qed.

(** The reducer reads the capacitance matrix at the nodes computed by
    [ground_index], [qubit_index] and [bus_index]. *)
Lemma extract_locals_nodes eig capMatrix Ic CJ N fb fr res_L4_corr g_scale l :
  extract_locals eig capMatrix Ic CJ N fb fr res_L4_corr g_scale = Ok l →
  l_ground_index l = ground_index N
  ∧ l_qubit_index l = qubit_index N
  ∧ bus_index (Z.to_nat N) (length capMatrix) = Ok (l_bus_index l)
  ∧ (∃ q0 q1 cg0 cg1 cs,
       qubit_index N = [q0; q1]
       ∧ mat_get capMatrix q0 (ground_index N) = Ok cg0
       ∧ mat_get capMatrix q1 (ground_index N) = Ok cg1
       ∧ mat_get capMatrix q0 q1 = Ok cs
       ∧ l_Cg l = [- cg0; - cg1]%R ∧ l_Cs l = (- cs)%R)
  ∧ pad_to_bus capMatrix (qubit_index N) (l_bus_index l) (Z.to_nat N)
    = Ok (l_Cbus l).
Proof.
  unfold extract_locals. intros H.
  repeat
    match goal with
    | H : (_ ≫= _) = Ok _ |- _ =>
        let x := fresh "x" in let Hx := fresh "Hx" in
        apply result_bind_ok in H as (x & Hx & H)
    | H : (let '(_, _) := ?p in _) = Ok _ |- _ => destruct p
    end.
  injection H as <-. simpl.
  assert (py_get (qubit_index N) 0 = Ok (ground_index N + 1)%Z) as Hq0
    by reflexivity.
  assert (py_get (qubit_index N) 1 = Ok (ground_index N + 2)%Z) as Hq1
    by reflexivity.
  repeat match goal with
         | H1 : ?m = Ok ?a, H2 : ?m = Ok ?b |- _ =>
             rewrite H1 in H2; injection H2 as <-
         end.
  repeat split; try done.
  by do 5 eexists.
Qed.

(** ** Splitting a text at a marker *)

Lemma strip_prefix_Some (p s rest : text) :
  strip_prefix p s = Some rest ↔ s = p ++ rest.
Proof.
  revert s. induction p as [|a p IH]; intros s; simpl.
  - split; [by intros [= ->]|by intros ->].
  - destruct s as [|b s]; [by split|].
    destruct (decide (a = b)) as [->|Hab].
    + rewrite IH. split; [by intros ->|by intros [= ->]].
    + split; [done|]. intros [= <- _]. done.
Qed.

Lemma strip_prefix_app (p rest : text) : strip_prefix p (p ++ rest) = Some rest.
Proof. by apply strip_prefix_Some. Qed.

Lemma strip_prefix_head (c b : ascii) (p s : text) :
  c ≠ b → strip_prefix (c :: p) (b :: s) = None.
Proof. intros Hcb. simpl. by rewrite decide_False. Qed.

Lemma find_first_here (sep s : text) :
  find_first sep s
  = match strip_prefix sep s with
    | Some rest => Some ([], rest)
    | None =>
        match s with
        | [] => None
        | c :: s' =>
            match find_first sep s' with
            | Some (pre, post) => Some (c :: pre, post)
            | None => None
            end
        end
    end.
Proof. by destruct s. Qed.

Lemma find_first_Some (sep s pre post : text) :
  find_first sep s = Some (pre, post) →
  s = pre ++ sep ++ post ∧ occurrences sep s = occurrences sep (sep ++ post).
Proof.
  revert pre. induction s as [|a s IH]; intros pre Hf.
  - simpl in Hf. destruct (strip_prefix sep []) as [rest|] eqn:Hp; [|done].
    injection Hf as <- <-. apply strip_prefix_Some in Hp. by rewrite <- Hp.
  - cbn [find_first] in Hf.
    destruct (strip_prefix sep (a :: s)) as [rest|] eqn:Hp.
    + injection Hf as <- <-. apply strip_prefix_Some in Hp.
      by rewrite <- Hp.
    + destruct (find_first sep s) as [[pre' post']|] eqn:Hs; [|done].
      injection Hf as <- <-. destruct (IH _ eq_refl) as [-> Hocc].
      split; [done|]. cbn [occurrences]. rewrite <- Hocc.
      change (a :: pre' ++ sep ++ post') with (a :: (pre' ++ sep ++ post')) in Hp.
      by rewrite Hp.
Qed.

Lemma find_first_None (sep s : text) :
  find_first sep s = None → occurrences sep s = 0.
Proof.
  induction s as [|a s IH]; intros Hf.
  - simpl in Hf. destruct sep; [done|]. done.
  - cbn [find_first] in Hf.
    destruct (strip_prefix sep (a :: s)) as [rest|] eqn:Hp; [done|].
    destruct (find_first sep s) as [[pre' post']|] eqn:Hs; [done|].
    cbn [occurrences]. rewrite Hp, IH; done.
Qed.

(** Behind a run of characters other than [c], no occurrence of [c :: sep]
    begins inside the run. *)
Lemma occurrences_skip (c : ascii) (sep u post : text) :
  c ∉ u → occurrences (c :: sep) (u ++ post) = occurrences (c :: sep) post.
Proof.
  induction u as [|b u IH]; intros Hc; [done|].
  cbn [app occurrences]. rewrite strip_prefix_head by set_solver.
  apply IH. set_solver.
Qed.

Lemma occurrences_marker_app (c : ascii) (sep post : text) :
  c ∉ sep →
  occurrences (c :: sep) ((c :: sep) ++ post)
  = S (occurrences (c :: sep) post).
Proof.
  intros Hc. change ((c :: sep) ++ post) with (c :: (sep ++ post)).
  cbn [occurrences].
  change (c :: (sep ++ post)) with ((c :: sep) ++ post).
  rewrite strip_prefix_app. simpl. f_equal. by apply occurrences_skip.
Qed.

Lemma split_loop_cases (c : ascii) (sep s : text) :
  split_loop c sep s
  = match find_first (c :: sep) s with
    | Some (pre, post) => pre :: split_loop c sep post
    | None => [s]
    end.
Proof.
  funelim (split_loop c sep s);
    match goal with E : find_first _ _ = _ |- _ => by rewrite E end.
Qed.

(** When the first character of the marker does not come back inside it,
    the pieces are one more than the places where the marker begins. *)
Lemma split_loop_length (c : ascii) (sep s : text) :
  c ∉ sep → length (split_loop c sep s) = S (occurrences (c :: sep) s).
Proof.
  intros Hc. funelim (split_loop c sep s).
  - match goal with E : find_first _ _ = Some _ |- _ =>
      destruct (find_first_Some _ _ _ _ E) as [_ ->] end.
    rewrite occurrences_marker_app by done. simpl. f_equal. auto.
  - match goal with E : find_first _ _ = None |- _ =>
      rewrite (find_first_None _ _ E) end. done.
Qed.

Lemma split_loop_once (c : ascii) (sep s : text) :
  c ∉ sep → occurrences (c :: sep) s = 1 →
  ∃ pre post, s = pre ++ (c :: sep) ++ post ∧ split_loop c sep s = [pre; post].
Proof.
  intros Hc Hocc. rewrite split_loop_cases.
  destruct (find_first (c :: sep) s) as [[pre post]|] eqn:Hf.
  - exists pre, post. apply find_first_Some in Hf as [-> Hf].
    split; [done|]. f_equal.
    rewrite Hf, occurrences_marker_app in Hocc by done.
    rewrite split_loop_cases.
    destruct (find_first (c :: sep) post) as [[pre' post']|] eqn:Hg; [|done].
    apply find_first_Some in Hg as [_ Hg].
    rewrite Hg, occurrences_marker_app in Hocc by done. lia.
  - apply find_first_None in Hf. lia.
Qed.

Lemma capacitance_marker_cons :
  capacitance_marker = "C"%char :: lit "apacitance Matrix"
  ∧ "C"%char ∉ lit "apacitance Matrix".
Proof. split; [done|]. apply (bool_decide_unpack _). by vm_compute. Qed.

(** C8. [readin_q3d_matrix] fails at its assertion whenever the marker
    'Capacitance Matrix' begins at no place or at more than one place of the
    text; when the marker begins at exactly one place the text is cut there
    and the loader goes on to parse what follows the marker. *)
Theorem readin_q3d_matrix_marker read_csv (txt : text) (delim_whitespace : bool) :
  (occurrences capacitance_marker txt ≠ 1 →
   readin_q3d_matrix read_csv txt delim_whitespace
   = Raise (AssertionError "Copuld not split text to `Capacitance Matrix`"))
  ∧ (occurrences capacitance_marker txt = 1 →
     ∃ pre post, txt = pre ++ capacitance_marker ++ post
       ∧ readin_q3d_matrix read_csv txt delim_whitespace
         = read_sections read_csv txt post delim_whitespace).
Proof.
  destruct capacitance_marker_cons as [Hm Hc].
  unfold readin_q3d_matrix. rewrite Hm. cbn [str_split mbind result_bind].
  split; intros Hocc.
  - rewrite decide_False; [done|].
    rewrite split_loop_length by done. lia.
  - destruct (split_loop_once _ _ _ Hc Hocc) as (pre & post & Htxt & ->).
    exists pre, post. split; [done|]. by rewrite decide_True.
Qed.

Lemma readin_q3d_matrix_marker_witness :
  readin_q3d_matrix (λ _ _, Raise IndexError) (lit "C Units:farad,") true
  = Raise (AssertionError "Copuld not split text to `Capacitance Matrix`")
  ∧ ∃ pre post,
      lit "a Capacitance Matrix b" = pre ++ capacitance_marker ++ post
      ∧ readin_q3d_matrix (λ _ _, Raise IndexError)
          (lit "a Capacitance Matrix b") true
        = read_sections (λ _ _, Raise IndexError)
            (lit "a Capacitance Matrix b") post true.
Proof.
  split.
  - apply (proj1 (readin_q3d_matrix_marker (λ _ _, Raise IndexError)
                    (lit "C Units:farad,") true)).
    vm_compute. lia.
  - apply (proj2 (readin_q3d_matrix_marker (λ _ _, Raise IndexError)
                    (lit "a Capacitance Matrix b") true)).
    vm_compute. reflexivity.
Defined.

(** ** Searching a text for a pattern *)

Lemma lazy_until_Some (dotall : bool) (stop : ascii) (s g rest : text) :
  lazy_until dotall stop s = Some (g, rest) → s = g ++ stop :: rest.
Proof.
  revert g. induction s as [|a s IH]; intros g Hl; simpl in Hl; [done|].
  destruct (decide (a = stop)) as [->|].
  - by injection Hl as <- <-.
  - destruct (dotall || negb (bool_decide (a = newline))); [|done].
    destruct (lazy_until dotall stop s) as [[g' rest']|]; [|done].
    injection Hl as <- <-. by rewrite (IH g' eq_refl).
Qed.

Lemma match_here_Some (pat : text) dotall stop (s g rest : text) :
  match_here pat dotall stop s = Some (g, rest) →
  s = pat ++ g ++ stop :: rest.
Proof.
  unfold match_here. intros Hm.
  destruct (strip_prefix pat s) as [r|] eqn:Hp; [|done].
  apply strip_prefix_Some in Hp as ->.
  by apply lazy_until_Some in Hm as ->.
Qed.

(** Every group that [re.findall] reports sits in the text behind [pat] and
    before a [stop]. *)
Lemma re_findall_cons (pat : text) dotall stop (s : text) :
  re_findall pat dotall stop s ≠ [] →
  ∃ a g c, s = a ++ pat ++ g ++ stop :: c.
Proof.
  funelim (re_findall pat dotall stop s); intros Hne.
  - done.
  - match goal with E : match_here _ _ _ _ = Some _ |- _ =>
      pose proof (match_here_Some _ _ _ _ _ _ E) as Hs end.
    exists [], g, rest. by rewrite Hs.
  - match goal with IH : _ ≠ [] → _ |- _ =>
      destruct (IH Hne) as (a0 & g & c & ->) end.
    by exists (a :: a0), g, c.
Qed.

(** What is behind the leftmost occurrence of [pat] includes what is behind
    any other occurrence. *)
Lemma find_first_leftmost (pat w t : text) :
  ∃ pre u, find_first pat (w ++ pat ++ t) = Some (pre, u ++ t).
Proof.
  induction w as [|x w (pre & u & IH)].
  - exists [], []. rewrite find_first_here. simpl.
    by rewrite strip_prefix_app.
  - cbn [app find_first].
    destruct (strip_prefix pat (x :: w ++ pat ++ t)) as [rest|] eqn:Hp.
    + exists [], (drop (length pat) ((x :: w) ++ pat)).
      apply strip_prefix_Some in Hp. do 2 f_equal.
      apply (f_equal (drop (length pat))) in Hp.
      rewrite drop_app_length in Hp. rewrite <- Hp.
      change (x :: w ++ pat ++ t) with ((x :: w) ++ pat ++ t).
      rewrite (app_assoc (x :: w)).
      apply drop_app_le. rewrite length_app. lia.
    + rewrite IH. by exists (x :: pre), u.
Qed.

Lemma has_segment_true (pat : text) (stop : ascii) (txt : text) :
  has_segment pat stop txt = true ↔ ∃ a g c, txt = a ++ pat ++ g ++ stop :: c.
Proof.
  unfold has_segment. split.
  - destruct (find_first pat txt) as [[pre post]|] eqn:Hf; [|done].
    intros Hin%bool_decide_eq_true.
    apply find_first_Some in Hf as [-> _].
    apply list_elem_of_split in Hin as (g & c & ->). by exists pre, g, c.
  - intros (a & g & c & ->).
    destruct (find_first_leftmost pat a (g ++ stop :: c)) as (pre & u & ->).
    apply bool_decide_eq_true. set_solver.
Qed.

(** C10. When the text holds no segment that matches 'capMatrix (.*?)]',
    [readin_q3d_matrix_m] ends in an [UnboundLocalError] for [dfC] at its
    [return]; it returns neither [None] nor an empty frame. *)
Theorem readin_q3d_matrix_m_no_match read_csv_noheader (txt : text) :
  has_segment (lit "capMatrix ") "]" txt = false →
  readin_q3d_matrix_m read_csv_noheader txt = Raise (UnboundLocalError "dfC").
Proof.
  intros Hseg. unfold readin_q3d_matrix_m.
  destruct (re_findall (lit "capMatrix ") true "]" txt) as [|m ms] eqn:Hre;
    [done|].
  assert (has_segment (lit "capMatrix ") "]" txt = true) as Hyes.
  { apply has_segment_true, (re_findall_cons _ true). by rewrite Hre. }
  congruence.
Qed.

Lemma readin_q3d_matrix_m_no_match_witness :
  has_segment (lit "capMatrix ") "]" (lit "capMatrix = [1, 2") = false
  ∧ readin_q3d_matrix_m (λ _, Ok (mkDataFrame [] [] []))
      (lit "capMatrix = [1, 2")
    = Raise (UnboundLocalError "dfC").
Proof.
  split; [reflexivity|].
  apply (readin_q3d_matrix_m_no_match (λ _, Ok (mkDataFrame [] [] []))
           (lit "capMatrix = [1, 2")).
  reflexivity.
Defined.

(** ** Index arrays *)

Lemma mapM_result_lookup {T U} (f : T → result U) (l : list T) (k : list U) :
  mapM f l = Ok k →
  length k = length l
  ∧ ∀ i x, l !! i = Some x → ∃ y, k !! i = Some y ∧ f x = Ok y.
Proof.
  revert k. induction l as [|x l IH]; intros k Hm; simpl in Hm.
  - injection Hm as <-. split; [done|]. intros i x. by rewrite lookup_nil.
  - apply result_bind_ok in Hm as (y & Hy & Hm).
    apply result_bind_ok in Hm as (k' & Hk' & [= <-]).
    destruct (IH _ Hk') as [Hlen Hlk]. split; [simpl; lia|].
    intros [|i] x'; simpl.
    + intros [= <-]. eauto.
    + apply Hlk.
Qed.

Lemma mapM_result_ok {T U} (f : T → result U) (l : list T) :
  (∀ x, x ∈ l → is_ok (f x)) → is_ok (mapM f l).
Proof.
  induction l as [|x l IH]; intros Hok; simpl.
  - by eexists.
  - destruct (Hok x) as [y ->]; [set_solver|].
    destruct IH as [k ->]; [intros; apply Hok; set_solver|].
    by eexists.
Qed.

Lemma mapM_result_fmap {T U} (f : T → result U) (g : T → U) (l : list T) :
  (∀ x, x ∈ l → f x = Ok (g x)) → mapM f l = Ok (g <$> l).
Proof.
  induction l as [|x l IH]; intros Hok; simpl; [done|].
  rewrite Hok by set_solver. simpl.
  rewrite IH by (intros; apply Hok; set_solver). done.
Qed.

Lemma norm_index_lt (n : nat) (i : Z) (k : nat) :
  norm_index n i = Ok k → (k < n)%nat.
Proof.
  unfold norm_index. repeat case_decide; intros [=]; lia.
Qed.

Lemma norm_index_of_nat (n k : nat) :
  (k < n)%nat → norm_index n (Z.of_nat k) = Ok k.
Proof.
  intros Hk. unfold norm_index. rewrite decide_True by lia.
  by rewrite Nat2Z.id.
Qed.

Lemma positions_lookup (n : nat) (idx : list Z) (P : list nat) :
  positions n idx = Ok P →
  length P = length idx
  ∧ (∀ a k, P !! a = Some k → (k < n)%nat)
  ∧ (∀ a j, idx !! a = Some j →
       ∃ k, P !! a = Some k ∧ norm_index n j = Ok k).
Proof.
  intros [Hlen Hlk]%mapM_result_lookup. split; [done|]. split; [|done].
  intros a k Hk.
  destruct (lookup_lt_is_Some_2 idx a) as [j Hj].
  { rewrite <- Hlen. by eapply lookup_lt_Some. }
  destruct (Hlk _ _ Hj) as (k' & Hk' & Hn).
  rewrite Hk in Hk'. injection Hk' as <-. by eapply norm_index_lt.
Qed.

Lemma positions_of_nat (n : nat) (Q : list nat) :
  (∀ k, k ∈ Q → (k < n)%nat) → positions n (Z.of_nat <$> Q) = Ok Q.
Proof.
  intros HQ. unfold positions.
  rewrite (mapM_result_fmap _ Z.to_nat).
  - f_equal. rewrite <- list_fmap_compose.
    rewrite <- (list_fmap_id Q) at 2. apply list_fmap_ext.
    intros _ k _. simpl. lia.
  - intros j (k & -> & Hk)%list_elem_of_fmap.
    rewrite norm_index_of_nat by auto. by rewrite Nat2Z.id.
Qed.

Lemma positions_app (n : nat) (u v : list Z) (U V : list nat) :
  positions n u = Ok U → positions n v = Ok V →
  positions n (u ++ v) = Ok (U ++ V).
Proof.
  unfold positions. revert U. induction u as [|j u IH]; intros U HU HV; simpl in *.
  - by injection HU as <-.
  - apply result_bind_ok in HU as (k & -> & HU).
    apply result_bind_ok in HU as (U' & HU' & [= <-]).
    simpl. by rewrite (IH _ HU' HV).
Qed.

(** Reading along an index array whose positions are known. *)
Lemma take_along_lookup {T} (l : list T) (idx : list Z) (P : list nat) :
  positions (length l) idx = Ok P →
  ∃ r, take_along l idx = Ok r
    ∧ length r = length P
    ∧ ∀ a k, P !! a = Some k → r !! a = l !! k.
Proof.
  intros HP. destruct (positions_lookup _ _ _ HP) as (Hlen & Hlt & Hlk).
  destruct (mapM_result_ok (py_get l) idx) as [r Hr].
  { intros j (a & Ha)%list_elem_of_lookup.
    destruct (Hlk _ _ Ha) as (k & Hk & Hn).
    unfold py_get. rewrite Hn. simpl.
    destruct (lookup_lt_is_Some_2 l k) as [x ->]; [by eapply Hlt|].
    by eexists. }
  exists r. split; [done|].
  apply mapM_result_lookup in Hr as [Hlr Hr]. split; [lia|].
  intros a k Hk.
  destruct (lookup_lt_is_Some_2 idx a) as [j Hj].
  { rewrite <- Hlen. by eapply lookup_lt_Some. }
  destruct (Hr _ _ Hj) as (y & Hy & Hg).
  destruct (Hlk _ _ Hj) as (k' & Hk' & Hn).
  rewrite Hk in Hk'. injection Hk' as <-.
  unfold py_get in Hg. rewrite Hn in Hg. simpl in Hg.
  destruct (l !! k) as [x|]; [|done]. by injection Hg as <-.
Qed.

Lemma mapM_result_intro {T U} (f : T → result U) (l : list T) (k : list U) :
  length k = length l →
  (∀ i x, l !! i = Some x → ∃ y, k !! i = Some y ∧ f x = Ok y) →
  mapM f l = Ok k.
Proof.
  revert k. induction l as [|x l IH]; intros [|y k] Hlen Hlk; simpl in *;
    try done.
  destruct (Hlk 0%nat x eq_refl) as (y' & [= <-] & ->). simpl.
  rewrite (IH k); [done|lia|]. intros i x' Hx'. apply (Hlk (S i) x' Hx').
Qed.

(** ** Reading along a permutation and along its inverse *)

Lemma take_along_round_trip {T} (l : list T) (n : nat) (p q : list Z) :
  length l = n → inverse_on n p q →
  ∃ r, take_along l p = Ok r ∧ length r = n ∧ take_along r q = Ok l.
Proof.
  intros Hl (P & Q & HP & HQ & HlP & HlQ & Hinv).
  destruct (take_along_lookup l p P) as (r & Hr & Hlr & Hrk);
    [by rewrite Hl|].
  exists r. split; [done|]. split; [lia|].
  destruct (take_along_lookup r q Q) as (r2 & Hr2 & Hlr2 & Hr2k);
    [by rewrite Hlr, HlP|].
  rewrite Hr2. f_equal. apply list_eq. intros i.
  destruct (decide (i < n)%nat) as [Hi|Hi].
  - destruct (Hinv i Hi) as (k & HQk & HPk).
    by rewrite (Hr2k _ _ HQk), (Hrk _ _ HPk).
  - rewrite !lookup_ge_None_2 by lia. done.
Qed.

(** Selecting rows commutes with a row-by-row computation. *)
Lemma mapM_take_along {T U} (g : T → result U) (rows rows' : list T)
    (M : list U) (q : list Z) (Q : list nat) :
  positions (length rows) q = Ok Q →
  mapM g rows = Ok M → take_along rows q = Ok rows' →
  ∃ M', mapM g rows' = Ok M' ∧ take_along M q = Ok M'.
Proof.
  intros HQ HM Hrows'.
  apply mapM_result_lookup in HM as [HlM HM].
  destruct (take_along_lookup rows q Q HQ) as (r & Hr & Hlr & Hrk).
  rewrite Hrows' in Hr. injection Hr as <-.
  destruct (take_along_lookup M q Q) as (M' & HM' & HlM' & HM'k);
    [by rewrite HlM|].
  exists M'. split; [|done].
  apply mapM_result_intro; [lia|]. intros a x Hx.
  destruct (lookup_lt_is_Some_2 Q a) as [k Hk].
  { rewrite <- Hlr. by eapply lookup_lt_Some. }
  rewrite (Hrk _ _ Hk) in Hx. rewrite (HM'k _ _ Hk).
  by apply HM.
Qed.

Section round_trip.
Context {A L : Type}.
Implicit Types (df : DataFrame A L) (arr : list (list A)).

Lemma df_reorder_reindex df i_from i_to :
  df_reorder_matrix_basis df i_from i_to
  = move_index_to i_from i_to (length (df_values df)) ≫= reindex df.
Proof. done. Qed.

Lemma np_ix_shape arr (n : nat) (p : list Z) (P : list nat) :
  length arr = n → Forall (λ row, length row = n) arr →
  positions n p = Ok P →
  ∃ M, np_ix arr p p = Ok M ∧ length M = length P
    ∧ Forall (λ row, length row = length P) M.
Proof.
  intros Hl Hrows HP. unfold np_ix.
  destruct (take_along_lookup arr p P) as (rows & -> & Hlr & Hrk);
    [by rewrite Hl|].
  simpl.
  assert (Forall (λ row, length row = n) rows) as Hrows'.
  { apply Forall_lookup. intros a row Ha.
    destruct (lookup_lt_is_Some_2 P a) as [k Hk].
    { rewrite <- Hlr. by eapply lookup_lt_Some. }
    rewrite (Hrk _ _ Hk) in Ha.
    exact (Forall_lookup_1 _ _ _ _ Hrows Ha). }
  destruct (mapM_result_ok (λ row : list A, take_along row p) rows) as [M HM].
  { intros row Hrow. eapply Forall_forall in Hrows'; [|done].
    destruct (take_along_lookup row p P) as (r & Hr & _); [by rewrite Hrows'|].
    by eexists. }
  exists M. split; [done|].
  apply mapM_result_lookup in HM as [HlM HMk]. split; [lia|].
  apply Forall_lookup. intros a r Ha.
  destruct (lookup_lt_is_Some_2 rows a) as [row Hrow].
  { rewrite <- HlM. by eapply lookup_lt_Some. }
  destruct (HMk _ _ Hrow) as (r' & Hr' & Ht).
  rewrite Ha in Hr'. injection Hr' as <-.
  eapply Forall_lookup_1 in Hrows'; [|done].
  destruct (take_along_lookup row p P) as (r' & Hr' & Hlr' & _);
    [by rewrite Hrows'|].
  congruence.
Qed.

Lemma np_ix_round_trip arr (n : nat) (p q : list Z) :
  length arr = n → Forall (λ row, length row = n) arr →
  inverse_on n p q →
  ∃ M, np_ix arr p p = Ok M ∧ np_ix M q q = Ok arr.
Proof.
  intros Hl Hrows Hinv.
  destruct (Hinv) as (P & Q & HP & HQ & HlP & HlQ & _).
  destruct (np_ix_shape arr n p P Hl Hrows HP) as (M & HM & HlM & _).
  exists M. split; [done|].
  unfold np_ix in *.
  destruct (take_along_round_trip arr n p q Hl Hinv) as (rows & Hr & Hlr & Hback).
  rewrite Hr in HM. simpl in HM.
  destruct (mapM_take_along (λ row : list A, take_along row p) rows arr M q Q)
    as (M' & HM' & ->);
    [by rewrite Hlr|done|done|].
  simpl. apply mapM_result_lookup in HM' as [HlM' HM'k].
  apply mapM_result_intro; [lia|].
  intros a r1 Ha.
  destruct (lookup_lt_is_Some_2 arr a) as [row Hrow].
  { rewrite <- HlM'. by eapply lookup_lt_Some. }
  destruct (HM'k _ _ Hrow) as (r1' & Hr1' & Hp).
  rewrite Ha in Hr1'. injection Hr1' as <-.
  exists row. split; [done|].
  eapply Forall_lookup_1 in Hrows; [|done].
  destruct (take_along_round_trip row n p q Hrows Hinv) as (r & Hr' & _ & Hq).
  congruence.
Qed.

(** Reordering along [p] and then along an inverse of [p] gives the frame
    back. *)
Lemma reindex_round_trip df (n : nat) (p q : list Z) :
  square n df → inverse_on n p q →
  ∃ df', reindex df p = Ok df' ∧ length (df_values df') = n
    ∧ reindex df' q = Ok df.
Proof.
  intros (Hl & Hrows & Hli & Hlc) Hinv.
  destruct (Hinv) as (P & Q & HP & HQ & HlP & HlQ & _).
  destruct (np_ix_round_trip _ n p q Hl Hrows Hinv) as (M & HM & HMq).
  destruct (np_ix_shape _ n p P Hl Hrows HP) as (M0 & HM0 & HlM & HMrows).
  rewrite HM in HM0. injection HM0 as <-.
  destruct (take_along_round_trip (df_columns df) n p q Hlc Hinv)
    as (cols & Hcols & Hlcols & Hcq).
  destruct (take_along_round_trip (df_index df) n p q Hli Hinv)
    as (rows & Hrws & Hlrows & Hrq).
  exists (mkDataFrame M rows cols). unfold reindex.
  rewrite HM, Hcols, Hrws. simpl. unfold pd_DataFrame.
  rewrite decide_True; last first.
  { split; [lia|]. rewrite Hlcols, <- HlP. done. }
  split; [done|]. split; [simpl; lia|]. simpl.
  rewrite HMq, Hcq, Hrq. simpl.
  rewrite decide_True; last first.
  { split; [lia|]. rewrite Hlc. done. }
  by destruct df.
Qed.
End round_trip.

(** ** The index permutation of [move_index_to] *)

Lemma drop_positions_tabulate {T} (f : nat → T) (ks : list nat) (j n : nat) :
  (filter (λ ix : nat * T, ix.1 ∉ ks) (zip (seq j n) (f <$> seq j n))).*2
  = f <$> filter (λ i, i ∉ ks) (seq j n).
Proof.
  revert j. induction n as [|n IH]; intros j; [done|].
  cbn [seq fmap list_fmap zip zip_with]. rewrite !filter_cons. simpl.
  destruct (decide (j ∉ ks)); simpl; by rewrite IH.
Qed.

Lemma np_delete_arange (n : nat) (obj : list Z) (F : list nat) :
  positions n obj = Ok F →
  np_delete (np_arange n) obj
  = Ok (Z.of_nat <$> filter (λ i, i ∉ F) (seq 0 n)).
Proof.
  intros HF. unfold np_delete, np_arange.
  rewrite length_fmap, length_seq, HF. simpl. f_equal.
  unfold drop_positions. rewrite length_fmap, length_seq.
  apply drop_positions_tabulate.
Qed.

(** The positions named by the result of [move_index_to]: the positions
    that stay, in increasing order, with the moved ones put in as a block. *)
Lemma move_index_to_positions (i_from : list Z) (i_to : Z) (n : nat)
    (p : list Z) (F : list nat) :
  move_index_to i_from i_to n = Ok p → positions n i_from = Ok F →
  ∃ t, let R := filter (λ i, i ∉ F) (seq 0 n) in
    p = take t (Z.of_nat <$> R) ++ i_from ++ drop t (Z.of_nat <$> R)
    ∧ positions n p = Ok (take t R ++ F ++ drop t R).
Proof.
  intros Hm HF. unfold move_index_to in Hm.
  rewrite (np_delete_arange _ _ _ HF) in Hm. simpl in Hm.
  unfold np_insert in Hm. case_decide; [done|]. injection Hm as <-.
  eexists. split; [done|].
  rewrite <- !fmap_take, <- !fmap_drop.
  repeat apply positions_app; try done;
    apply positions_of_nat; intros k Hk.
  - apply elem_of_take in Hk as (i & Hk & _).
    apply list_elem_of_lookup_2, list_elem_of_filter in Hk as [_ Hk].
    apply elem_of_seq in Hk. lia.
  - apply list_elem_of_lookup in Hk as (i & Hk). rewrite lookup_drop in Hk.
    apply list_elem_of_lookup_2, list_elem_of_filter in Hk as [_ Hk].
    apply elem_of_seq in Hk. lia.
Qed.

Lemma block_insert_perm {T} (t : nat) (R F : list T) :
  take t R ++ F ++ drop t R ≡ₚ R ++ F.
Proof.
  rewrite <- (take_drop t R) at 3.
  rewrite <- !app_assoc. f_equiv. apply Permutation_app_comm.
Qed.

(** With distinct sources the result is a permutation of [0 .. n-1]. *)
Lemma move_index_to_permutation (i_from : list Z) (i_to : Z) (n : nat)
    (p : list Z) :
  move_index_to i_from i_to n = Ok p → distinct_sources n i_from →
  ∃ P, positions n p = Ok P ∧ P ≡ₚ seq 0 n.
Proof.
  intros Hm (F & HF & HFnd).
  destruct (move_index_to_positions _ _ _ _ _ Hm HF) as (t & _ & HP).
  eexists. split; [done|].
  rewrite block_insert_perm.
  destruct (positions_lookup _ _ _ HF) as (_ & HFlt & _).
  apply NoDup_Permutation.
  - apply NoDup_app. split; [apply NoDup_filter, NoDup_seq|].
    split; [|done]. by intros x [Hx _]%list_elem_of_filter.
  - apply NoDup_seq.
  - intros x. rewrite elem_of_app, list_elem_of_filter, elem_of_seq.
    split.
    + intros [[_ Hx]|Hx]; [done|].
      apply list_elem_of_lookup in Hx as (a & Ha).
      apply HFlt in Ha. lia.
    + intros Hx. destruct (decide (x ∈ F)); [by right|by left].
Qed.

(** Every permutation of [0 .. n-1] has an inverse. *)
Lemma permutation_inverse (P : list nat) (n : nat) :
  P ≡ₚ seq 0 n →
  ∃ Q, length Q = n ∧ ∀ a, (a < n)%nat → ∃ k, Q !! a = Some k ∧ P !! k = Some a.
Proof.
  intros HP.
  assert (∀ a, (a < n)%nat → ∃ k, P !! k = Some a) as Hfind.
  { intros a Ha. apply list_elem_of_lookup. rewrite HP.
    apply elem_of_seq. lia. }
  clear HP. induction n as [|n IH].
  - exists []. split; [done|]. intros a Ha. lia.
  - destruct IH as (Q & HlQ & HQ); [intros; apply Hfind; lia|].
    destruct (Hfind n) as (k & Hk); [lia|].
    exists (Q ++ [k]). split; [rewrite length_app; simpl; lia|].
    intros a Ha. destruct (decide (a = n)) as [->|Hne].
    + exists k. split; [|done].
      rewrite lookup_app_r by lia. by rewrite HlQ, Nat.sub_diag.
    + destruct (HQ a) as (k' & Hk' & HP'); [lia|].
      exists k'. split; [|done]. by rewrite lookup_app_l by lia.
Qed.

(** Moving all positions at once installs any arrangement of them. *)
Lemma move_index_to_all (Q : list nat) (n : nat) :
  (∀ k, k ∈ Q → (k < n)%nat) → (∀ i, (i < n)%nat → i ∈ Q) →
  move_index_to (Z.of_nat <$> Q) 0 n = Ok (Z.of_nat <$> Q).
Proof.
  intros Hlt Hall. unfold move_index_to.
  rewrite (np_delete_arange n _ Q) by by apply positions_of_nat.
  assert (filter (λ i, i ∉ Q) (seq 0 n) = []) as ->.
  { destruct (filter _ _) as [|i l'] eqn:Hf; [done|].
    assert (i ∈ filter (λ i, i ∉ Q) (seq 0 n)) as Hi by (rewrite Hf; left).
    apply list_elem_of_filter in Hi as [Hn Hi%elem_of_seq].
    destruct Hn. apply Hall. lia. }
  simpl. unfold np_insert. simpl. by rewrite app_nil_r.
Qed.

(** A move with distinct sources can always be undone by a move. *)
Lemma move_index_to_undo (i_from : list Z) (i_to : Z) (n : nat) (p : list Z) :
  move_index_to i_from i_to n = Ok p → distinct_sources n i_from →
  ∃ i_from' i_to', undoes_move n p i_from' i_to'.
Proof.
  intros Hm Hd.
  destruct (move_index_to_permutation _ _ _ _ Hm Hd) as (P & HP & Hperm).
  destruct (permutation_inverse P n Hperm) as (Q & HlQ & HQ).
  assert (length P = n) as HlP by by rewrite Hperm, length_seq.
  assert (NoDup P) as HPnd by (rewrite Hperm; apply NoDup_seq).
  assert (∀ k, k ∈ Q → (k < n)%nat) as HQlt.
  { intros k (a & Ha)%list_elem_of_lookup.
    destruct (HQ a) as (k' & Hk' & HPk); [rewrite <- HlQ; by eapply lookup_lt_Some|].
    rewrite Ha in Hk'. injection Hk' as <-.
    rewrite <- HlP. by eapply lookup_lt_Some. }
  exists (Z.of_nat <$> Q), 0%Z, (Z.of_nat <$> Q). split.
  - apply move_index_to_all; [done|].
    intros i Hi.
    destruct (lookup_lt_is_Some_2 P i) as [a Ha]; [lia|].
    assert (a < n)%nat as Han.
    { apply list_elem_of_lookup_2 in Ha. rewrite Hperm in Ha.
      apply elem_of_seq in Ha. lia. }
    destruct (HQ a Han) as (k & Hk & HPk).
    assert (k = i) as -> by by eapply NoDup_alt.
    by eapply list_elem_of_lookup_2.
  - exists P, Q. split; [done|]. split; [by apply positions_of_nat|done].
Qed.

(** ** Moving a single index, and moving it back *)

Lemma filter_all {T} (P : T → Prop) `{∀ x, Decision (P x)} (l : list T) :
  Forall P l → filter P l = l.
Proof.
  induction 1 as [|x l Hx Hl IH]; [done|].
  rewrite filter_cons, decide_True by done. by rewrite IH.
Qed.

(** The positions other than [f], in increasing order. *)
Lemma others_lookup (f n i : nat) :
  (f < n)%nat → (i < n - 1)%nat →
  filter (λ k, k ∉ [f]) (seq 0 n) !! i
  = Some (if decide (i < f)%nat then i else S i).
Proof.
  intros Hf Hi.
  replace n with (f + S (n - S f))%nat at 1 by lia.
  rewrite seq_app. cbn [seq]. rewrite filter_app, filter_cons.
  rewrite decide_False by (intros Hn; apply Hn; left).
  rewrite !filter_all.
  - destruct (decide (i < f)%nat) as [Hlt|Hge].
    + rewrite lookup_app_l by (rewrite length_seq; lia).
      by rewrite lookup_seq_lt.
    + rewrite lookup_app_r by (rewrite length_seq; lia).
      rewrite length_seq. rewrite lookup_seq_lt by lia. f_equal. lia.
  - apply Forall_forall. intros k Hk%elem_of_seq Hin.
    apply elem_of_cons in Hin as [->|Hin%elem_of_nil]; [lia|done].
  - apply Forall_forall. intros k Hk%elem_of_seq Hin.
    apply elem_of_cons in Hin as [->|Hin%elem_of_nil]; [lia|done].
Qed.

Lemma others_length (f n : nat) :
  (f < n)%nat → length (filter (λ k, k ∉ [f]) (seq 0 n)) = (n - 1)%nat.
Proof.
  intros Hf.
  replace n with (f + S (n - S f))%nat at 1 by lia.
  rewrite seq_app. cbn [seq]. rewrite filter_app, filter_cons.
  rewrite decide_False by (intros Hn; apply Hn; left).
  rewrite !filter_all.
  - rewrite length_app, !length_seq. lia.
  - apply Forall_forall. intros k Hk%elem_of_seq Hin.
    apply elem_of_cons in Hin as [->|Hin%elem_of_nil]; [lia|done].
  - apply Forall_forall. intros k Hk%elem_of_seq Hin.
    apply elem_of_cons in Hin as [->|Hin%elem_of_nil]; [lia|done].
Qed.

(** Where the positions end up when position [f] is moved to place [t]. *)
Lemma single_move_lookup (f t n k : nat) :
  (f < n)%nat → (t < n)%nat → (k < n)%nat →
  let R := filter (λ k, k ∉ [f]) (seq 0 n) in
  (take t R ++ f :: drop t R) !! k
  = Some (if decide (k < t)%nat then (if decide (k < f)%nat then k else S k)
          else if decide (k = t) then f
          else (if decide (k - 1 < f)%nat then (k - 1)%nat else k)).
Proof.
  intros Hf Ht Hk R.
  pose proof (others_length f n Hf) as HlR. fold R in HlR.
  destruct (decide (k < t)%nat) as [Hlt|Hge].
  - rewrite lookup_app_l by (rewrite length_take; lia).
    rewrite lookup_take, decide_True by done.
    unfold R. by rewrite others_lookup by lia.
  - rewrite lookup_app_r by (rewrite length_take; lia).
    rewrite length_take, Nat.min_l by lia.
    destruct (decide (k = t)) as [->|Hne].
    + by rewrite Nat.sub_diag.
    + replace (k - t)%nat with (S (k - t - 1)) by lia. simpl.
      rewrite lookup_drop. replace (t + (k - t - 1))%nat with (k - 1)%nat by lia.
      unfold R. rewrite others_lookup by lia.
      f_equal. destruct (decide (k - 1 < f)%nat); [done|lia].
Qed.

Lemma move_index_to_single (f t n : nat) :
  (f < n)%nat → (t < n)%nat →
  let R := filter (λ k, k ∉ [f]) (seq 0 n) in
  move_index_to [Z.of_nat f] (Z.of_nat t) n
  = Ok (Z.of_nat <$> take t R ++ f :: drop t R).
Proof.
  intros Hf Ht R. unfold move_index_to.
  rewrite (np_delete_arange n _ [f])
    by (apply (positions_of_nat n [f]); intros k Hin;
        apply elem_of_cons in Hin as [->|Hin%elem_of_nil]; [lia|done]).
  simpl. unfold np_insert.
  pose proof (others_length f n Hf) as HlR.
  rewrite length_fmap, HlR.
  rewrite decide_False by lia. rewrite decide_False by lia.
  rewrite Nat2Z.id. f_equal.
  rewrite fmap_app, fmap_take. simpl. by rewrite fmap_drop.
Qed.

(** Moving position [f] to place [t] is undone by moving position [t] to
    place [f]. *)
Lemma move_index_to_single_undo (f t n : nat) (p : list Z) :
  (f < n)%nat → (t < n)%nat →
  move_index_to [Z.of_nat f] (Z.of_nat t) n = Ok p →
  undoes_move n p [Z.of_nat t] (Z.of_nat f).
Proof.
  intros Hf Ht Hp. rewrite move_index_to_single in Hp by done.
  injection Hp as <-.
  eexists. split; [by apply move_index_to_single|].
  pose proof (others_length f n Hf) as HlF.
  pose proof (others_length t n Ht) as HlT.
  eexists _, _. split; [|split].
  - apply positions_of_nat. intros k (a & Ha)%list_elem_of_lookup.
    assert (a < n)%nat as Han.
    { apply lookup_lt_Some in Ha. revert Ha.
      rewrite length_app, length_take. simpl. rewrite length_drop. lia. }
    rewrite single_move_lookup in Ha by done. injection Ha as <-.
    repeat case_decide; lia.
  - apply positions_of_nat. intros k (a & Ha)%list_elem_of_lookup.
    assert (a < n)%nat as Han.
    { apply lookup_lt_Some in Ha. revert Ha.
      rewrite length_app, length_take. simpl. rewrite length_drop. lia. }
    rewrite single_move_lookup in Ha by done. injection Ha as <-.
    repeat case_decide; lia.
  - split; [rewrite length_app, length_take; simpl; rewrite length_drop; lia|].
    split; [rewrite length_app, length_take; simpl; rewrite length_drop; lia|].
    intros a Ha. eexists. split; [by apply single_move_lookup|].
    rewrite single_move_lookup; [|done|done|repeat case_decide; lia].
    f_equal. repeat case_decide; lia.
Qed.

(** X8. Swapping the two arguments undoes the move of one row and column. *)
Lemma df_reorder_swap_back {A L} (df : DataFrame A L) (n f t : nat) :
  square n df → (f < n)%nat → (t < n)%nat →
  df_reorder_matrix_basis df [Z.of_nat f] (Z.of_nat t)
    ≫= (λ df', df_reorder_matrix_basis df' [Z.of_nat t] (Z.of_nat f))
  = Ok df.
Proof.
  intros Hsq Hf Ht.
  destruct (move_index_to [Z.of_nat f] (Z.of_nat t) n) as [p|err] eqn:Hp;
    [|by rewrite move_index_to_single in Hp].
  destruct (move_index_to_single_undo f t n p Hf Ht Hp) as (q & Hq & Hinv).
  destruct (reindex_round_trip df n p q Hsq Hinv) as (df' & Hdf' & Hl' & Hback).
  rewrite df_reorder_reindex. destruct Hsq as [Hl _].
  rewrite Hl, Hp. simpl. rewrite Hdf'. simpl.
  by rewrite df_reorder_reindex, Hl', Hq.
Qed.

(** C1. Round trip of the basis reorderer. For a square labelled table and
    valid, distinct source indices, the move can be undone by a second call
    of [df_reorder_matrix_basis], and every second call whose index
    permutation is the inverse of the first gives back the original table:
    the same entries and the same row and column labels in the same
    order. *)
Theorem df_reorder_round_trip {A L} (df : DataFrame A L) (n : nat)
    (i_from : list Z) (i_to : Z) (p : list Z) :
  square n df →
  distinct_sources n i_from →
  move_index_to i_from i_to n = Ok p →
  (∃ i_from' i_to', undoes_move n p i_from' i_to')
  ∧ ∀ i_from' i_to', undoes_move n p i_from' i_to' →
      df_reorder_matrix_basis df i_from i_to
        ≫= (λ df', df_reorder_matrix_basis df' i_from' i_to')
      = Ok df.
Proof.
  intros Hsq Hd Hm. split; [by eapply move_index_to_undo|].
  intros i_from' i_to' (q & Hq & Hinv).
  destruct (reindex_round_trip df n p q Hsq Hinv) as (df' & Hdf' & Hl' & Hback).
  rewrite df_reorder_reindex. destruct Hsq as [Hl _].
  rewrite Hl, Hm. simpl. rewrite Hdf'. simpl.
  rewrite df_reorder_reindex, Hl', Hq. done.
Qed.

(** Moving row and column 0 of a 3 by 3 table to the end, and back. *)
Lemma df_reorder_round_trip_witness :
  df_reorder_matrix_basis
    (mkDataFrame [[1; 2; 3]; [4; 5; 6]; [7; 8; 9]]%nat
                 ["a"; "b"; "c"]%string ["x"; "y"; "z"]%string) [0%Z] 2
    ≫= (λ df', df_reorder_matrix_basis df' [2%Z] 0)
  = Ok (mkDataFrame [[1; 2; 3]; [4; 5; 6]; [7; 8; 9]]%nat
                    ["a"; "b"; "c"]%string ["x"; "y"; "z"]%string).
Proof.
  apply (proj2 (df_reorder_round_trip
                  (mkDataFrame [[1; 2; 3]; [4; 5; 6]; [7; 8; 9]]%nat
                     ["a"; "b"; "c"]%string ["x"; "y"; "z"]%string)
                  3 [0%Z] 2 [1; 2; 0]%Z
                  ltac:(repeat split; repeat constructor)
                  ltac:(exists [0%nat]; split;
                          [reflexivity|apply NoDup_singleton])
                  ltac:(reflexivity))).
  exists [2; 0; 1]%Z. split; [reflexivity|].
  exists [1; 2; 0]%nat, [2; 0; 1]%nat. repeat split; try reflexivity.
  intros [|[|[|a]]] Ha; [by exists 2%nat|by exists 0%nat|by exists 1%nat|lia].
Defined.

(** ** The reorderer does not write to its input *)

Section purity.
Context {A L : Type}.
Implicit Types (σ : store A L) (l : loc).

Lemma readonly_preserving {T} (m : heapM A L T) : readonly m → preserving m.
Proof. intros Hm σ. by rewrite Hm. Qed.

Lemma readonly_ret {T} (x : T) : readonly (mret x : heapM A L T).
Proof. done. Qed.

Lemma readonly_lift {T} (r : result T) : readonly (lift r : heapM A L T).
Proof. done. Qed.

Lemma readonly_load l : readonly (load l : heapM A L _).
Proof. intros σ. unfold load. by destruct (σ !! l). Qed.

Lemma readonly_bind {T U} (m : heapM A L T) (f : T → heapM A L U) :
  readonly m → (∀ x, readonly (f x)) → readonly (m ≫= f).
Proof.
  intros Hm Hf σ. unfold mbind, heapM_bind. specialize (Hm σ).
  destruct (m σ) as [[x|err] σ1]; simpl in *; subst; [apply Hf|done].
Qed.

Lemma preserving_bind {T U} (m : heapM A L T) (f : T → heapM A L U) :
  preserving m → (∀ x, preserving (f x)) → preserving (m ≫= f).
Proof.
  intros Hm Hf σ. unfold mbind, heapM_bind. specialize (Hm σ).
  destruct (m σ) as [[x|err] σ1]; simpl in *; [|done].
  etrans; [done|apply Hf].
Qed.

Lemma alloc_fresh (o : pyobj A L) σ :
  ∃ l, alloc o σ = (Ok l, <[l:=o]> σ) ∧ σ !! l = None.
Proof.
  exists (fresh (dom σ)). split; [done|].
  apply not_elem_of_dom, is_fresh.
Qed.

Lemma preserving_alloc (o : pyobj A L) : preserving (alloc o).
Proof.
  intros σ. destruct (alloc_fresh o σ) as (l & -> & Hl).
  by apply insert_subseteq.
Qed.

Lemma readonly_load_matrix l : readonly (load_matrix l : heapM A L _).
Proof.
  apply readonly_bind; [apply readonly_load|]. by intros [].
Qed.

Lemma readonly_load_ints l : readonly (load_ints l : heapM A L _).
Proof.
  apply readonly_bind; [apply readonly_load|]. by intros [].
Qed.

Lemma readonly_load_labels l : readonly (load_labels l : heapM A L _).
Proof.
  apply readonly_bind; [apply readonly_load|]. by intros [].
Qed.

Lemma readonly_load_frame l : readonly (load_frame l : heapM A L _).
Proof.
  apply readonly_bind; [apply readonly_load|]. by intros [].
Qed.

(** Rules for stepping through a computation. *)
Ltac preserving_step :=
  first
    [ apply preserving_alloc
    | apply readonly_preserving;
      first [ apply readonly_load_matrix | apply readonly_load_ints
            | apply readonly_load_labels | apply readonly_load_frame
            | apply readonly_lift | apply readonly_ret ]
    | apply preserving_bind; [|intros ?] ].

Lemma preserving_move_index_to i_from i_to len_ :
  preserving (move_index_to_st i_from i_to len_ : heapM A L _).
Proof. unfold move_index_to_st. repeat preserving_step. Qed.

Lemma preserving_pd_DataFrame arr cols rows :
  preserving (pd_DataFrame_st arr cols rows : heapM A L _).
Proof. unfold pd_DataFrame_st. repeat preserving_step. Qed.

Lemma preserving_df_reorder df i_from i_to :
  preserving (df_reorder_matrix_basis_st df i_from i_to : heapM A L _).
Proof.
  unfold df_reorder_matrix_basis_st.
  apply preserving_bind; [preserving_step|]. intros [[v i] c].
  repeat first [ apply preserving_move_index_to
               | apply preserving_pd_DataFrame
               | preserving_step ].
Qed.

Lemma heapM_bind_ok {T U} (m : heapM A L T) (f : T → heapM A L U) σ y σ' :
  (m ≫= f) σ = (Ok y, σ') →
  ∃ x σ1, m σ = (Ok x, σ1) ∧ f x σ1 = (Ok y, σ').
Proof.
  unfold mbind, heapM_bind.
  destruct (m σ) as [[x|err] σ1]; [|done]. eauto.
Qed.

Lemma readonly_ok {T} (m : heapM A L T) σ x σ' :
  readonly m → m σ = (Ok x, σ') → σ' = σ.
Proof. intros Hm Hr. specialize (Hm σ). by rewrite Hr in Hm. Qed.

Lemma preserving_ok {T} (m : heapM A L T) σ r σ' :
  preserving m → m σ = (r, σ') → σ ⊆ σ'.
Proof. intros Hm Hr. specialize (Hm σ). by rewrite Hr in Hm. Qed.

Lemma alloc_ok (o : pyobj A L) σ l σ' :
  alloc o σ = (Ok l, σ') → σ !! l = None ∧ σ' = <[l:=o]> σ.
Proof.
  destruct (alloc_fresh o σ) as (l' & -> & Hl). by intros [= <- <-].
Qed.

Lemma subseteq_fresh σ σ' l : σ ⊆ σ' → σ' !! l = None → σ !! l = None.
Proof.
  intros Hsub Hl. destruct (σ !! l) as [o|] eqn:Ho; [|done].
  eapply lookup_weaken in Ho; [|done]. congruence.
Qed.

(** The frame that a successful call returns, and its three parts, are new
    objects. *)
Lemma df_reorder_fresh df i_from i_to σ l σ' :
  df_reorder_matrix_basis_st df i_from i_to σ = (Ok l, σ') →
  σ !! l = None
  ∧ ∃ v i c, σ' !! l = Some (ObjFrame v i c)
      ∧ σ !! v = None ∧ σ !! i = None ∧ σ !! c = None.
Proof.
  unfold df_reorder_matrix_basis_st. intros Hrun.
  apply heapM_bind_ok in Hrun as ([[v0 i0] c0] & σ0 & H0 & Hrun).
  apply readonly_ok in H0 as ->; [|apply readonly_load_frame].
  apply heapM_bind_ok in Hrun as (rows0 & σ0 & H0 & Hrun).
  apply readonly_ok in H0 as ->; [|apply readonly_load_matrix].
  apply heapM_bind_ok in Hrun as (idx & σ1 & H1 & Hrun).
  apply preserving_ok in H1; [|apply preserving_move_index_to].
  apply heapM_bind_ok in Hrun as (ks & σ0 & H0 & Hrun).
  apply readonly_ok in H0 as ->; [|apply readonly_load_ints].
  apply heapM_bind_ok in Hrun as (rows1 & σ0 & H0 & Hrun).
  apply readonly_ok in H0 as ->; [|apply readonly_load_matrix].
  apply heapM_bind_ok in Hrun as (new & σ0 & H0 & Hrun).
  apply readonly_ok in H0 as ->; [|apply readonly_lift].
  apply heapM_bind_ok in Hrun as (arr & σ2 & [Harr ->]%alloc_ok & Hrun).
  apply heapM_bind_ok in Hrun as (ls & σ0 & H0 & Hrun).
  apply readonly_ok in H0 as ->; [|apply readonly_load_labels].
  apply heapM_bind_ok in Hrun as (ls' & σ0 & H0 & Hrun).
  apply readonly_ok in H0 as ->; [|apply readonly_lift].
  apply heapM_bind_ok in Hrun as (cols & σ3 & [Hcols ->]%alloc_ok & Hrun).
  apply heapM_bind_ok in Hrun as (ls2 & σ0 & H0 & Hrun).
  apply readonly_ok in H0 as ->; [|apply readonly_load_labels].
  apply heapM_bind_ok in Hrun as (ls2' & σ0 & H0 & Hrun).
  apply readonly_ok in H0 as ->; [|apply readonly_lift].
  apply heapM_bind_ok in Hrun as (rows & σ4 & [Hrows ->]%alloc_ok & Hrun).
  unfold pd_DataFrame_st in Hrun.
  apply heapM_bind_ok in Hrun as (a & σ0 & H0 & Hrun).
  apply readonly_ok in H0 as ->; [|apply readonly_load_matrix].
  apply heapM_bind_ok in Hrun as (cl & σ0 & H0 & Hrun).
  apply readonly_ok in H0 as ->; [|apply readonly_load_labels].
  apply heapM_bind_ok in Hrun as (rl & σ0 & H0 & Hrun).
  apply readonly_ok in H0 as ->; [|apply readonly_load_labels].
  apply heapM_bind_ok in Hrun as (d & σ0 & H0 & Hrun).
  apply readonly_ok in H0 as ->; [|apply readonly_lift].
  apply alloc_ok in Hrun as [Hl ->].
  assert (σ1 ⊆ <[arr:=ObjMatrix new]> σ1) as S2 by by apply insert_subseteq.
  assert (<[arr:=ObjMatrix new]> σ1
          ⊆ <[cols:=ObjIndex ls']> (<[arr:=ObjMatrix new]> σ1)) as S3
    by by apply insert_subseteq.
  assert (<[cols:=ObjIndex ls']> (<[arr:=ObjMatrix new]> σ1)
          ⊆ <[rows:=ObjIndex ls2']>
              (<[cols:=ObjIndex ls']> (<[arr:=ObjMatrix new]> σ1))) as S4
    by by apply insert_subseteq.
  assert (σ ⊆ <[arr:=ObjMatrix new]> σ1) as T2 by (etrans; done).
  assert (σ ⊆ <[cols:=ObjIndex ls']> (<[arr:=ObjMatrix new]> σ1)) as T3
    by (etrans; done).
  assert (σ ⊆ <[rows:=ObjIndex ls2']>
                (<[cols:=ObjIndex ls']> (<[arr:=ObjMatrix new]> σ1))) as T4
    by (etrans; done).
  split; [exact (subseteq_fresh _ _ _ T4 Hl)|].
  exists arr, rows, cols. rewrite lookup_insert_eq.
  repeat split.
  - exact (subseteq_fresh _ _ _ H1 Harr).
  - exact (subseteq_fresh _ _ _ T3 Hrows).
  - exact (subseteq_fresh _ _ _ T2 Hcols).
Qed.

Lemma frame_at_weaken σ σ' l (d : DataFrame A L) :
  σ ⊆ σ' → frame_at σ l = Some d → frame_at σ' l = Some d.
Proof.
  intros Hsub. unfold frame_at.
  destruct (σ !! l) as [[| | |v i c]|] eqn:Hl; try done.
  destruct (σ !! v) as [[rows| | |]|] eqn:Hv; try done.
  destruct (σ !! i) as [[| |ri|]|] eqn:Hi; try done.
  destruct (σ !! c) as [[| |ci|]|] eqn:Hc; try done.
  intros [= <-].
  by rewrite (lookup_weaken _ _ _ _ Hl Hsub), (lookup_weaken _ _ _ _ Hv Hsub),
    (lookup_weaken _ _ _ _ Hi Hsub), (lookup_weaken _ _ _ _ Hc Hsub).
Qed.
End purity.

(** ** The reorderer on the store computes the reorderer on values *)

Section refinement.
Context {A L : Type}.
Implicit Types (σ : store A L) (l : loc).

Lemma heapM_bind_step {T U} (m : heapM A L T) (f : T → heapM A L U) σ x σ1 :
  m σ = (Ok x, σ1) → (m ≫= f) σ = f x σ1.
Proof. intros Hm. unfold mbind, heapM_bind. by rewrite Hm. Qed.

Lemma heapM_bind_raise {T U} (m : heapM A L T) (f : T → heapM A L U) σ err σ1 :
  m σ = (Raise err, σ1) → (m ≫= f) σ = (Raise err, σ1).
Proof. intros Hm. unfold mbind, heapM_bind. by rewrite Hm. Qed.

Lemma load_matrix_ok σ l rows :
  σ !! l = Some (ObjMatrix rows) → load_matrix l σ = (Ok rows, σ).
Proof. intros Hl. unfold load_matrix, load, mbind, heapM_bind. by rewrite Hl. Qed.

Lemma load_ints_ok σ l xs :
  σ !! l = Some (ObjIntArray xs) → load_ints l σ = (Ok xs, σ).
Proof. intros Hl. unfold load_ints, load, mbind, heapM_bind. by rewrite Hl. Qed.

Lemma load_labels_ok σ l ls :
  σ !! l = Some (ObjIndex ls) → load_labels l σ = (Ok ls, σ).
Proof. intros Hl. unfold load_labels, load, mbind, heapM_bind. by rewrite Hl. Qed.

Lemma load_frame_ok σ l v i c :
  σ !! l = Some (ObjFrame v i c) → load_frame l σ = (Ok (v, i, c), σ).
Proof. intros Hl. unfold load_frame, load, mbind, heapM_bind. by rewrite Hl. Qed.

Lemma move_index_to_st_refines i_from i_to len_ σ :
  match move_index_to i_from i_to len_ with
  | Ok p => ∃ l σ', move_index_to_st i_from i_to len_ σ = (Ok l, σ')
                    ∧ σ ⊆ σ' ∧ σ' !! l = Some (ObjIntArray p)
  | Raise err => ∃ σ', move_index_to_st i_from i_to len_ σ = (Raise err, σ')
  end.
Proof.
  unfold move_index_to, move_index_to_st.
  destruct (alloc_fresh (ObjIntArray (np_arange len_)) σ) as (l1 & H1 & F1).
  rewrite (heapM_bind_step _ _ _ _ _ H1).
  rewrite (heapM_bind_step _ _ _ _ _
             (load_ints_ok _ l1 _ (lookup_insert_eq _ _ _))).
  destruct (np_delete (np_arange len_) i_from) as [ys|err] eqn:Hd; simpl.
  - rewrite (heapM_bind_step (lift (Ok ys)) _ _ ys _ eq_refl).
    destruct (alloc_fresh (ObjIntArray ys) (<[l1:=ObjIntArray (np_arange len_)]> σ))
      as (l2 & H2 & F2).
    rewrite (heapM_bind_step _ _ _ _ _ H2).
    rewrite (heapM_bind_step _ _ _ _ _
               (load_ints_ok _ l2 _ (lookup_insert_eq _ _ _))).
    destruct (np_insert ys i_to i_from) as [zs|err] eqn:Hi.
    + rewrite (heapM_bind_step (lift (Ok zs)) _ _ zs _ eq_refl).
      destruct (alloc_fresh (ObjIntArray zs)
                  (<[l2:=ObjIntArray ys]> (<[l1:=ObjIntArray (np_arange len_)]> σ)))
        as (l3 & H3 & F3).
      exists l3. eexists. split; [done|]. split; [|apply lookup_insert_eq].
      etrans; [by apply insert_subseteq|].
      etrans; [by apply insert_subseteq|]. by apply insert_subseteq.
    + eexists. by rewrite (heapM_bind_raise (lift (Raise err)) _ _ err _ eq_refl).
  - eexists. by rewrite (heapM_bind_raise (lift (Raise err)) _ _ err _ eq_refl).
Qed.

Lemma frame_at_Some σ l (d : DataFrame A L) :
  frame_at σ l = Some d →
  ∃ v i c, σ !! l = Some (ObjFrame v i c)
    ∧ σ !! v = Some (ObjMatrix (df_values d))
    ∧ σ !! i = Some (ObjIndex (df_index d))
    ∧ σ !! c = Some (ObjIndex (df_columns d)).
Proof.
  unfold frame_at.
  destruct (σ !! l) as [[| | |v i c]|] eqn:Hl; try done.
  destruct (σ !! v) as [[rows| | |]|] eqn:Hv; try done.
  destruct (σ !! i) as [[| |ri|]|] eqn:Hi; try done.
  destruct (σ !! c) as [[| |ci|]|] eqn:Hc; try done.
  intros [= <-]. by exists v, i, c.
Qed.

(** The call on the store computes what the function on values computes:
    it raises the same exception, or returns a frame that holds the
    reordered table. *)
Lemma df_reorder_st_refines σ df (d : DataFrame A L) i_from i_to :
  frame_at σ df = Some d →
  match df_reorder_matrix_basis d i_from i_to with
  | Ok d' => ∃ l σ', df_reorder_matrix_basis_st df i_from i_to σ = (Ok l, σ')
                     ∧ frame_at σ' l = Some d'
  | Raise err =>
      ∃ σ', df_reorder_matrix_basis_st df i_from i_to σ = (Raise err, σ')
  end.
Proof.
  intros (v & i & c & Hdf & Hv & Hi & Hc)%frame_at_Some.
  unfold df_reorder_matrix_basis, df_reorder_matrix_basis_st.
  rewrite (heapM_bind_step _ _ _ _ _ (load_frame_ok _ _ _ _ _ Hdf)).
  rewrite (heapM_bind_step _ _ _ _ _ (load_matrix_ok _ _ _ Hv)).
  pose proof (move_index_to_st_refines i_from i_to
                (length (df_values d)) σ) as Hmove.
  destruct (move_index_to i_from i_to (length (df_values d))) as [p|err];
    simpl.
  2: { destruct Hmove as (σ' & Hmove). exists σ'.
       by rewrite (heapM_bind_raise _ _ _ _ _ Hmove). }
  destruct Hmove as (idx & σ1 & Hmove & Hsub1 & Hidx).
  rewrite (heapM_bind_step _ _ _ _ _ Hmove).
  rewrite (heapM_bind_step _ _ _ _ _ (load_ints_ok _ _ _ Hidx)).
  rewrite (heapM_bind_step _ _ _ _ _
             (load_matrix_ok _ _ _ (lookup_weaken _ _ _ _ Hv Hsub1))).
  destruct (np_ix (df_values d) p p) as [new|err]; simpl.
  2: { eexists. by rewrite (heapM_bind_raise (lift (Raise err)) _ _ err _ eq_refl). }
  rewrite (heapM_bind_step (lift (Ok new)) _ _ new _ eq_refl).
  destruct (alloc_fresh (ObjMatrix new) σ1) as (arr & Harr & Farr).
  rewrite (heapM_bind_step _ _ _ _ _ Harr).
  set (σ2 := <[arr:=ObjMatrix new]> σ1).
  assert (σ1 ⊆ σ2) as Hsub2 by by apply insert_subseteq.
  assert (σ ⊆ σ2) as Hsub02 by by etrans.
  rewrite (heapM_bind_step _ _ _ _ _
             (load_labels_ok _ _ _ (lookup_weaken _ _ _ _ Hc Hsub02))).
  destruct (take_along (df_columns d) p) as [cl|err]; simpl.
  2: { eexists. by rewrite (heapM_bind_raise (lift (Raise err)) _ _ err _ eq_refl). }
  rewrite (heapM_bind_step (lift (Ok cl)) _ _ cl _ eq_refl).
  destruct (alloc_fresh (ObjIndex cl) σ2) as (cols & Hcols & Fcols).
  rewrite (heapM_bind_step _ _ _ _ _ Hcols).
  set (σ3 := <[cols:=ObjIndex cl]> σ2).
  assert (σ2 ⊆ σ3) as Hsub3 by by apply insert_subseteq.
  assert (σ ⊆ σ3) as Hsub03 by by etrans.
  rewrite (heapM_bind_step _ _ _ _ _
             (load_labels_ok _ _ _ (lookup_weaken _ _ _ _ Hi Hsub03))).
  destruct (take_along (df_index d) p) as [rl|err]; simpl.
  2: { eexists. by rewrite (heapM_bind_raise (lift (Raise err)) _ _ err _ eq_refl). }
  rewrite (heapM_bind_step (lift (Ok rl)) _ _ rl _ eq_refl).
  destruct (alloc_fresh (ObjIndex rl) σ3) as (rows & Hrows & Frows).
  rewrite (heapM_bind_step _ _ _ _ _ Hrows).
  set (σ4 := <[rows:=ObjIndex rl]> σ3).
  assert (σ3 ⊆ σ4) as Hsub4 by by apply insert_subseteq.
  assert (σ2 !! arr = Some (ObjMatrix new)) as Harr2
    by apply lookup_insert_eq.
  assert (σ3 !! cols = Some (ObjIndex cl)) as Hcols3
    by apply lookup_insert_eq.
  assert (σ4 !! rows = Some (ObjIndex rl)) as Hrows4
    by apply lookup_insert_eq.
  assert (σ4 !! cols = Some (ObjIndex cl)) as Hcols4
    by by eapply lookup_weaken.
  assert (σ4 !! arr = Some (ObjMatrix new)) as Harr4.
  { eapply lookup_weaken; [|done]. by eapply lookup_weaken. }
  unfold pd_DataFrame_st.
  rewrite (heapM_bind_step _ _ _ _ _ (load_matrix_ok _ _ _ Harr4)).
  rewrite (heapM_bind_step _ _ _ _ _ (load_labels_ok _ _ _ Hcols4)).
  rewrite (heapM_bind_step _ _ _ _ _ (load_labels_ok _ _ _ Hrows4)).
  destruct (pd_DataFrame new cl rl) as [d'|err] eqn:Hpd.
  2: { eexists. by rewrite (heapM_bind_raise (lift (Raise err)) _ _ err _ eq_refl). }
  rewrite (heapM_bind_step (lift (Ok d')) _ _ d' _ eq_refl).
  destruct (alloc_fresh (ObjFrame arr rows cols) σ4) as (l & Hl & Fl).
  exists l. eexists. split; [done|].
  assert (σ4 ⊆ <[l:=ObjFrame arr rows cols]> σ4) as Hsub5
    by by apply insert_subseteq.
  unfold frame_at. rewrite lookup_insert_eq.
  rewrite (lookup_weaken _ _ _ _ Harr4 Hsub5),
    (lookup_weaken _ _ _ _ Hrows4 Hsub5), (lookup_weaken _ _ _ _ Hcols4 Hsub5).
  unfold pd_DataFrame in Hpd. case_decide; [|done]. by injection Hpd as <-.
Qed.

(** An assignment in place, by contrast, does not keep the store. *)
Lemma overwrite_not_preserving l :
  ¬ preserving (overwrite l (ObjIntArray [0%Z]) : heapM A L unit).
Proof.
  intros Hp. specialize (Hp {[l := ObjIntArray []]}).
  unfold overwrite in Hp. simpl in Hp.
  eapply (lookup_weaken _ _ l) in Hp; [|apply lookup_singleton_eq].
  rewrite lookup_insert_eq in Hp. done.
Qed.
End refinement.

(** C9. [df_reorder_matrix_basis] does not mutate its input. Whatever the
    arguments and whether or not the call raises, every object that was in
    the store holds afterwards what it held before, so the input frame has
    the values, row labels and column labels it had; and the frame that a
    successful call returns is a new object made of new parts. *)
Theorem df_reorder_matrix_basis_pure {A L} (σ : store A L) (df : loc)
    (i_from : list Z) (i_to : Z) :
  (∀ l o, σ !! l = Some o →
     (df_reorder_matrix_basis_st df i_from i_to σ).2 !! l = Some o)
  ∧ (∀ d, frame_at σ df = Some d →
       frame_at (df_reorder_matrix_basis_st df i_from i_to σ).2 df = Some d)
  ∧ (∀ l, (df_reorder_matrix_basis_st df i_from i_to σ).1 = Ok l →
       σ !! l = None
       ∧ ∃ v i c,
           (df_reorder_matrix_basis_st df i_from i_to σ).2 !! l
           = Some (ObjFrame v i c)
           ∧ σ !! v = None ∧ σ !! i = None ∧ σ !! c = None).
Proof.
  pose proof (preserving_df_reorder (A:=A) (L:=L) df i_from i_to σ) as Hsub.
  split; [|split].
  - intros l o Hl. by eapply lookup_weaken.
  - intros d. by apply frame_at_weaken.
  - intros l Hl.
    destruct (df_reorder_matrix_basis_st df i_from i_to σ) as [r σ'] eqn:Hrun.
    simpl in Hl. subst r. by apply (df_reorder_fresh df i_from i_to).
Qed.

Lemma df_reorder_matrix_basis_pure_witness :
  frame_at
    (df_reorder_matrix_basis_st 4%positive [0%Z] 1
       (<[4%positive := ObjFrame 1%positive 2%positive 3%positive]>
          (<[3%positive := ObjIndex ["x"; "y"]%string]>
             (<[2%positive := ObjIndex ["a"; "b"]%string]>
                (<[1%positive := ObjMatrix [[1; 2]; [3; 4]]%nat]> ∅))))).2
    4%positive
  = Some (mkDataFrame [[1; 2]; [3; 4]]%nat ["a"; "b"]%string
            ["x"; "y"]%string).
Proof.
  apply (proj1 (proj2 (df_reorder_matrix_basis_pure
    (<[4%positive := ObjFrame 1%positive 2%positive 3%positive]>
       (<[3%positive := ObjIndex ["x"; "y"]%string]>
          (<[2%positive := ObjIndex ["a"; "b"]%string]>
             (<[1%positive := ObjMatrix [[1; 2]; [3; 4]]%nat]> ∅))))
    4%positive [0%Z] 1))).
  reflexivity.
Defined.

(** ** Tabulated matrices *)

Section matrices.
Local Open Scope R_scope.

Lemma tabulate_lookup (n m : nat) (f : nat → nat → R) (i : nat) :
  (i < n)%nat → tabulate n m f !! i = Some (f i <$> seq 0 m).
Proof.
  intros Hi. unfold tabulate. rewrite list_lookup_fmap.
  by rewrite lookup_seq_lt.
Qed.

Lemma tabulate_length (n m : nat) (f : nat → nat → R) :
  length (tabulate n m f) = n.
Proof. unfold tabulate. by rewrite length_fmap, length_seq. Qed.

Lemma tabulate_ext (n m : nat) (f g : nat → nat → R) :
  (∀ i j, (i < n)%nat → (j < m)%nat → f i j = g i j) →
  tabulate n m f = tabulate n m g.
Proof.
  intros Hfg. unfold tabulate. apply list_fmap_ext.
  intros a i [-> Ha]%lookup_seq. apply list_fmap_ext.
  intros b j [-> Hb]%lookup_seq. by apply Hfg.
Qed.

Lemma np_zeros2_tabulate (n m : nat) :
  np_zeros2 n m = tabulate n m (λ _ _, 0).
Proof.
  unfold np_zeros2, np_zeros, tabulate.
  rewrite <- (length_seq n 0) at 1. rewrite <- (const_fmap (λ _, replicate m 0)) by done.
  apply list_fmap_ext. intros _ i _.
  rewrite <- (length_seq m 0) at 1. by rewrite <- (const_fmap (λ _, 0)) by done.
Qed.

Lemma fmap_seq_insert {T} (g : nat → T) (n i : nat) (x : T) :
  <[i:=x]> (g <$> seq 0 n)
  = (λ a, if decide (a = i) then x else g a) <$> seq 0 n.
Proof.
  apply list_eq. intros a.
  destruct (decide (a < n)%nat) as [Ha|Ha].
  - rewrite list_lookup_fmap, (lookup_seq_lt _ _ _ Ha). simpl.
    destruct (decide (a = i)) as [->|Hne].
    + rewrite list_lookup_insert_eq; [done|].
      by rewrite length_fmap, length_seq.
    + rewrite list_lookup_insert_ne by done.
      by rewrite list_lookup_fmap, (lookup_seq_lt _ _ _ Ha).
  - rewrite !lookup_ge_None_2; [done| |];
      rewrite ?length_insert, length_fmap, length_seq; lia.
Qed.

Lemma mat_set_tabulate (n m : nat) (f : nat → nat → R) (i j : nat) (x : R) :
  (i < n)%nat → (j < m)%nat →
  mat_set (tabulate n m f) i j x
  = Ok (tabulate n m (λ a b, if decide (a = i ∧ b = j) then x else f a b)).
Proof.
  intros Hi Hj. unfold mat_set. rewrite tabulate_lookup by done.
  rewrite set_item_ok by (by rewrite length_fmap, length_seq). simpl.
  f_equal. unfold tabulate at 1. rewrite !fmap_seq_insert.
  unfold tabulate. apply list_fmap_ext. intros _ a _.
  destruct (decide (a = i)) as [->|Hne].
  - apply list_fmap_ext. intros _ b _. simpl.
    destruct (decide (b = j)); [by rewrite decide_True|].
    by rewrite decide_False by (intros [_ ?]; done).
  - apply list_fmap_ext. intros _ b _. simpl.
    by rewrite decide_False by (intros [? _]; done).
Qed.

Lemma zip_with_fmap_same {T U V W} (h : U → V → W) (f1 : T → U) (f2 : T → V)
    (l : list T) :
  zip_with h (f1 <$> l) (f2 <$> l) = (λ x, h (f1 x) (f2 x)) <$> l.
Proof. induction l as [|x l IH]; [done|]. cbn. f_equal. apply IH. Qed.

Lemma omap_lookup_fmap {T} (g : T → list R) (f : T → R) (j : nat) (l : list T) :
  (∀ x, x ∈ l → g x !! j = Some (f x)) →
  omap (λ row : list R, row !! j) (g <$> l) = f <$> l.
Proof.
  induction l as [|x l IH]; intros Hg; [done|].
  cbn [fmap list_fmap omap list_omap]. rewrite Hg by set_solver.
  f_equal. apply IH. intros. apply Hg. set_solver.
Qed.

Lemma np_transpose_tabulate (n m : nat) (f : nat → nat → R) :
  (0 < n)%nat →
  np_transpose (tabulate n m f) = tabulate m n (λ i j, f j i).
Proof.
  intros Hn. unfold np_transpose.
  assert (ncols (tabulate n m f) = m) as ->.
  { destruct n; [lia|]. unfold tabulate. simpl.
    by rewrite length_fmap, length_seq. }
  unfold tabulate. apply list_fmap_ext. intros a j [-> Ha]%lookup_seq.
  apply omap_lookup_fmap. intros i _.
  rewrite list_lookup_fmap. by rewrite lookup_seq_lt.
Qed.

Lemma mscale_tabulate (c : R) (n m : nat) (f : nat → nat → R) :
  mscale c (tabulate n m f) = tabulate n m (λ i j, c * f i j).
Proof.
  unfold mscale, vscale, tabulate. rewrite <- list_fmap_compose.
  apply list_fmap_ext. intros _ i _. simpl. by rewrite <- list_fmap_compose.
Qed.

Lemma msq_tabulate (n m : nat) (f : nat → nat → R) :
  msq (tabulate n m f) = tabulate n m (λ i j, f i j ^ 2).
Proof.
  unfold msq, vsq, tabulate. rewrite <- list_fmap_compose.
  apply list_fmap_ext. intros _ i _. simpl. by rewrite <- list_fmap_compose.
Qed.

Lemma madd_tabulate (n m : nat) (f g : nat → nat → R) :
  madd (tabulate n m f) (tabulate n m g)
  = tabulate n m (λ i j, f i j + g i j).
Proof.
  unfold madd, vadd, tabulate. rewrite zip_with_fmap_same.
  apply list_fmap_ext. intros _ i _. simpl. by rewrite zip_with_fmap_same.
Qed.

Lemma msub_tabulate (n m : nat) (f g : nat → nat → R) :
  msub (tabulate n m f) (tabulate n m g)
  = tabulate n m (λ i j, f i j - g i j).
Proof.
  unfold msub, vsub, tabulate. rewrite zip_with_fmap_same.
  apply list_fmap_ext. intros _ i _. simpl. by rewrite zip_with_fmap_same.
Qed.

(** A loop whose body keeps an invariant runs to its end. *)
Lemma for_loop_invariant {S} (Inv : nat → S → Prop) (body : nat → S → result S)
    (m k : nat) (s : S) :
  Inv k s →
  (∀ i s, (k ≤ i < k + m)%nat → Inv i s →
     ∃ s', body i s = Ok s' ∧ Inv (Datatypes.S i) s') →
  ∃ s', for_loop (seq k m) body s = Ok s' ∧ Inv (k + m)%nat s'.
Proof.
  revert k s. induction m as [|m IH]; intros k s Hk Hstep; simpl.
  - exists s. by rewrite Nat.add_0_r.
  - destruct (Hstep k s) as (s1 & -> & H1); [lia|done|]. simpl.
    destruct (IH (Datatypes.S k) s1) as (s' & Hs' & HI); [done| |].
    + intros i s2 Hi. apply Hstep. lia.
    + exists s'. split; [done|]. by rewrite Nat.add_succ_r.
Qed.

(** The charge operator is the diagonal matrix of [ii - nmax]. *)
Lemma charge_operator_diagonal :
  charge_operator
  = Ok (tabulate dim dim
          (λ i j, if decide (i = j) then IZR (Z.of_nat i - Z.of_nat nmax)
                  else 0)).
Proof.
  unfold charge_operator, for_range.
  destruct (for_loop_invariant
    (λ k M, M = tabulate dim dim
       (λ i j, if decide (i = j ∧ (i < k)%nat)
               then IZR (Z.of_nat i - Z.of_nat nmax) else 0))
    (λ ii nmat, mat_set nmat ii ii (IZR (Z.of_nat ii - Z.of_nat nmax)))
    dim 0 (np_zeros2 dim dim)) as (M & -> & ->).
  - rewrite np_zeros2_tabulate. apply tabulate_ext. intros i j _ _.
    by rewrite decide_False by lia.
  - intros i M Hi ->. eexists. split; [apply mat_set_tabulate; lia|].
    apply tabulate_ext. intros a b _ _.
    destruct (decide (a = i ∧ b = i)) as [[-> ->]|Hne].
    + by rewrite decide_True by lia.
    + destruct (decide (a = b ∧ (a < i)%nat)) as [[-> Hlt]|Hn1].
      * by rewrite decide_True by lia.
      * rewrite decide_False; [done|]. intros [-> Hlt].
        apply Hn1. split; [done|].
        destruct (decide (b = i)) as [->|]; [by destruct Hne|lia].
  - apply f_equal. apply tabulate_ext. intros i j Hi _.
    destruct (decide (i = j)) as [->|Hne].
    + by rewrite decide_True by (simpl; lia).
    + by rewrite decide_False by (intros [? _]; done).
Qed.

(** The Josephson operator has -1/2 next to the diagonal on both sides. *)
Lemma josephson_operator_entries :
  josephson_operator
  = tabulate dim dim
      (λ i j, (if decide (j = S i) then -0.5 else 0)
              + (if decide (i = S j) then -0.5 else 0)).
Proof.
  unfold josephson_operator, np_conj, np_diag1, vscale, np_ones.
  rewrite length_fmap, length_replicate.
  change (S (dim - 1)) with dim.
  rewrite np_transpose_tabulate by (unfold dim, nmax; lia).
  rewrite madd_tabulate. apply tabulate_ext. intros i j Hi Hj.
  assert (∀ a b : nat, (a < dim)%nat → (b < dim)%nat → 
    (if decide (b = S a)
     then default 0 ((Rmult (-0.5) <$> replicate (dim - 1) 1) !! a) else 0)
    = (if decide (b = S a) then -0.5 else 0)) as Hd.
  { intros a b Ha Hb. destruct (decide (b = S a)) as [->|]; [|done].
    rewrite list_lookup_fmap, lookup_replicate_2 by (unfold dim, nmax in *; lia).
    simpl. lra. }
  by rewrite !Hd.
Qed.

(** Every Hamiltonian of the solver is a tabulated matrix with a symmetric
    entry function. *)
Lemma hamiltonian_tabulate (Ec EJ ng : R) (nmat : matrix) :
  charge_operator = Ok nmat →
  hamiltonian Ec EJ nmat josephson_operator ng
  = tabulate dim dim
      (λ i j,
         4 * Ec * ((if decide (i = j) then IZR (Z.of_nat i - Z.of_nat nmax)
                    else 0)
                   - ng * (if decide (i = j) then 1 else 0)) ^ 2
         + EJ * ((if decide (j = S i) then -0.5 else 0)
                 + (if decide (i = S j) then -0.5 else 0))).
Proof.
  rewrite charge_operator_diagonal. intros [= <-].
  unfold hamiltonian, np_eye. rewrite josephson_operator_entries.
  by rewrite !mscale_tabulate, msub_tabulate, msq_tabulate, mscale_tabulate,
    madd_tabulate.
Qed.

Lemma hamiltonian_length (Ec EJ ng : R) (nmat : matrix) :
  charge_operator = Ok nmat →
  length (hamiltonian Ec EJ nmat josephson_operator ng) = dim.
Proof.
  intros Hn. rewrite (hamiltonian_tabulate _ _ _ _ Hn).
  apply tabulate_length.
Qed.

Lemma hamiltonian_hermitian (Ec EJ ng : R) (nmat : matrix) :
  charge_operator = Ok nmat →
  np_transpose (np_conj (hamiltonian Ec EJ nmat josephson_operator ng))
  = hamiltonian Ec EJ nmat josephson_operator ng.
Proof.
  intros Hn. unfold np_conj. rewrite (hamiltonian_tabulate _ _ _ _ Hn).
  rewrite np_transpose_tabulate by (unfold dim, nmax; lia).
  apply tabulate_ext. intros i j _ _.
  repeat case_decide; subst; try lia; first [done|lra].
Qed.
End matrices.

(** ** The level table *)

Section level_table.
Local Open Scope R_scope.
Variable eig : matrix → list R.
Hypothesis eig_ok : eig_shape eig.

Lemma py_get_nat {T} (l : list T) (i : nat) (x : T) :
  l !! i = Some x → py_get l (Z.of_nat i) = Ok x.
Proof.
  intros Hi. unfold py_get.
  rewrite norm_index_of_nat by by eapply lookup_lt_Some.
  simpl. by rewrite Hi.
Qed.

Lemma set_column_ok {T} (M : list (list T)) (j : nat) (v : list T) :
  length v = length M → Forall (λ row, (j < length row)%nat) M →
  set_column M j v = Ok (zip_with (λ row x, <[j:=x]> row) M v).
Proof.
  intros Hlen Hrows. unfold set_column. rewrite decide_True by done.
  revert v Hlen. induction Hrows as [|row M Hrow Hrows IH]; intros [|x v] Hlen;
    simpl in *; try done.
  rewrite set_item_ok by done. simpl. rewrite IH by lia. done.
Qed.

Lemma entry_set_column (M : matrix) (j : nat) (v : list R) (r i : nat) :
  length v = length M → Forall (λ row, (j < length row)%nat) M →
  entry (zip_with (λ row x, <[j:=x]> row) M v) r i
  = if decide (i = j) then v !! r else entry M r i.
Proof.
  intros Hlen Hrows. unfold entry. rewrite lookup_zip_with.
  destruct (M !! r) as [row|] eqn:Hr; simpl.
  - destruct (lookup_lt_is_Some_2 v r) as [x Hx].
    { rewrite Hlen. by eapply lookup_lt_Some. }
    rewrite Hx. simpl. destruct (decide (i = j)) as [->|Hne].
    + apply list_lookup_insert_eq.
      exact (Forall_lookup_1 _ _ _ _ Hrows Hr).
    + by apply list_lookup_insert_ne.
  - case_decide; [|done]. symmetry. apply lookup_ge_None_2.
    rewrite Hlen. by apply lookup_ge_None_1.
Qed.

Lemma sample_levels_length (Ec EJ ng : R) (nmat : matrix) :
  charge_operator = Ok nmat →
  length (sample_levels eig Ec EJ nmat ng) = dim.
Proof.
  intros Hn. unfold sample_levels, vminus.
  rewrite length_fmap, merge_sort_Permutation, eig_ok.
  by apply hamiltonian_length.
Qed.

(** The reference level of every sample is zero: the smallest eigenvalue
    is subtracted from itself. *)
Lemma sample_levels_ground (Ec EJ ng : R) (nmat : matrix) :
  charge_operator = Ok nmat →
  sample_levels eig Ec EJ nmat ng !! 0%nat = Some 0.
Proof.
  intros Hn. pose proof (sample_levels_length Ec EJ ng nmat Hn) as Hlen.
  unfold sample_levels, vminus in *. rewrite length_fmap in Hlen.
  destruct (merge_sort Rle _) as [|d0 ds]; [done|].
  simpl. f_equal. lra.
Qed.

(** One pass of the loop writes the levels of its sample into its column. *)
Lemma level_step_ok (Ec EJ ng : R) (nmat : matrix) (charge : list R)
    (iindex : nat) (elvls : matrix) :
  charge_operator = Ok nmat → charge !! iindex = Some ng →
  length elvls = dim → Forall (λ row, (iindex < length row)%nat) elvls →
  level_step eig Ec EJ nmat josephson_operator charge iindex elvls
  = Ok (zip_with (λ row x, <[iindex:=x]> row) elvls
          (sample_levels eig Ec EJ nmat ng)).
Proof.
  intros Hn Hng Hlen Hrows. unfold level_step.
  rewrite (py_get_nat _ _ _ Hng). simpl.
  unfold np_array_equal.
  rewrite bool_decide_eq_true_2 by (symmetry; by apply hamiltonian_hermitian).
  simpl.
  pose proof (sample_levels_length Ec EJ ng nmat Hn) as Hl.
  unfold sample_levels in *. unfold vminus in Hl. rewrite length_fmap in Hl.
  destruct (merge_sort Rle _) as [|d0 ds] eqn:Hs; [done|].
  change (py_get (d0 :: ds) 0) with (py_get (d0 :: ds) (Z.of_nat 0)).
  rewrite (py_get_nat _ _ d0) by done. simpl.
  apply set_column_ok; [|done].
  unfold vminus. simpl in *. rewrite length_fmap. lia.
Qed.

Lemma np_linspace_length (a b : R) (N : nat) : length (np_linspace a b N) = N.
Proof. unfold np_linspace. by rewrite length_fmap, length_seq. Qed.

Lemma np_zeros2_shape (n m : nat) :
  length (np_zeros2 n m) = n ∧ Forall (λ row, length row = m) (np_zeros2 n m).
Proof.
  unfold np_zeros2, np_zeros. split; [apply length_replicate|].
  apply Forall_replicate, length_replicate.
Qed.

(** The loop fills the table column by column with the levels of the
    samples. *)
Lemma level_table_ok (Cq IC : R) (N : nat) :
  Cq ≠ 0 →
  ∃ nmat elvls,
    charge_operator = Ok nmat
    ∧ level_table eig Cq IC N = Ok elvls
    ∧ length elvls = dim
    ∧ Forall (λ row, length row = N) elvls
    ∧ ∀ i ng r, np_linspace (-1) 1 N !! i = Some ng →
        entry elvls r i
        = sample_levels eig (charging_energy Cq) (josephson_energy IC)
            nmat ng !! r.
Proof.
  intros HCq. unfold level_table, py_div.
  rewrite decide_False by lra. simpl.
  rewrite charge_operator_diagonal. simpl.
  set (nmat := tabulate dim dim _).
  assert (charge_operator = Ok nmat) as Hn by apply charge_operator_diagonal.
  set (charge := np_linspace (-1) 1 N).
  fold (charging_energy Cq). fold (josephson_energy IC).
  set (Ec := charging_energy Cq). set (EJ := josephson_energy IC).
  destruct (for_loop_invariant
    (λ k M, length M = dim ∧ Forall (λ row, length row = N) M
            ∧ ∀ i ng r, (i < k)%nat → charge !! i = Some ng →
                entry M r i = sample_levels eig Ec EJ nmat ng !! r)
    (level_step eig Ec EJ nmat josephson_operator charge)
    N 0 (np_zeros2 dim N)) as (elvls & Hrun & Hlen & Hrows & Hent).
  - destruct (np_zeros2_shape dim N) as [? ?]. repeat split; try done.
    intros; lia.
  - intros i M Hi (Hlen & Hrows & Hent).
    destruct (lookup_lt_is_Some_2 charge i) as [ng Hng].
    { unfold charge. rewrite np_linspace_length. lia. }
    assert (Forall (λ row : list R, (i < length row)%nat) M) as Hrows'.
    { eapply Forall_impl; [done|]. simpl. intros row ->. lia. }
    eexists. split; [by apply level_step_ok|].
    pose proof (sample_levels_length Ec EJ ng nmat Hn) as Hl.
    split; [|split].
    + rewrite length_zip_with. lia.
    + apply Forall_lookup. intros r row Hr.
      apply lookup_zip_with_Some in Hr as (row0 & x & -> & Hrow0 & _).
      rewrite length_insert. exact (Forall_lookup_1 _ _ _ _ Hrows Hrow0).
    + intros i' ng' r Hi' Hng'.
      rewrite entry_set_column by (done || lia).
      destruct (decide (i' = i)) as [->|Hne]; [congruence|].
      apply Hent; [lia|done].
  - exists nmat, elvls. unfold for_range. repeat split; try done.
    intros i ng r Hng. apply Hent; [|done].
    apply lookup_lt_Some in Hng. unfold charge in Hng.
    by rewrite np_linspace_length in Hng.
Qed.
End level_table.

(** ** Which exceptions the solver can raise *)

Lemma for_loop_raise {S} (its : list nat) (body : nat → S → result S) (s : S)
    (err : exn) :
  for_loop its body s = Raise err → ∃ i s', body i s' = Raise err.
Proof.
  revert s. induction its as [|i its IH]; intros s; simpl; [done|].
  destruct (body i s) as [s1|err1] eqn:Hb; simpl; [apply IH|].
  intros [= <-]. eauto.
Qed.

Lemma mapM_result_raise {T U} (f : T → result U) (l : list T) (err : exn) :
  mapM f l = Raise err → ∃ x, f x = Raise err.
Proof.
  induction l as [|x l IH]; simpl; [done|].
  destruct (f x) as [y|err1] eqn:Hf; simpl; [|intros [= <-]; eauto].
  destruct (mapM f l) as [k|err2]; simpl; [done|].
  intros [= <-]. by apply IH.
Qed.

Lemma norm_index_raise (n : nat) (i : Z) (err : exn) :
  norm_index n i = Raise err → err = IndexError.
Proof. unfold norm_index. repeat case_decide; by intros [=]. Qed.

Lemma py_get_raise {T} (l : list T) (i : Z) (err : exn) :
  py_get l i = Raise err → err = IndexError.
Proof.
  unfold py_get. destruct (norm_index (length l) i) as [k|err1] eqn:Hn; simpl.
  - destruct (l !! k); by intros [=].
  - intros [= <-]. by eapply norm_index_raise.
Qed.

Lemma set_item_raise {T} (a : list T) (i : nat) (x : T) (err : exn) :
  set_item a i x = Raise err → err = IndexError.
Proof. unfold set_item. case_decide; by intros [=]. Qed.

Lemma set_column_raise {T} (M : list (list T)) (j : nat) (v : list T)
    (err : exn) :
  set_column M j v = Raise err →
  err = IndexError ∨ err = ValueError "could not broadcast input array".
Proof.
  unfold set_column. case_decide.
  - intros [rx Hr]%mapM_result_raise. left. by eapply set_item_raise.
  - destruct v as [|x [|y v]]; try (intros [= <-]; by right).
    intros [row Hr]%mapM_result_raise. left. by eapply set_item_raise.
Qed.

Section solver_errors.
Local Open Scope R_scope.
Variable eig : matrix → list R.

Lemma level_step_raise (Ec EJ : R) (nmat : matrix) (charge : list R)
    (iindex : nat) (elvls : matrix) (err : exn) :
  charge_operator = Ok nmat →
  level_step eig Ec EJ nmat josephson_operator charge iindex elvls
  = Raise err →
  err = IndexError ∨ err = ValueError "could not broadcast input array".
Proof.
  intros Hn. unfold level_step.
  destruct (py_get charge (Z.of_nat iindex)) as [ng|err1] eqn:Hng; simpl.
  - unfold np_array_equal.
    rewrite bool_decide_eq_true_2
      by (symmetry; by apply hamiltonian_hermitian).
    simpl.
    destruct (py_get (merge_sort Rle _) 0) as [d0|err2] eqn:Hd; simpl.
    + apply set_column_raise.
    + intros [= <-]. left. by eapply py_get_raise.
  - intros [= <-]. left. by eapply py_get_raise.
Qed.

Lemma level_table_raise (Cq IC : R) (N : nat) (err : exn) :
  level_table eig Cq IC N = Raise err →
  err = ZeroDivisionError ∨ err = IndexError
  ∨ err = ValueError "could not broadcast input array".
Proof.
  unfold level_table, py_div. case_decide; cbn [mbind result_bind].
  - intros [= <-]. by left.
  - rewrite charge_operator_diagonal. cbn [mbind result_bind].
    intros (i & M & Hstep)%for_loop_raise. right.
    eapply level_step_raise; [|done]. apply charge_operator_diagonal.
Qed.

Lemma level_summary_raise (elvls : matrix) (err : exn) :
  level_summary elvls = Raise err →
  err = IndexError
  ∨ err = ValueError "zero-size array to reduction operation maximum".
Proof.
  unfold level_summary, mat_get.
  repeat
    match goal with
    | |- context [py_get ?l ?i ≫= _] =>
        let H := fresh "H" in
        destruct (py_get l i) eqn:H; simpl;
        [|intros [= <-]; left; by eapply py_get_raise]
    end.
  destruct (np_max _) as [d|err1] eqn:Hmax; simpl; [done|].
  intros [= <-]. right. unfold np_max in Hmax.
  destruct (vshift _ _); [by injection Hmax as <-|done].
Qed.
End solver_errors.

(** ** The Hermitian check on numpy scalars *)

Section hermitian_check.
Local Open Scope R_scope.

Lemma all2_lookup {A} (eqb : A → A → bool) (l l' : list A) (i : nat) (x : A) :
  all2 eqb l l' = true → l !! i = Some x →
  ∃ y, l' !! i = Some y ∧ eqb x y = true.
Proof.
  revert l' i. induction l as [|a l IH]; intros [|b l'] i; simpl; try done.
  intros [Hab Hl]%andb_true_iff. destruct i as [|i]; simpl.
  - intros [= <-]. by exists b.
  - by apply IH.
Qed.

Lemma all2_fmap_inj {A B} (f : A → B) (eqb : B → B → bool) (l l' : list A) :
  (∀ x y, eqb (f x) (f y) = true ↔ x = y) →
  all2 eqb (f <$> l) (f <$> l') = true ↔ l = l'.
Proof.
  intros Hf. revert l'. induction l as [|a l IH]; intros [|b l']; simpl;
    try done.
  rewrite andb_true_iff, Hf, IH. split; [by intros [-> ->]|by intros [= -> ->]].
Qed.

(** An array that equals another one entry by entry holds no [nan]. *)
Lemma np_array_equal64_entry (M M' : matrix64) (i j : nat) (row : list float64) :
  np_array_equal64 M M' = true → M !! i = Some row → row !! j ≠ Some NaN.
Proof.
  intros Heq Hrow Hx.
  destruct (all2_lookup _ _ _ _ _ Heq Hrow) as (row' & _ & Hrows).
  by destruct (all2_lookup _ _ _ _ _ Hrows Hx) as (y & _ & Hxy).
Qed.

(** *** Finite energies: the arrays of the real-number model *)

Lemma mscale64_Num (c : R) (M : matrix) : mscale64 (Num c) M = lift64 (mscale c M).
Proof.
  unfold mscale64, lift64, mscale, vscale. rewrite <- list_fmap_compose.
  apply list_fmap_ext. intros _ row _. simpl.
  by rewrite <- list_fmap_compose.
Qed.

Lemma madd64_lift (A B : matrix) :
  madd64 (lift64 A) (lift64 B) = lift64 (madd A B).
Proof.
  unfold madd64, lift64, madd, vadd.
  revert B. induction A as [|u A IH]; intros [|v B]; simpl; try done.
  f_equal; [|apply IH].
  revert v. induction u as [|x u IHu]; intros [|y v]; simpl; try done.
  f_equal. apply IHu.
Qed.

Lemma hamiltonian64_Num (Ec EJ ng : R) (nmat V : matrix) :
  hamiltonian64 (Num Ec) (Num EJ) nmat V ng
  = lift64 (hamiltonian Ec EJ nmat V ng).
Proof.
  unfold hamiltonian64, hamiltonian. cbn [f64_mul].
  by rewrite !mscale64_Num, madd64_lift.
Qed.

Lemma transpose64_lift (A : matrix) :
  transpose64 (lift64 A) = lift64 (np_transpose A).
Proof.
  unfold transpose64, np_transpose, lift64.
  assert (match (fmap Num <$> A) with [] => 0%nat | row :: _ => length row end
          = ncols A) as ->.
  { destruct A as [|row A]; simpl; [done|]. by rewrite length_fmap. }
  rewrite <- list_fmap_compose. apply list_fmap_ext. intros _ j _. simpl.
  induction A as [|row A IH]; [done|].
  rewrite fmap_cons. cbn [omap list_omap].
  rewrite list_lookup_fmap.
  destruct (row !! j) as [x|]; cbn [fmap option_fmap option_map].
  - rewrite fmap_cons. f_equal. apply IH.
  - apply IH.
Qed.

Lemma np_array_equal64_lift (A B : matrix) :
  np_array_equal64 (lift64 A) (lift64 B) = np_array_equal A B.
Proof.
  unfold np_array_equal64, lift64, np_array_equal.
  apply eq_true_iff_eq. rewrite bool_decide_eq_true.
  apply all2_fmap_inj. intros u v. apply all2_fmap_inj. intros x y. simpl.
  rewrite bool_decide_eq_true. done.
Qed.

Lemma finite_matrix_lift (A : matrix) : finite_matrix (lift64 A) = Some A.
Proof.
  unfold finite_matrix, lift64. apply mapM_Some.
  apply Forall2_fmap_l, Forall_Forall2_diag, Forall_forall. intros row _.
  apply mapM_Some. apply Forall2_fmap_l, Forall_Forall2_diag, Forall_forall.
  done.
Qed.

(** With finite energies a step of the loop is the step of the real-number
    model. *)
Lemma level_step64_Num (eig : matrix → list R) (Ec EJ : R) (nmat V : matrix)
    (charge : list R) (iindex : nat) (elvls : matrix) :
  level_step64 eig (Num Ec) (Num EJ) nmat V charge iindex elvls
  = level_step eig Ec EJ nmat V charge iindex elvls.
Proof.
  unfold level_step64, level_step.
  destruct (py_get charge (Z.of_nat iindex)) as [ng|err]; [|done].
  cbn [mbind result_bind]. cbv zeta.
  rewrite hamiltonian64_Num, transpose64_lift, np_array_equal64_lift.
  unfold np_conj. by rewrite finite_matrix_lift.
Qed.

(** *** An infinite or undefined energy: [nan] in the array *)

Lemma f64_add_NaN_r (a : float64) : f64_add a NaN = NaN.
Proof. by destruct a. Qed.

Lemma f64_mul_zero (a : float64) (x : R) :
  x = 0 → ¬ is_finite a → f64_mul a (Num x) = NaN.
Proof.
  intros -> Ha. destruct a as [y|s|]; [by destruct Ha; exists y| |done].
  simpl. by rewrite decide_True.
Qed.

Lemma hamiltonian64_entry (Ec EJ : float64) (ng : R) (nmat : matrix)
    (i j : nat) :
  charge_operator = Ok nmat → (i < dim)%nat → (j < dim)%nat →
  ∃ row, hamiltonian64 Ec EJ nmat josephson_operator ng !! i = Some row
    ∧ row !! j
      = Some (f64_add
                (f64_mul (f64_mul (Num 4) Ec)
                   (Num (((if decide (i = j)
                           then IZR (Z.of_nat i - Z.of_nat nmax) else 0)
                          - ng * (if decide (i = j) then 1 else 0)) ^ 2)))
                (f64_mul EJ
                   (Num ((if decide (j = S i) then -0.5 else 0)
                         + (if decide (i = S j) then -0.5 else 0))))).
Proof.
  rewrite charge_operator_diagonal. intros [= <-] Hi Hj.
  unfold hamiltonian64, np_eye. rewrite josephson_operator_entries.
  rewrite mscale_tabulate, msub_tabulate, msq_tabulate.
  unfold madd64, mscale64. eexists. split.
  - rewrite lookup_zip_with, !list_lookup_fmap, !tabulate_lookup by done.
    reflexivity.
  - rewrite lookup_zip_with, !list_lookup_fmap, !lookup_seq_lt by done.
    reflexivity.
Qed.

(** The check fails as soon as [4 * Ec] or [EJ] is an infinity or [nan]:
    next to the diagonal [4 * Ec] is multiplied by zero, and on the diagonal
    [EJ] is. *)
Lemma hamiltonian64_not_equal (Ec EJ : float64) (ng : R) (nmat : matrix) :
  charge_operator = Ok nmat →
  ¬ (is_finite (f64_mul (Num 4) Ec) ∧ is_finite EJ) →
  np_array_equal64 (hamiltonian64 Ec EJ nmat josephson_operator ng)
    (transpose64 (hamiltonian64 Ec EJ nmat josephson_operator ng)) = false.
Proof.
  intros Hn Hfin. apply not_true_is_false. intros Heq.
  assert (0 < dim)%nat as H0 by (unfold dim, nmax; lia).
  assert (1 < dim)%nat as H1 by (unfold dim, nmax; lia).
  destruct (f64_mul (Num 4) Ec) as [x|s|] eqn:HEc.
  - assert (¬ is_finite EJ) as HEJ
      by (intros ?; apply Hfin; split; [by exists x|done]).
    destruct (hamiltonian64_entry Ec EJ ng nmat 0 0 Hn H0 H0)
      as (row & Hrow & Hx).
    apply (np_array_equal64_entry _ _ 0 0 row Heq Hrow).
    rewrite Hx, (f64_mul_zero EJ) by (done || simpl; lra).
    by rewrite f64_add_NaN_r.
  - destruct (hamiltonian64_entry Ec EJ ng nmat 0 1 Hn H0 H1)
      as (row & Hrow & Hx).
    apply (np_array_equal64_entry _ _ 0 1 row Heq Hrow).
    rewrite Hx, HEc. rewrite (f64_mul_zero (Inf s)).
    + done.
    + simpl. lra.
    + by intros [? ?].
  - destruct (hamiltonian64_entry Ec EJ ng nmat 0 1 Hn H0 H1)
      as (row & Hrow & Hx).
    apply (np_array_equal64_entry _ _ 0 1 row Heq Hrow).
    by rewrite Hx, HEc.
Qed.

Lemma f64_mul_4_finite (Ec : float64) :
  is_finite (f64_mul (Num 4) Ec) ↔ is_finite Ec.
Proof.
  destruct Ec as [x|s|]; simpl.
  - split; intros _; by eexists.
  - rewrite decide_False by lra. split; by intros [? ?].
  - split; by intros [? ?].
Qed.

Section loop.
Variable eig : matrix → list R.

(** The loop raises 'Matrix is not Hermitian' exactly when it is entered
    with [4 * Ec] or [EJ] not finite. *)
Lemma level_loop64_not_hermitian (Ec EJ : float64) (N : nat) :
  level_loop64 eig Ec EJ N = Raise not_hermitian
  ↔ (1 ≤ N)%nat ∧ ¬ (is_finite (f64_mul (Num 4) Ec) ∧ is_finite EJ).
Proof.
  unfold level_loop64. pose proof charge_operator_diagonal as Hn.
  rewrite Hn. cbn [mbind result_bind]. cbv zeta.
  set (nmat := tabulate dim dim _) in *.
  split.
  - intros Hr. split.
    + destruct N; [done|lia].
    + intros [HEc [y ->]].
      apply (proj1 (f64_mul_4_finite Ec)) in HEc as [x ->].
      unfold for_range in Hr.
      rewrite (for_loop_ext _ _
                 (level_step eig x y nmat josephson_operator
                    (np_linspace (-1) 1 N))) in Hr
        by (intros; apply level_step64_Num).
      apply for_loop_raise in Hr as (i & M & Hstep).
      apply (level_step_raise eig) in Hstep as [?|?]; done.
  - intros [HN Hfin]. destruct N as [|N]; [lia|].
    unfold for_range. cbn [seq for_loop].
    assert (level_step64 eig Ec EJ nmat josephson_operator
              (np_linspace (-1) 1 (S N)) 0 (np_zeros2 dim (S N))
            = Raise not_hermitian) as ->; [|done].
    unfold level_step64.
    destruct (lookup_lt_is_Some_2 (np_linspace (-1) 1 (S N)) 0) as [ng Hng];
      [rewrite np_linspace_length; lia|].
    rewrite (py_get_nat _ 0 ng Hng). cbn [mbind result_bind]. cbv zeta.
    by rewrite hamiltonian64_not_equal.
Qed.
End loop.
End hermitian_check.

(** C6 (amended). The Hamiltonian built for each offset charge equals its
    conjugate transpose whenever the energies [Ec] and [EJ] are finite, and
    then 'Matrix is not Hermitian' cannot be raised. With numpy scalars,
    whatever the energies [Ec] and [EJ] computed from [Cq] and [IC] are,
    the solver raises it exactly when the loop is entered ([N >= 1]) with
    [4 * Ec] or [EJ] an infinity or [nan]: the array then holds [nan],
    which differs from itself. With Python floats for [Cq] and [IC] (a zero
    [Cq * 1e-15] raises [ZeroDivisionError] there) it is never raised. *)
Theorem hermitian_check_finite (eig : matrix → list R) (Ec EJ : float64)
    (N : nat) :
  (∃ nmat, charge_operator = Ok nmat
     ∧ ∀ x y ng : R,
         np_array_equal64
           (hamiltonian64 (Num x) (Num y) nmat josephson_operator ng)
           (transpose64
              (hamiltonian64 (Num x) (Num y) nmat josephson_operator ng))
         = true)
  ∧ (level_loop64 eig Ec EJ N ≫= level_summary = Raise not_hermitian
     ↔ (1 ≤ N)%nat ∧ ¬ (is_finite (f64_mul (Num 4) Ec) ∧ is_finite EJ))
  ∧ (∀ Cq IC : float64,
       levels_vs_ng_real_units64 eig Cq IC N
       = level_loop64 eig (charging_energy64 Cq) (josephson_energy64 IC) N
         ≫= level_summary)
  ∧ (∀ Cq IC : R,
       levels_vs_ng_real_units eig Cq IC N ≠ Raise not_hermitian).
Proof.
  split; [|split; [|split]].
  - eexists. split; [apply charge_operator_diagonal|].
    intros Ec' EJ' ng.
    rewrite hamiltonian64_Num, transpose64_lift, np_array_equal64_lift.
    unfold np_array_equal. apply bool_decide_eq_true_2. symmetry.
    apply (hamiltonian_hermitian Ec' EJ' ng), charge_operator_diagonal.
  - rewrite <- (level_loop64_not_hermitian eig Ec EJ N).
    destruct (level_loop64 eig Ec EJ N) as [elvls|err];
      cbn [mbind result_bind].
    + split; [|intros [=]].
      intros [Hs|Hs]%level_summary_raise; discriminate.
    + split; intros [= ->]; reflexivity.
  - reflexivity.
  - intros Cq IC. unfold levels_vs_ng_real_units, not_hermitian.
    destruct (level_table eig Cq IC N) as [elvls|err] eqn:Ht; simpl.
    + intros [Hs|Hs]%level_summary_raise; discriminate.
    + intros [= ->]. apply level_table_raise in Ht as [?|[?|?]]; discriminate.
Qed.

(** C6 (counterexample). The numpy scalar [0.0] for [Cq], which the
    reducer passes for a capacitance matrix of zeros: [Ec] is [inf], the
    Hamiltonian of the first sample differs from its conjugate transpose,
    and the solver raises 'Matrix is not Hermitian', on a grid of three
    samples with [IC = 30] as for every non-empty grid and every [IC]. *)
Theorem hermitian_check_fires :
  charging_energy64 (Num 0) = Inf false
  ∧ (∃ nmat, charge_operator = Ok nmat
       ∧ np_array_equal64
           (hamiltonian64 (charging_energy64 (Num 0))
              (josephson_energy64 (Num 30)) nmat josephson_operator (-1))
           (transpose64
              (hamiltonian64 (charging_energy64 (Num 0))
                 (josephson_energy64 (Num 30)) nmat josephson_operator (-1)))
         = false)
  ∧ levels_vs_ng_real_units64 np_diagonal (Num 0) (Num 30) 3
    = Raise not_hermitian
  ∧ (∀ (eig : matrix → list R) (IC : float64) (N : nat),
       (1 ≤ N)%nat →
       levels_vs_ng_real_units64 eig (Num 0) IC N = Raise not_hermitian).
Proof.
  assert (charging_energy64 (Num 0) = Inf false) as HEc.
  { unfold charging_energy64. cbn [f64_mul f64_div].
    rewrite decide_True by lra.
    assert (0 < e)%R as He by (unfold e; lra).
    rewrite decide_False by nra.
    unfold is_negative. destruct (Rlt_dec _ _) as [Hlt|]; [|done]. nra. }
  assert (∀ EJ, ¬ (is_finite (f64_mul (Num 4) (charging_energy64 (Num 0)))
                   ∧ is_finite EJ)) as Hfin.
  { intros EJ [Hx _]. apply (proj1 (f64_mul_4_finite _)) in Hx as [x Hx].
    by rewrite HEc in Hx. }
  assert (∀ (eig : matrix → list R) (IC : float64) (N : nat),
            (1 ≤ N)%nat →
            levels_vs_ng_real_units64 eig (Num 0) IC N = Raise not_hermitian)
    as Hall.
  { intros eig IC N HN. unfold levels_vs_ng_real_units64, level_table64.
    by rewrite (proj2 (level_loop64_not_hermitian eig _ _ N)). }
  split; [done|]. split; [|split; [apply Hall; lia|done]].
  eexists. split; [apply charge_operator_diagonal|].
  apply hamiltonian64_not_equal; [apply charge_operator_diagonal|done].
Qed.

(** ** The ground level *)

Lemma entry_mat_get (M : matrix) (r j : nat) (x : R) :
  entry M r j = Some x → mat_get M (Z.of_nat r) (Z.of_nat j) = Ok x.
Proof.
  unfold entry, mat_get. destruct (M !! r) as [row|] eqn:Hr; [|done].
  simpl. intros Hj. rewrite (py_get_nat _ _ _ Hr). simpl.
  by apply py_get_nat.
Qed.

(** The head of the sorted eigenvalues is the smallest eigenvalue. *)
Lemma merge_sort_head_smallest (d : list R) (x : R) :
  x ∈ d → (default 0 (head (merge_sort Rle d)) <= x)%R.
Proof.
  intros Hx.
  assert (Transitive Rle) as Htrans by (intros a b c; apply Rle_trans).
  assert (Total Rle) as Htotal.
  { intros a b. destruct (Rle_or_lt a b); [by left|right; lra]. }
  pose proof (StronglySorted_merge_sort Rle d) as Hs.
  rewrite <- (merge_sort_Permutation Rle d) in Hx.
  destruct (merge_sort Rle d) as [|d0 ds]; [by apply elem_of_nil in Hx|].
  simpl. apply elem_of_cons in Hx as [->|Hx]; [lra|].
  apply StronglySorted_inv in Hs as [_ Hall].
  by eapply Forall_forall in Hall.
Qed.

(** C5. For every offset-charge sample of the grid, the column of the level
    table holds the sorted eigenvalues of the sample, each shifted by the
    smallest eigenvalue of that sample, so that the level-0 entry of every
    sample is exactly zero. *)
Theorem ground_level_zero (eig : matrix → list R) (Cq IC : R) (N : nat) :
  eig_shape eig → Cq ≠ 0%R →
  ∃ nmat elvls,
    charge_operator = Ok nmat
    ∧ level_table eig Cq IC N = Ok elvls
    ∧ ∀ i ng, np_linspace (-1) 1 N !! i = Some ng →
        let d := eig (hamiltonian (charging_energy Cq) (josephson_energy IC)
                        nmat josephson_operator ng) in
        let d0 := default 0%R (head (merge_sort Rle d)) in
        (∀ x, x ∈ d → (d0 <= x)%R)
        ∧ (∀ r, entry elvls r i
                = (λ x, (x - d0)%R) <$> merge_sort Rle d !! r)
        ∧ mat_get elvls 0 (Z.of_nat i) = Ok 0%R.
Proof.
  intros Heig HCq.
  destruct (level_table_ok eig Heig Cq IC N HCq)
    as (nmat & elvls & Hn & Ht & _ & _ & Hent).
  exists nmat, elvls. split; [done|]. split; [done|].
  intros i ng Hng d d0. split; [|split].
  - intros x Hx. by apply merge_sort_head_smallest.
  - intros r. rewrite (Hent i ng r Hng). unfold sample_levels, vminus.
    by rewrite list_lookup_fmap.
  - apply (entry_mat_get elvls 0 i). rewrite (Hent i ng 0%nat Hng).
    by apply sample_levels_ground.
Qed.

Lemma np_diagonal_shape : eig_shape np_diagonal.
Proof. intros H. unfold np_diagonal. apply length_imap. Qed.

(** Three samples, with the diagonal standing in for the eigenvalues. *)
Lemma ground_level_zero_witness :
  ∃ nmat elvls,
    charge_operator = Ok nmat
    ∧ level_table np_diagonal 65 30 3 = Ok elvls
    ∧ ∀ i ng, np_linspace (-1) 1 3 !! i = Some ng →
        let d := np_diagonal
                   (hamiltonian (charging_energy 65) (josephson_energy 30)
                      nmat josephson_operator ng) in
        let d0 := default 0%R (head (merge_sort Rle d)) in
        (∀ x, x ∈ d → (d0 <= x)%R)
        ∧ (∀ r, entry elvls r i
                = (λ x, (x - d0)%R) <$> merge_sort Rle d !! r)
        ∧ mat_get elvls 0 (Z.of_nat i) = Ok 0%R.
Proof.
  apply (ground_level_zero np_diagonal 65 30 3 np_diagonal_shape).
  lra.
Defined.

(** ** The outputs of the solver *)

Section outputs.
Local Open Scope R_scope.

Lemma h_pos : 0 < h.
Proof. unfold h. lra. Qed.

Lemma np_sum_vdiv (v : list R) (c : R) : np_sum (vdiv v c) = np_sum v / c.
Proof.
  induction v as [|x v IH].
  - unfold np_sum, vdiv, Rdiv. simpl. ring.
  - change (np_sum (vdiv (x :: v) c)) with (x / c + np_sum (vdiv v c)).
    rewrite IH. change (np_sum (x :: v)) with (x + np_sum v).
    unfold Rdiv. ring.
Qed.

Lemma np_mean_vdiv (v : list R) (c : R) : np_mean (vdiv v c) = np_mean v / c.
Proof.
  unfold np_mean. rewrite np_sum_vdiv. unfold vdiv. rewrite length_fmap.
  unfold Rdiv. ring.
Qed.

Lemma np_mean_mean (v : list R) : np_mean v = mean v.
Proof. done. Qed.

(** With a zero reference level, the vector averaged for the anharmonicity
    is [E2 - E0 - 2 E1] in units of [h * 1e6]. *)
Lemma anharmonicity_vector (E1 E2 : list R) :
  length E2 = length E1 →
  let E0 := replicate (length E1) 0 in
  vscale 1000
    (vsub (vsub (vsub (vdiv (vdiv E2 h) 1e9) (vdiv (vdiv E0 h) 1e9))
                (vdiv (vdiv (vscale 2 E1) h) 1e9))
          (vdiv (vdiv E0 h) 1e9))
  = vdiv (vdiv (vsub (vsub E2 E0) (vscale 2 E1)) h) 1e6.
Proof.
  pose proof h_pos as Hh.
  revert E2. induction E1 as [|e1 E1 IH]; intros [|e2 E2] Hlen; simpl in *;
    try done.
  f_equal; [field; lra|]. apply IH. lia.
Qed.

(** The largest of the values [c - a / h] belongs to the smallest [a]. *)
Lemma foldl_Rmax_shifted (c x : R) (l : list R) :
  foldl Rmax (- x / h + c) ((λ a, - a / h + c) <$> l)
  = - foldl Rmin x l / h + c.
Proof.
  pose proof h_pos as Hh.
  revert x. induction l as [|y l IH]; intros x; simpl; [done|].
  rewrite <- IH. f_equal.
  assert (/ h > 0) as Hi by by apply Rinv_0_lt_compat.
  unfold Rmax, Rmin, Rdiv.
  destruct (Rle_dec x y), (Rle_dec _ _); try done; nra.
Qed.

Lemma dispersion_value (e10 : R) (E1 : list R) :
  np_max (vshift (vdiv (vneg (e10 :: E1)) h) (e10 / h))
  = Ok ((e10 - list_min (e10 :: E1)) / h).
Proof.
  unfold np_max, vshift, vdiv, vneg. rewrite <- !list_fmap_compose.
  cbn [fmap list_fmap compose]. f_equal.
  change (list_fmap R R (λ x, - x / h + e10 / h) E1)
    with ((λ a, - a / h + e10 / h) <$> E1).
  rewrite foldl_Rmax_shifted. simpl. unfold Rdiv. ring.
Qed.
End outputs.



(** ** The reducer without ports *)

Section no_port.
Local Open Scope R_scope.

Lemma for_range_0 {S} (body : nat → S → result S) (s : S) :
  for_range 0 body s = Ok s.
Proof. done. Qed.

Lemma for_loop_skip {S} (its : list nat) (body : nat → S → result S) (s : S) :
  (∀ i, i ∈ its → body i s = Ok s) → for_loop its body s = Ok s.
Proof.
  induction its as [|i its IH]; intros Hb; simpl; [done|].
  rewrite Hb by set_solver. simpl. apply IH. intros. apply Hb. set_solver.
Qed.

Lemma apply_L4_corr_benign (res_L4_corr : option (list bool))
    (CrLr : list R * list R) :
  no_L4_corr res_L4_corr → apply_L4_corr res_L4_corr CrLr = Ok CrLr.
Proof.
  destruct res_L4_corr as [flags|]; [|done]. simpl. intros Hflags.
  unfold for_range. apply for_loop_skip. intros i Hi%elem_of_seq.
  destruct CrLr as [Cr Lr].
  destruct (lookup_lt_is_Some_2 flags i) as [b Hb]; [lia|].
  rewrite Hb. by rewrite (Forall_lookup_1 _ _ _ _ Hflags Hb).
Qed.

Lemma level_summary_ok (elvls : matrix) (E0 E2 E1 : list R) (e10 : R) :
  elvls !! 0%nat = Some E0 → elvls !! 1%nat = Some (e10 :: E1) →
  elvls !! 2%nat = Some E2 →
  ∃ fq anh disp tphi, level_summary elvls = Ok (fq, anh, disp, tphi).
Proof.
  intros H0 H1 H2. unfold level_summary, mat_get.
  change 0%Z with (Z.of_nat 0). change 1%Z with (Z.of_nat 1).
  change 2%Z with (Z.of_nat 2).
  rewrite (py_get_nat _ _ _ H0), (py_get_nat _ _ _ H1), (py_get_nat _ _ _ H2).
  cbn [mbind result_bind].
  rewrite (py_get_nat (e10 :: E1) 0 e10) by done.
  cbn [mbind result_bind]. rewrite dispersion_value.
  cbn [mbind result_bind]. by do 4 eexists.
Qed.

Lemma levels_vs_ng_is_ok (eig : matrix → list R) (Cq IC : R) (N : nat) :
  eig_shape eig → Cq ≠ 0 → (1 ≤ N)%nat →
  ∃ fq anh disp tphi,
    levels_vs_ng_real_units eig Cq IC N = Ok (fq, anh, disp, tphi).
Proof.
  intros eig_ok HCq HN.
  destruct (level_table_ok eig eig_ok Cq IC N HCq)
    as (nmat & elvls & Hn & Ht & Hlen & Hrows & _).
  destruct (lookup_lt_is_Some_2 elvls 0) as [E0 HE0];
    [rewrite Hlen; unfold dim, nmax; lia|].
  destruct (lookup_lt_is_Some_2 elvls 1) as [E1 HE1];
    [rewrite Hlen; unfold dim, nmax; lia|].
  destruct (lookup_lt_is_Some_2 elvls 2) as [E2 HE2];
    [rewrite Hlen; unfold dim, nmax; lia|].
  pose proof (Forall_lookup_1 _ _ _ _ Hrows HE1) as Hl1. simpl in Hl1.
  destruct E1 as [|e10 E1]; [simpl in Hl1; lia|].
  unfold levels_vs_ng_real_units. rewrite Ht. cbn [mbind result_bind].
  by eapply level_summary_ok.
Qed.

Lemma phi0_neq_0 : phi0 ≠ 0.
Proof.
  unfold phi0, phinot. pose proof PI_RGT_0 as Hpi.
  apply Rgt_not_eq. apply Rdiv_lt_0_compat; lra.
Qed.

Lemma transmon_props_ok (Ic Cq : R) :
  Ic ≠ 0 →
  ∃ LJ EJ Zqp EC wq wq0 eps1,
    transmon_props Ic Cq = Ok (LJ, EJ, Zqp, EC, wq, wq0, eps1).
Proof.
  intros HIc. unfold transmon_props, py_div.
  rewrite decide_False by done. cbn [mbind result_bind].
  rewrite decide_False.
  - cbn [mbind result_bind]. by do 7 eexists.
  - pose proof phi0_neq_0. unfold Rdiv.
    apply Rmult_integral_contrapositive_currified; [done|].
    by apply Rinv_neq_0_compat.
Qed.

Lemma total_T1_no_port (T1bus : list R) : total_T1 0 T1bus = 100.
Proof. unfold total_T1. by rewrite decide_False by lia. Qed.
End no_port.

(** C7. With [N = 0] and a 3 by 3 capacitance matrix, for well-formed
    numeric inputs (no quarter-wave flag set, a non-zero critical current,
    and capacitances whose sums [C1S + C2S] and [Cq] are not zero) the
    reducer runs to its [return] without raising: all arrays over the ports
    are empty, and the total [T1] it computes is the constant 100, not the
    reciprocal of an empty sum. *)
Theorem extract_no_port (eig : matrix → list R) (capMatrix : matrix)
    (Ic CJ : R) (fb : freq_arg) (fr : R) (res_L4_corr : option (list bool))
    (g_scale : R) (print_info : bool) (c10 c20 c12 : R) :
  eig_shape eig →
  length capMatrix = 3%nat →
  entry capMatrix 1 0 = Some c10 → entry capMatrix 2 0 = Some c20 →
  entry capMatrix 1 2 = Some c12 →
  no_L4_corr res_L4_corr →
  Ic ≠ 0%R → (- c10 + - c20 ≠ 0)%R →
  (- c12 + - c10 * - c20 / (- c10 + - c20) + CJ ≠ 0)%R →
  ∃ l, extract_locals eig capMatrix Ic CJ 0 fb fr res_L4_corr g_scale = Ok l
    ∧ l_T1 l = 100%R ∧ l_T1bus l = [] ∧ l_bus_index l = []
    ∧ extract_transmon_coupled_Noscillator eig capMatrix Ic CJ 0 fb fr
        res_L4_corr g_scale print_info = Ok (l_ham_dict l).
Proof.
  intros Heig Hlen H10 H20 H12 Hres HIc HCS HCq.
  assert (∃ l, extract_locals eig capMatrix Ic CJ 0 fb fr res_L4_corr g_scale
               = Ok l ∧ l_T1 l = 100%R ∧ l_T1bus l = [] ∧ l_bus_index l = [])
    as (l & Hl & HT1 & HT1bus & Hbus); last first.
  { exists l. repeat split; try done.
    unfold extract_transmon_coupled_Noscillator. by rewrite Hl. }
  unfold extract_locals.
  rewrite error_checks_pass by (rewrite ?Hlen; lia).
  cbn [mbind result_bind]. change (Z.to_nat 0) with 0%nat.
  unfold resonator_frequencies, pad_to_bus, bus_to_bus, bus_index.
  cbn [mbind result_bind for_range for_loop seq np_zeros np_zeros2 replicate
       vrecip vtimes vsq vquot vsqrt vdiv vsub vscale vmul vminus
       fmap list_fmap zip_with length].
  rewrite apply_L4_corr_benign by done.
  cbn [mbind result_bind for_range for_loop seq np_zeros np_zeros2 replicate
       vrecip vtimes vsq vquot vsqrt vdiv vsub vscale vmul vminus
       fmap list_fmap zip_with length].
  assert (py_get (qubit_index 0) 0 = Ok (Z.of_nat 1)) as -> by reflexivity.
  assert (py_get (qubit_index 0) 1 = Ok (Z.of_nat 2)) as -> by reflexivity.
  cbn [mbind result_bind].
  change (ground_index 0) with (Z.of_nat 0).
  rewrite (entry_mat_get _ _ _ _ H10), (entry_mat_get _ _ _ _ H20),
    (entry_mat_get _ _ _ _ H12).
  cbn [mbind result_bind].
  assert (py_get [(- c10)%R; (- c20)%R] 0 = Ok (- c10)%R) as ->
    by reflexivity.
  assert (py_get [(- c10)%R; (- c20)%R] 1 = Ok (- c20)%R) as ->
    by reflexivity.
  assert (py_get [[]; []] 0 = Ok ([] : list R)) as -> by reflexivity.
  assert (py_get [[]; []] 1 = Ok ([] : list R)) as -> by reflexivity.
  cbn [mbind result_bind np_sum foldr].
  rewrite !Rplus_0_r.
  destruct (transmon_props_ok Ic
              (- c12 + - c10 * - c20 / (- c10 + - c20) + CJ)%R HIc)
    as (LJ & EJ & Zqp & EC & wq & wq0 & eps1 & ->).
  cbn [mbind result_bind].
  destruct (levels_vs_ng_is_ok eig
              ((- c12 + - c10 * - c20 / (- c10 + - c20) + CJ) / 1e-15)%R
              (Ic / 1e-9)%R 51 Heig)
    as (fq & alpha & disp & tphi & ->).
  { unfold Rdiv. apply Rmult_integral_contrapositive_currified; [done|].
    lra. }
  { lia. }
  cbn [mbind result_bind].
  eexists. split; [reflexivity|]. cbn [l_T1 l_T1bus l_bus_index].
  split; [apply total_T1_no_port|done].
Qed.

(** A qubit without coupling pads: pads of 100 fF with mutual capacitances
    of -5 fF, a 20 nA junction of 2 fF. *)
Lemma extract_no_port_witness :
  ∃ l, extract_locals np_diagonal
         [[100e-15; -5e-15; -5e-15]; [-5e-15; 100e-15; -5e-15];
          [-5e-15; -5e-15; 100e-15]]%R
         20e-9 2e-15 0 (FreqList []) 7 None 1 = Ok l
    ∧ l_T1 l = 100%R ∧ l_T1bus l = [] ∧ l_bus_index l = []
    ∧ extract_transmon_coupled_Noscillator np_diagonal
        [[100e-15; -5e-15; -5e-15]; [-5e-15; 100e-15; -5e-15];
         [-5e-15; -5e-15; 100e-15]]%R
        20e-9 2e-15 0 (FreqList []) 7 None 1 false = Ok (l_ham_dict l).
Proof.
  apply (extract_no_port np_diagonal
           [[100e-15; -5e-15; -5e-15]; [-5e-15; 100e-15; -5e-15];
            [-5e-15; -5e-15; 100e-15]]%R
           20e-9 2e-15 (FreqList []) 7 None 1 false
           (-5e-15) (-5e-15) (-5e-15) np_diagonal_shape);
    try reflexivity; try exact I; try lra.
  replace (- (-5e-15) + - (-5e-15))%R with 1e-14%R by lra. lra.
Defined.

(** * Further properties of the module *)

(** ** The index list of [move_index_to] *)

(** X1. The indices that stay keep their increasing order, and the moved ones
    are put in, in the order given, before the [i_to]-th of them. *)
Theorem move_index_to_block (i_from : list Z) (i_to : Z) (n : nat)
    (F : list nat) :
  positions n i_from = Ok F →
  (0 ≤ i_to ≤ Z.of_nat (length (filter (λ k, k ∉ F) (seq 0 n))))%Z →
  move_index_to i_from i_to n
  = Ok ((Z.of_nat <$> take (Z.to_nat i_to) (filter (λ k, k ∉ F) (seq 0 n)))
        ++ i_from
        ++ (Z.of_nat <$> drop (Z.to_nat i_to)
                           (filter (λ k, k ∉ F) (seq 0 n)))).
Proof.
  intros HF Hto. unfold move_index_to.
  rewrite (np_delete_arange _ _ _ HF). cbn [mbind result_bind].
  unfold np_insert. rewrite length_fmap.
  rewrite decide_False by lia. rewrite decide_False by lia.
  by rewrite fmap_take, fmap_drop.
Qed.

(** The example of the docstring: index 0 of six is moved to place 4. *)
Lemma move_index_to_block_witness :
  move_index_to [0%Z] 4 6 = Ok [1; 2; 3; 4; 0; 5]%Z.
Proof.
  apply (move_index_to_block [0%Z] 4 6 [0%nat]); [reflexivity|].
  vm_compute. split; discriminate.
Defined.

Lemma mapM_result_first_raise {T U} (f : T → result U) (l : list T) (err : exn) :
  (∀ x e, x ∈ l → f x = Raise e → e = err) →
  (∃ x e, x ∈ l ∧ f x = Raise e) →
  mapM f l = Raise err.
Proof.
  induction l as [|x l IH]; intros Hall (y & e0 & Hy & Hf).
  - by apply elem_of_nil in Hy.
  - simpl. destruct (f x) as [u|e1] eqn:Hx; simpl.
    + rewrite IH; [done| |].
      * intros z e2 Hz. apply Hall. by right.
      * apply elem_of_cons in Hy as [->|Hy]; [congruence|]. eauto.
    + f_equal. eapply Hall; [left|done].
Qed.

(** X2. A source index outside [-len_ .. len_ - 1], or a destination outside
    [-m .. m] where [m] indices stay, ends in an [IndexError]. *)
Theorem move_index_to_index_error (i_from : list Z) (i_to : Z) (n : nat) :
  ((∃ i, i ∈ i_from ∧ ¬ (- Z.of_nat n ≤ i < Z.of_nat n)%Z) →
   move_index_to i_from i_to n = Raise IndexError)
  ∧ (∀ F, positions n i_from = Ok F →
       let m := Z.of_nat (length (filter (λ k, k ∉ F) (seq 0 n))) in
       (i_to < - m ∨ m < i_to)%Z →
       move_index_to i_from i_to n = Raise IndexError).
Proof.
  split.
  - intros (i & Hi & Hout). unfold move_index_to, np_delete, positions.
    rewrite (mapM_result_first_raise _ _ IndexError); [done| |].
    + intros x e0 _. apply norm_index_raise.
    + exists i, IndexError. split; [done|]. unfold np_arange.
      rewrite length_fmap, length_seq. unfold norm_index.
      rewrite decide_False by lia. by rewrite decide_False by lia.
  - intros F HF m Hout. unfold move_index_to.
    rewrite (np_delete_arange _ _ _ HF). cbn [mbind result_bind].
    unfold np_insert. rewrite length_fmap.
    rewrite decide_True; [done|]. subst m. lia.
Qed.

Lemma move_index_to_index_error_witness :
  move_index_to [3%Z] 0 3 = Raise IndexError
  ∧ move_index_to [0%Z] 3 3 = Raise IndexError.
Proof.
  split.
  - apply (proj1 (move_index_to_index_error [3%Z] 0 3)).
    exists 3%Z. split; [left|lia].
  - apply (proj2 (move_index_to_index_error [0%Z] 3 3) [0%nat]);
      [reflexivity|]. vm_compute. right. reflexivity.
Defined.

(** X3. With valid, distinct sources the result lists every index of
    [0 .. len_ - 1] exactly once. *)
Theorem move_index_to_each_once (i_from : list Z) (i_to : Z) (n : nat)
    (p : list Z) :
  distinct_sources n i_from → move_index_to i_from i_to n = Ok p →
  length p = n
  ∧ ∃ P, positions n p = Ok P ∧ NoDup P ∧ ∀ k, k ∈ P ↔ (k < n)%nat.
Proof.
  intros Hd Hm.
  destruct (move_index_to_permutation _ _ _ _ Hm Hd) as (P & HP & Hperm).
  destruct (positions_lookup _ _ _ HP) as (Hlen & _ & _).
  split; [by rewrite <- Hlen, Hperm, length_seq|].
  exists P. split; [done|]. split.
  - rewrite Hperm. apply NoDup_seq.
  - intros k. rewrite Hperm, elem_of_seq. lia.
Qed.

Lemma move_index_to_each_once_witness :
  length [1; 0; 4; 2; 3; 5]%Z = 6%nat
  ∧ ∃ P, positions 6 [1; 0; 4; 2; 3; 5]%Z = Ok P ∧ NoDup P
      ∧ ∀ k, k ∈ P ↔ (k < 6)%nat.
Proof.
  apply (move_index_to_each_once [0; 4]%Z 1 6); [|reflexivity].
  exists [0; 4]%nat. split; [reflexivity|].
  apply (bool_decide_unpack _). by vm_compute.
Defined.

(** ** What the reordered frame holds *)

Section reordered.
Context {A L : Type}.
Implicit Types (df : DataFrame A L).

Lemma take_along_positions {T} (l : list T) (idx : list Z) (r : list T) :
  take_along l idx = Ok r → ∃ P, positions (length l) idx = Ok P.
Proof.
  intros H. apply mapM_result_ok. intros i Hi.
  apply list_elem_of_lookup in Hi as [a Ha].
  destruct (mapM_result_lookup _ _ _ H) as [_ Hl].
  destruct (Hl _ _ Ha) as (y & _ & Hy). unfold py_get in Hy.
  destruct (norm_index (length l) i) eqn:E; [by eexists|discriminate].
Qed.

(** The frame that [reindex] builds along the positions [P]. *)
Lemma reindex_entries df df' (n : nat) (p : list Z) (P : list nat) :
  square n df → positions n p = Ok P → reindex df p = Ok df' →
  length (df_values df') = length P
  ∧ Forall (λ row, length row = length P) (df_values df')
  ∧ length (df_index df') = length P
  ∧ length (df_columns df') = length P
  ∧ ∀ a k, P !! a = Some k →
      df_index df' !! a = df_index df !! k
      ∧ df_columns df' !! a = df_columns df !! k
      ∧ ∀ b j, P !! b = Some j →
          df_values df' !! a ≫= (λ row, row !! b)
          = df_values df !! k ≫= (λ row, row !! j).
Proof.
  intros (Hl & Hrows & Hli & Hlc) HP Hre. unfold reindex in Hre.
  destruct (np_ix_shape _ n p P Hl Hrows HP) as (M & HM & HlM & HMrows).
  rewrite HM in Hre. cbn [mbind result_bind] in Hre.
  destruct (take_along_lookup (df_columns df) p P) as (cols & Hc & Hlcols & Hck);
    [by rewrite Hlc|].
  destruct (take_along_lookup (df_index df) p P) as (rows & Hr & Hlrows & Hrk);
    [by rewrite Hli|].
  rewrite Hc, Hr in Hre. cbn [mbind result_bind] in Hre.
  unfold pd_DataFrame in Hre. case_decide; [|done]. injection Hre as <-.
  cbn [df_values df_index df_columns].
  do 4 (split; [done|]).
  intros a k Hak. split; [by apply Hrk|]. split; [by apply Hck|].
  intros b j Hbj. unfold np_ix in HM.
  destruct (take_along_lookup (df_values df) p P) as (rs & Hrs & Hlrs & Hrsk);
    [by rewrite Hl|].
  rewrite Hrs in HM. cbn [mbind result_bind] in HM.
  rewrite <- (Hrsk _ _ Hak).
  destruct (rs !! a) as [row|] eqn:Hrow.
  - destruct (mapM_result_lookup _ _ _ HM) as [_ HMk].
    destruct (HMk _ _ Hrow) as (y & -> & Hy). cbn [mbind option_bind].
    assert (length row = n) as Hlrow.
    { rewrite (Hrsk _ _ Hak) in Hrow.
      exact (Forall_lookup_1 _ _ _ _ Hrows Hrow). }
    destruct (take_along_lookup row p P) as (y' & Hy' & _ & Hyk);
      [by rewrite Hlrow|].
    rewrite Hy in Hy'. injection Hy' as <-. by apply Hyk.
  - apply lookup_ge_None in Hrow. apply lookup_lt_Some in Hak. lia.
Qed.

Lemma df_reorder_inv df df' (n : nat) (i_from : list Z) (i_to : Z) :
  square n df → df_reorder_matrix_basis df i_from i_to = Ok df' →
  ∃ p P, move_index_to i_from i_to n = Ok p ∧ positions n p = Ok P
    ∧ reindex df p = Ok df'.
Proof.
  intros Hsq Hre. rewrite df_reorder_reindex in Hre.
  apply result_bind_ok in Hre as (p & Hp & Hre).
  destruct Hsq as (Hl & Hsq). rewrite Hl in Hp.
  exists p. pose proof Hre as Hri. unfold reindex, np_ix in Hre.
  destruct (take_along (df_values df) p) as [rs|] eqn:Hrs; [|done].
  destruct (take_along_positions _ _ _ Hrs) as [P HP]. rewrite Hl in HP.
  by exists P.
Qed.
End reordered.

(** X4. Reordering carries every entry and both labels along: position [a] of
    the result holds what was at position [P a] of the input, where [P] is
    the index list computed by [move_index_to]. *)
Theorem df_reorder_entries {A L} (df df' : DataFrame A L) (n : nat)
    (i_from : list Z) (i_to : Z) :
  square n df → df_reorder_matrix_basis df i_from i_to = Ok df' →
  ∃ p P, move_index_to i_from i_to n = Ok p ∧ positions n p = Ok P
    ∧ ∀ a k, P !! a = Some k →
        df_index df' !! a = df_index df !! k
        ∧ df_columns df' !! a = df_columns df !! k
        ∧ ∀ b j, P !! b = Some j →
            df_values df' !! a ≫= (λ row, row !! b)
            = df_values df !! k ≫= (λ row, row !! j).
Proof.
  intros Hsq Hre.
  destruct (df_reorder_inv _ _ _ _ _ Hsq Hre) as (p & P & Hp & HP & Hri).
  exists p, P. do 2 (split; [done|]).
  by apply (reindex_entries df df' n p P).
Qed.

Lemma df_reorder_entries_witness :
  ∃ p P, move_index_to [0%Z] 1 2 = Ok p ∧ positions 2 p = Ok P
    ∧ ∀ a k, P !! a = Some k →
        ["b"; "a"]%string !! a = ["a"; "b"]%string !! k
        ∧ ["y"; "x"]%string !! a = ["x"; "y"]%string !! k
        ∧ ∀ b j, P !! b = Some j →
            [[4; 3]; [2; 1]]%nat !! a ≫= (λ row, row !! b)
            = [[1; 2]; [3; 4]]%nat !! k ≫= (λ row, row !! j).
Proof.
  apply (df_reorder_entries
           (mkDataFrame [[1; 2]; [3; 4]]%nat ["a"; "b"]%string
              ["x"; "y"]%string)
           (mkDataFrame [[4; 3]; [2; 1]]%nat ["b"; "a"]%string
              ["y"; "x"]%string) 2 [0%Z] 1); [|reflexivity].
  repeat split; repeat constructor.
Defined.

(** X5. A symmetric matrix stays symmetric under reordering (rows and columns
    are permuted by the same index list). *)
Theorem df_reorder_symmetric {A L} (df df' : DataFrame A L) (n : nat)
    (i_from : list Z) (i_to : Z) :
  square n df → symmetric_table (df_values df) →
  df_reorder_matrix_basis df i_from i_to = Ok df' →
  symmetric_table (df_values df').
Proof.
  intros Hsq Hsym Hre.
  destruct (df_reorder_inv _ _ _ _ _ Hsq Hre) as (p & P & Hp & HP & Hri).
  destruct (reindex_entries df df' n p P Hsq HP Hri)
    as (HlM & HMrows & _ & _ & Hent).
  assert (∀ a b, (length P ≤ a)%nat →
            df_values df' !! a ≫= (λ row, row !! b) = None
            ∧ df_values df' !! b ≫= (λ row, row !! a) = None) as Hout.
  { intros a b Ha. split.
    - rewrite (lookup_ge_None_2 (df_values df') a) by lia. done.
    - destruct (df_values df' !! b) as [row|] eqn:Hrow; [|done].
      cbn [mbind option_bind]. apply lookup_ge_None_2.
      by rewrite (Forall_lookup_1 _ _ _ _ HMrows Hrow). }
  intros a b.
  destruct (decide (a < length P)%nat) as [Ha|Ha]; last first.
  { destruct (Hout a b) as [-> ->]; [lia|done]. }
  destruct (decide (b < length P)%nat) as [Hb|Hb]; last first.
  { destruct (Hout b a) as [-> ->]; [lia|done]. }
  destruct (lookup_lt_is_Some_2 P a Ha) as [k Hk].
  destruct (lookup_lt_is_Some_2 P b Hb) as [j Hj].
  destruct (Hent _ _ Hk) as (_ & _ & Hab).
  destruct (Hent _ _ Hj) as (_ & _ & Hba).
  rewrite (Hab _ _ Hj), (Hba _ _ Hk). apply Hsym.
Qed.

Lemma df_reorder_symmetric_witness :
  symmetric_table [[5; 2]; [2; 1]]%nat.
Proof.
  apply (df_reorder_symmetric
           (mkDataFrame [[1; 2]; [2; 5]]%nat ["a"; "b"]%string
              ["a"; "b"]%string)
           (mkDataFrame [[5; 2]; [2; 1]]%nat ["b"; "a"]%string
              ["b"; "a"]%string) 2 [0%Z] 1); [| |reflexivity].
  - repeat split; repeat constructor.
  - intros [|[|a]] [|[|b]]; try reflexivity.
    all: cbn; by rewrite ?lookup_nil.
Defined.

(** The survivors of [np.delete]: with distinct sources in range, as many
    indices stay as were not named. *)
Lemma others_count (n : nat) (F : list nat) :
  NoDup F → (∀ k, k ∈ F → (k < n)%nat) →
  length (filter (λ k, k ∉ F) (seq 0 n)) = (n - length F)%nat.
Proof.
  intros Hnd Hlt.
  assert (filter (λ k, k ∉ F) (seq 0 n) ++ F ≡ₚ seq 0 n) as Hperm.
  { apply NoDup_Permutation.
    - apply NoDup_app. split; [apply NoDup_filter, NoDup_seq|].
      split; [|done]. by intros x [Hx _]%list_elem_of_filter.
    - apply NoDup_seq.
    - intros x. rewrite elem_of_app, list_elem_of_filter, elem_of_seq.
      split.
      + intros [[_ Hx]|Hx]; [done|]. apply Hlt in Hx. lia.
      + intros Hx. destruct (decide (x ∈ F)); [by right|by left]. }
  apply Permutation_length in Hperm.
  rewrite length_app, length_seq in Hperm. lia.
Qed.

(** X6. On a square frame, with distinct sources in range and a target between
    [-(n - k)] and [n - k] for [k] sources, the reorderer returns a square
    frame of the same size. *)
Theorem df_reorder_ok {A L} (df : DataFrame A L) (n : nat)
    (i_from : list Z) (i_to : Z) :
  square n df → distinct_sources n i_from →
  (- (Z.of_nat n - Z.of_nat (length i_from)) ≤ i_to
   ≤ Z.of_nat n - Z.of_nat (length i_from))%Z →
  ∃ df', df_reorder_matrix_basis df i_from i_to = Ok df' ∧ square n df'.
Proof.
  intros Hsq (F & HF & Hnd) Hto.
  destruct (positions_lookup _ _ _ HF) as (HlF & HFlt & _).
  assert (length (filter (λ k, k ∉ F) (seq 0 n)) = (n - length F)%nat) as Hcnt.
  { apply others_count; [done|].
    intros k (a & Ha)%list_elem_of_lookup. by eapply HFlt. }
  assert (length F ≤ n)%nat as HFn.
  { assert (length F ≤ length (seq 0 n))%nat as HFs;
      [|by rewrite length_seq in HFs].
    apply submseteq_length, NoDup_submseteq; [done|].
    intros k (a & Ha)%list_elem_of_lookup. apply elem_of_seq.
    apply HFlt in Ha. lia. }
  assert (∃ p, move_index_to i_from i_to n = Ok p) as [p Hp].
  { unfold move_index_to. rewrite (np_delete_arange _ _ _ HF).
    cbn [mbind result_bind]. unfold np_insert.
    rewrite length_fmap, Hcnt. rewrite decide_False by lia. by eexists. }
  destruct (move_index_to_positions _ _ _ _ _ Hp HF) as (t & _ & HP).
  set (P := take t (filter (λ i, i ∉ F) (seq 0 n)) ++ F
            ++ drop t (filter (λ i, i ∉ F) (seq 0 n))) in *.
  assert (length P = n) as HlP.
  { unfold P. rewrite block_insert_perm, length_app, Hcnt. lia. }
  pose proof Hsq as (Hl & Hrows & Hli & Hlc).
  destruct (np_ix_shape _ n p P Hl Hrows HP) as (M & HM & HlM & HMrows).
  destruct (take_along_lookup (df_columns df) p P) as (cols & Hc & Hlcols & _);
    [by rewrite Hlc|].
  destruct (take_along_lookup (df_index df) p P) as (rows & Hr & Hlrows & _);
    [by rewrite Hli|].
  exists (mkDataFrame M rows cols).
  rewrite df_reorder_reindex, Hl, Hp. cbn [mbind result_bind].
  unfold reindex. rewrite HM, Hc, Hr. cbn [mbind result_bind].
  unfold pd_DataFrame. rewrite decide_True; last first.
  { split; [lia|]. by rewrite Hlcols. }
  split; [done|]. unfold square. cbn [df_values df_index df_columns].
  rewrite HlP in HMrows. repeat split; [lia|done|lia|lia].
Qed.

Lemma df_reorder_ok_witness :
  ∃ df', df_reorder_matrix_basis
           (mkDataFrame [[1; 2]; [3; 4]]%nat ["a"; "b"]%string
              ["x"; "y"]%string) [0%Z] (-1) = Ok df'
    ∧ square 2 df'.
Proof.
  apply (df_reorder_ok
           (mkDataFrame [[1; 2]; [3; 4]]%nat ["a"; "b"]%string
              ["x"; "y"]%string) 2 [0%Z] (-1)).
  - repeat split; repeat constructor.
  - exists [0%nat]. split; [reflexivity|]. apply (bool_decide_unpack _).
    by vm_compute.
  - simpl. lia.
Defined.

(** X7. With no source index the frame comes back unchanged, whatever valid
    target is given. *)
Theorem df_reorder_nothing {A L} (df : DataFrame A L) (n : nat) (i_to : Z) :
  square n df → (- Z.of_nat n ≤ i_to ≤ Z.of_nat n)%Z →
  df_reorder_matrix_basis df [] i_to = Ok df.
Proof.
  intros Hsq Hto. pose proof Hsq as (Hl & Hrows & Hli & Hlc).
  assert (∀ t, take t (Z.of_nat <$> seq 0 n) ++ [] ++ drop t (Z.of_nat <$> seq 0 n)
               = Z.of_nat <$> seq 0 n) as Hid.
  { intros t. cbn [app]. apply take_drop. }
  assert (move_index_to [] i_to n = Ok (Z.of_nat <$> seq 0 n)) as Hp.
  { unfold move_index_to. rewrite (np_delete_arange n [] []) by done.
    rewrite filter_all by (apply Forall_forall; intros; apply not_elem_of_nil).
    cbn [mbind result_bind]. unfold np_insert. rewrite length_fmap, length_seq.
    rewrite decide_False by lia. by rewrite Hid. }
  assert (∀ {T} (l : list T), length l = n →
            take_along l (Z.of_nat <$> seq 0 n) = Ok l) as Hta.
  { intros T l Hll.
    destruct (take_along_lookup l (Z.of_nat <$> seq 0 n) (seq 0 n))
      as (r & Hr & Hlr & Hrk).
    { rewrite Hll. apply positions_of_nat. intros k Hk%elem_of_seq. lia. }
    rewrite Hr. f_equal. apply list_eq. intros a.
    destruct (decide (a < n)%nat) as [Ha|Ha].
    - apply Hrk, lookup_seq. lia.
    - rewrite !lookup_ge_None_2; [done|lia|rewrite Hlr, length_seq; lia]. }
  rewrite df_reorder_reindex, Hl, Hp. cbn [mbind result_bind].
  unfold reindex, np_ix. rewrite !Hta by done. cbn [mbind result_bind].
  assert (mapM (λ row : list A, take_along row (Z.of_nat <$> seq 0 n))
               (df_values df) = Ok (df_values df)) as ->.
  { apply mapM_result_intro; [done|]. intros a row Ha.
    exists row. split; [done|]. apply Hta.
    exact (Forall_lookup_1 _ _ _ _ Hrows Ha). }
  cbn [mbind result_bind]. unfold pd_DataFrame.
  rewrite decide_True; [by destruct df|].
  split; [lia|]. by rewrite Hlc.
Qed.

Lemma df_reorder_nothing_witness :
  df_reorder_matrix_basis
    (mkDataFrame [[1; 2]; [3; 4]]%nat ["a"; "b"]%string ["x"; "y"]%string)
    [] 2
  = Ok (mkDataFrame [[1; 2]; [3; 4]]%nat ["a"; "b"]%string ["x"; "y"]%string).
Proof.
  apply (df_reorder_nothing _ 2 2).
  - repeat split; repeat constructor.
  - lia.
Defined.

Lemma df_reorder_swap_back_witness :
  df_reorder_matrix_basis
    (mkDataFrame [[1; 2; 3]; [4; 5; 6]; [7; 8; 9]]%nat
                 ["a"; "b"; "c"]%string ["x"; "y"; "z"]%string) [0%Z] 2
    ≫= (λ df', df_reorder_matrix_basis df' [2%Z] 0)
  = Ok (mkDataFrame [[1; 2; 3]; [4; 5; 6]; [7; 8; 9]]%nat
                    ["a"; "b"; "c"]%string ["x"; "y"; "z"]%string).
Proof.
  apply (df_reorder_swap_back _ 3 0 2); [|lia|lia].
  repeat split; repeat constructor.
Defined.

(** ** What the loaders return *)

Lemma re_findall_cases (pat : text) dotall stop (s : text) :
  re_findall pat dotall stop s
  = match s with
    | [] => []
    | a :: s' =>
        match match_here pat dotall stop (a :: s') with
        | Some (g, rest) => g :: re_findall pat dotall stop rest
        | None => re_findall pat dotall stop s'
        end
    end.
Proof.
  funelim (re_findall pat dotall stop s); [done|..];
    match goal with E : match_here _ _ _ _ = _ |- _ => by rewrite E end.
Qed.

(** The lazy group stops at the first [stop] and, without [re.DOTALL],
    never runs over a line break. *)
Lemma lazy_until_group (dotall : bool) (stop : ascii) (s g rest : text) :
  lazy_until dotall stop s = Some (g, rest) →
  (stop ∉ g) ∧ (dotall = false → newline ∉ g).
Proof.
  revert g. induction s as [|a s IH]; intros g Hl; simpl in Hl; [done|].
  destruct (decide (a = stop)) as [->|Hne].
  - injection Hl as <- <-. split; [|intros _]; apply not_elem_of_nil.
  - destruct (dotall || negb (bool_decide (a = newline))) eqn:Hdot; [|done].
    destruct (lazy_until dotall stop s) as [[g' rest']|]; [|done].
    injection Hl as <- <-. destruct (IH g' eq_refl) as [Hs Hn].
    split.
    + intros [->|Hin]%elem_of_cons; [done|by apply Hs].
    + intros ->. simpl in Hdot. apply negb_true_iff, bool_decide_eq_false in Hdot.
      intros [Heq|Hin]%elem_of_cons; [done|by apply Hn].
Qed.

Lemma match_here_group (pat : text) dotall stop (s g rest : text) :
  match_here pat dotall stop s = Some (g, rest) →
  (stop ∉ g) ∧ (dotall = false → newline ∉ g).
Proof.
  unfold match_here. destruct (strip_prefix pat s) as [r|]; [|done].
  apply lazy_until_group.
Qed.

(** Every reported group is a [stop]-free piece of the text between [pat]
    and a [stop]. *)
Lemma re_findall_group (pat : text) dotall stop (s : text) (grp : text) :
  grp ∈ re_findall pat dotall stop s →
  ∃ a c, s = a ++ pat ++ grp ++ stop :: c
    ∧ (stop ∉ grp) ∧ (dotall = false → newline ∉ grp).
Proof.
  revert grp. funelim (re_findall pat dotall stop s); intros grp Hin.
  - by apply elem_of_nil in Hin.
  - match goal with E : match_here _ _ _ _ = Some _ |- _ =>
      pose proof (match_here_Some _ _ _ _ _ _ E) as Hs;
      pose proof (match_here_group _ _ _ _ _ _ E) as Hg end.
    apply elem_of_cons in Hin as [->|Hin].
    + exists [], rest. by rewrite Hs.
    + match goal with IH : ∀ _, _ ∈ _ → _ |- _ =>
        destruct (IH _ Hin) as (a0 & c & Hrest & Hgr) end.
      exists (pat ++ g ++ stop :: a0), c. split; [|done].
      rewrite Hs, Hrest. by rewrite <- !app_assoc.
  - match goal with IH : ∀ _, _ ∈ _ → _ |- _ =>
      destruct (IH _ Hin) as (a0 & c & -> & Hgr) end.
    by exists (a :: a0), c.
Qed.

(** With [re.DOTALL], a text that holds [pat] with a [stop] behind it has a
    match. *)
Lemma re_findall_segment (pat : text) stop (a g c : text) :
  re_findall pat true stop (a ++ pat ++ g ++ stop :: c) ≠ [].
Proof.
  assert (∀ s, stop ∈ s → ∃ g' r, lazy_until true stop s = Some (g', r)) as Hlazy.
  { intros s. induction s as [|x s IH]; intros Hin; [by apply elem_of_nil in Hin|].
    simpl. destruct (decide (x = stop)); [by eexists _, _|].
    apply elem_of_cons in Hin as [->|Hin]; [done|].
    destruct (IH Hin) as (g' & r & ->). by eexists _, _. }
  assert (∀ s, s = pat ++ g ++ stop :: c → re_findall pat true stop s ≠ [])
    as Hhere.
  { intros s ->. rewrite re_findall_cases.
    destruct (pat ++ g ++ stop :: c) as [|x s] eqn:Hs.
    { destruct pat, g; discriminate. }
    rewrite <- Hs. unfold match_here. rewrite strip_prefix_app.
    destruct (Hlazy (g ++ stop :: c)) as (g' & r & ->); [set_solver|done]. }
  induction a as [|x a IH]; [by apply Hhere|].
  rewrite re_findall_cases. cbn [app].
  by destruct (match_here pat true stop (x :: a ++ pat ++ g ++ stop :: c))
    as [[g' r]|].
Qed.

Section loaded.
Variable read_csv : text → bool → result (DataFrame R text).
Variable read_csv_noheader : text → result (DataFrame R text).

Lemma conductance_marker_cons :
  conductance_marker = "C"%char :: lit "onductance Matrix"
  ∧ "C"%char ∉ lit "onductance Matrix".
Proof. split; [done|]. apply (bool_decide_unpack _). by vm_compute. Qed.

(** A successful load went through the assertion: the marker begins at one
    place, and the rest of the work is done on what follows it. *)
Lemma readin_q3d_matrix_inv (txt : text) (dw : bool) r :
  readin_q3d_matrix read_csv txt dw = Ok r →
  ∃ pre post, txt = pre ++ capacitance_marker ++ post
    ∧ occurrences capacitance_marker txt = 1%nat
    ∧ read_sections read_csv txt post dw = Ok r.
Proof.
  destruct capacitance_marker_cons as [Hm Hc].
  unfold readin_q3d_matrix. rewrite Hm. cbn [str_split mbind result_bind].
  case_decide as Hlen; [|done].
  rewrite split_loop_length in Hlen by done.
  assert (occurrences ("C"%char :: lit "apacitance Matrix") txt = 1%nat)
    as Hocc by lia.
  destruct (split_loop_once _ _ _ Hc Hocc) as (pre & post & Htxt & ->).
  intros Hr. by exists pre, post.
Qed.

Lemma read_sections_inv (txt post : text) (dw : bool) df units dv cond :
  read_sections read_csv txt post dw = Ok (df, units, dv, cond) →
  (cond = None ↔ occurrences conductance_marker post = 0%nat)
  ∧ head (re_findall (lit "C Units:") false ","%char txt) = Some units
  ∧ dv = match re_findall (lit "DesignVariation:") false newline txt with
         | g :: _ => g
         | [] => match re_findall (lit "Design Variation:") false newline txt
                 with g :: _ => g | [] => [] end
         end.
Proof.
  destruct conductance_marker_cons as [Hm Hc].
  unfold read_sections. rewrite Hm.
  change (lit "Conductance Matrix") with ("C"%char :: lit "onductance Matrix").
  cbn [str_split mbind result_bind].
  pose proof (split_loop_length "C"%char (lit "onductance Matrix") post Hc)
    as Hlen.
  destruct (split_loop "C" (lit "onductance Matrix") post) as [|s2_0 s2];
    [done|].
  assert (py_get (s2_0 :: s2) 0 = Ok s2_0) as -> by done.
  cbn [mbind result_bind].
  destruct (read_csv (str_strip s2_0) dw) as [df0|]; [|done].
  cbn [mbind result_bind].
  intros Hr. apply result_bind_ok in Hr as (cond' & Hcond & Hr).
  apply result_bind_ok in Hr as (df1 & Hdf1 & Hr).
  apply result_bind_ok in Hr as (units' & Hunits & Hr).
  apply result_bind_ok in Hr as (dv' & Hdv & Hr).
  injection Hr as -> -> -> ->. split; [|split].
  - destruct (decide (1 < length (s2_0 :: s2))) as [Hlt|Hlt].
    + apply result_bind_ok in Hcond as (s2_1 & _ & Hcond).
      apply result_bind_ok in Hcond as (d & _ & Hcond).
      injection Hcond as <-. split; [done|lia].
    + injection Hcond as <-. split; [lia|done].
  - destruct (re_findall (lit "C Units:") false "," txt) as [|u us];
      [done|]. by injection Hunits as ->.
  - destruct (re_findall (lit "DesignVariation:") false newline txt)
      as [|g gs].
    + rewrite decide_True in Hdv by done.
      destruct (re_findall (lit "Design Variation:") false newline txt)
        as [|g gs]; by injection Hdv as <-.
    + rewrite decide_False in Hdv by done. by injection Hdv as <-.
Qed.

Lemma readin_q3d_matrix_m_first (txt g : text) (gs : list text) :
  re_findall (lit "capMatrix ") true "]" txt = g :: gs →
  readin_q3d_matrix_m read_csv_noheader txt
  = read_csv_noheader
      (str_strip_chars [newline]
         (str_strip_chars (lit "]") (str_strip_chars (lit "= [") g))).
Proof.
  intros Hre. unfold readin_q3d_matrix_m. rewrite Hre.
  assert (py_get (g :: gs) 0 = Ok g) as -> by done.
  cbn [mbind result_bind]. by destruct (read_csv_noheader _).
Qed.
End loaded.

(** X9. The units that [readin_q3d_matrix] returns are a piece of the text: what
    stands between 'C Units:' and the next comma on the same line; the
    design variation is the rest of a line behind 'DesignVariation:' or
    'Design Variation:', or the empty string. *)
Theorem readin_q3d_matrix_header read_csv (txt : text) (dw : bool)
    df (units dv : text) cond :
  readin_q3d_matrix read_csv txt dw = Ok (df, units, dv, cond) →
  (∃ a c, txt = a ++ lit "C Units:" ++ units ++ ","%char :: c
     ∧ (","%char ∉ units) ∧ (newline ∉ units))
  ∧ (dv = []
     ∨ ∃ a c, (txt = a ++ lit "DesignVariation:" ++ dv ++ newline :: c
               ∨ txt = a ++ lit "Design Variation:" ++ dv ++ newline :: c)
         ∧ newline ∉ dv).
Proof.
  intros Hr.
  destruct (readin_q3d_matrix_inv _ _ _ _ Hr) as (pre & post & _ & _ & Hs).
  destruct (read_sections_inv _ _ _ _ _ _ _ _ Hs) as (_ & Hu & Hdv).
  split.
  - destruct (re_findall (lit "C Units:") false "," txt) as [|u us] eqn:Hre;
      [done|]. injection Hu as ->.
    destruct (re_findall_group (lit "C Units:") false "," txt units)
      as (a & c & Ha & Hc & Hn); [rewrite Hre; left|].
    exists a, c. auto.
  - destruct (re_findall (lit "DesignVariation:") false newline txt)
      as [|g gs] eqn:Hre1.
    + destruct (re_findall (lit "Design Variation:") false newline txt)
        as [|g gs] eqn:Hre2; [by left|]. right. subst dv.
      destruct (re_findall_group (lit "Design Variation:") false newline txt g)
        as (a & c & Ha & Hc & Hn); [rewrite Hre2; left|].
      exists a, c. auto.
    + right. subst dv.
      destruct (re_findall_group (lit "DesignVariation:") false newline txt g)
        as (a & c & Ha & Hc & Hn); [rewrite Hre1; left|].
      exists a, c. auto.
Qed.

Lemma readin_q3d_matrix_header_witness :
  (∃ a c, lit "C Units:pF, Capacitance Matrix x"
          = a ++ lit "C Units:" ++ lit "pF" ++ ","%char :: c
     ∧ (","%char ∉ lit "pF") ∧ (newline ∉ lit "pF"))
  ∧ (([] : text) = []
     ∨ ∃ a c, (lit "C Units:pF, Capacitance Matrix x"
               = a ++ lit "DesignVariation:" ++ [] ++ newline :: c
               ∨ lit "C Units:pF, Capacitance Matrix x"
                 = a ++ lit "Design Variation:" ++ [] ++ newline :: c)
         ∧ newline ∉ ([] : text)).
Proof.
  apply (readin_q3d_matrix_header (λ _ _, Ok (mkDataFrame [] [] []))
           (lit "C Units:pF, Capacitance Matrix x") true
           (mkDataFrame [] [] []) (lit "pF") [] None).
  vm_compute. reflexivity.
Defined.

(** X10. The conductance frame is [None] exactly when no 'Conductance Matrix'
    marker follows the capacitance marker. *)
Theorem readin_q3d_matrix_conductance read_csv (txt : text) (dw : bool)
    df (units dv : text) cond :
  readin_q3d_matrix read_csv txt dw = Ok (df, units, dv, cond) →
  ∃ pre post, txt = pre ++ capacitance_marker ++ post
    ∧ (cond = None ↔ occurrences conductance_marker post = 0%nat).
Proof.
  intros Hr.
  destruct (readin_q3d_matrix_inv _ _ _ _ Hr) as (pre & post & Htxt & _ & Hs).
  destruct (read_sections_inv _ _ _ _ _ _ _ _ Hs) as (Hc & _).
  by exists pre, post.
Qed.

Lemma readin_q3d_matrix_conductance_witness :
  ∃ pre post,
    lit "C Units:pF, Capacitance Matrix x" = pre ++ capacitance_marker ++ post
    ∧ ((None : option (DataFrame R text)) = None
       ↔ occurrences conductance_marker post = 0%nat).
Proof.
  apply (readin_q3d_matrix_conductance (λ _ _, Ok (mkDataFrame [] [] []))
           (lit "C Units:pF, Capacitance Matrix x") true
           (mkDataFrame [] [] []) (lit "pF") [] None).
  vm_compute. reflexivity.
Defined.

(** X11. A text without 'C Units:' makes [readin_q3d_matrix] fail with an
    [IndexError] (at [re.findall(...)[0]]) once the marker assertion has
    passed and [read_csv] has parsed the table blocks of this text: the
    stripped text between the two markers and, when the conductance marker
    is there, the stripped text behind it. Nothing is asked of [read_csv]
    on other texts. *)
Theorem readin_q3d_matrix_no_units read_csv (txt : text) (dw : bool) :
  occurrences capacitance_marker txt = 1%nat →
  (∀ a c, txt ≠ a ++ lit "C Units:" ++ c) →
  (∀ pre post s2 piece,
     str_split capacitance_marker txt = Ok [pre; post] →
     str_split conductance_marker post = Ok s2 →
     piece ∈ take 2 s2 →
     is_ok (read_csv (str_strip piece) dw)) →
  readin_q3d_matrix read_csv txt dw = Raise IndexError.
Proof.
  intros Hocc Hno Hcsv.
  destruct capacitance_marker_cons as [Hm Hc].
  destruct conductance_marker_cons as [Hm' Hc'].
  unfold readin_q3d_matrix. rewrite Hm in *.
  cbn [str_split mbind result_bind] in *.
  destruct (split_loop_once _ _ _ Hc Hocc) as (pre & post & Htxt & Hs1).
  rewrite Hs1 in *.
  assert (∀ piece,
            piece ∈ take 2 (split_loop "C" (lit "onductance Matrix") post) →
            is_ok (read_csv (str_strip piece) dw)) as Hpiece.
  { intros piece Hin. apply (Hcsv pre post
             (split_loop "C" (lit "onductance Matrix") post) piece eq_refl);
      [|exact Hin].
    by rewrite Hm'. }
  clear Hcsv.
  rewrite decide_True by done.
  change (py_get [pre; post] 1) with (Ok post).
  cbn [mbind result_bind]. unfold read_sections.
  change (lit "Conductance Matrix") with ("C"%char :: lit "onductance Matrix").
  cbn [str_split mbind result_bind].
  pose proof (split_loop_length "C"%char (lit "onductance Matrix") post Hc')
    as Hlen.
  destruct (split_loop "C" (lit "onductance Matrix") post) as [|s2_0 s2];
    [done|].
  assert (py_get (s2_0 :: s2) 0 = Ok s2_0) as -> by done.
  cbn [mbind result_bind].
  destruct (Hpiece s2_0) as [df0 ->]; [by left|]. cbn [mbind result_bind].
  assert (∃ cond, (if decide (1 < length (s2_0 :: s2)) then
             s2_1 ← py_get (s2_0 :: s2) 1;
             d ← read_csv (str_strip s2_1) dw; Ok (Some d)
           else Ok None) = Ok cond) as [cond ->].
  { case_decide; [|by eexists]. destruct s2 as [|s2_1 s2]; [simpl in *; lia|].
    assert (py_get (s2_0 :: s2_1 :: s2) 1 = Ok s2_1) as ->
      by exact (py_get_nat (s2_0 :: s2_1 :: s2) 1 s2_1 eq_refl).
    cbn [mbind result_bind].
    destruct (Hpiece s2_1) as [d ->]; [by right; left|].
    by eexists. }
  cbn [mbind result_bind].
  assert (∃ df1, (if negb dw && negb (length (df_columns df0) =? 0)
                  then drop_last_label df0 else Ok df0) = Ok df1) as [df1 ->].
  { destruct (negb dw && negb (length (df_columns df0) =? 0)) eqn:Hb;
      [|by eexists].
    apply andb_true_iff in Hb as [_ Hb].
    apply negb_true_iff, Nat.eqb_neq in Hb. unfold drop_last_label.
    destruct (py_get (df_columns df0) (-1)) as [lbl|err] eqn:Hg;
      [by eexists|].
    unfold py_get, norm_index in Hg.
    rewrite decide_False, decide_True in Hg by lia.
    cbn [mbind result_bind] in Hg.
    destruct (df_columns df0 !! _) eqn:Hlk; [done|].
    apply lookup_ge_None in Hlk. lia. }
  cbn [mbind result_bind].
  destruct (re_findall (lit "C Units:") false "," txt) as [|u us] eqn:Hre;
    [done|].
  destruct (re_findall_cons (lit "C Units:") false "," txt) as (a & g & c & Ha);
    [by rewrite Hre|].
  by destruct (Hno a (g ++ ","%char :: c)).
Qed.

Lemma readin_q3d_matrix_no_units_witness :
  readin_q3d_matrix read_csv_nonempty (lit "Capacitance Matrix x") true
  = Raise IndexError.
Proof.
  apply (readin_q3d_matrix_no_units read_csv_nonempty
           (lit "Capacitance Matrix x") true).
  - reflexivity.
  - intros a c Heq.
    assert (has_segment (lit "C Units:") "x" (lit "Capacitance Matrix xx") = true)
      as Hs; [|discriminate Hs].
    apply has_segment_true. exists a, c, [].
    change (lit "Capacitance Matrix xx")
      with (lit "Capacitance Matrix x" ++ ["x"%char]).
    rewrite Heq. by rewrite <- !app_assoc.
  - intros pre post s2 piece H1 H2 Hin.
    vm_compute in H1. injection H1 as <- <-.
    vm_compute in H2. injection H2 as <-.
    apply list_elem_of_singleton in Hin as ->.
    eexists. vm_compute. reflexivity.
Defined.

(** X12. When the text holds a 'capMatrix ' with a ']' behind it,
    [readin_q3d_matrix_m] reads the frame from a piece of the text between
    such a pair, up to the first ']', stripped of '= [', ']' and line
    breaks at its ends. *)
Theorem readin_q3d_matrix_m_match read_csv_noheader (txt : text) :
  has_segment (lit "capMatrix ") "]" txt = true →
  ∃ a g c, txt = a ++ lit "capMatrix " ++ g ++ "]"%char :: c
    ∧ ("]"%char ∉ g)
    ∧ readin_q3d_matrix_m read_csv_noheader txt
      = read_csv_noheader
          (str_strip_chars [newline]
             (str_strip_chars (lit "]") (str_strip_chars (lit "= [") g))).
Proof.
  intros (a0 & g0 & c0 & Htxt)%has_segment_true.
  destruct (re_findall (lit "capMatrix ") true "]" txt) as [|g gs] eqn:Hre.
  { destruct (re_findall_segment (lit "capMatrix ") "]" a0 g0 c0).
    by rewrite <- Htxt. }
  destruct (re_findall_group (lit "capMatrix ") true "]" txt g)
    as (a & c & Ha & Hc & _); [rewrite Hre; left|].
  exists a, g, c. do 2 (split; [done|]).
  by eapply readin_q3d_matrix_m_first.
Qed.

Lemma readin_q3d_matrix_m_match_witness :
  ∃ a g c, lit "capMatrix = [1, 2]" = a ++ lit "capMatrix " ++ g ++ "]"%char :: c
    ∧ ("]"%char ∉ g)
    ∧ readin_q3d_matrix_m
        (λ s, Ok (mkDataFrame [] [s] [])) (lit "capMatrix = [1, 2]")
      = (λ s, Ok (mkDataFrame [] [s] []))
          (str_strip_chars [newline]
             (str_strip_chars (lit "]") (str_strip_chars (lit "= [") g))).
Proof.
  apply (readin_q3d_matrix_m_match (λ s, Ok (mkDataFrame [] [s] []))
           (lit "capMatrix = [1, 2]")).
  reflexivity.
Defined.

(** ** The level solver: matrix, table and outputs *)

Section solver_facts.
Local Open Scope R_scope.

Lemma Rle_transitive : Transitive Rle.
Proof. intros a b c. apply Rle_trans. Qed.

Lemma Rle_total : Total Rle.
Proof. intros a b. destruct (Rle_or_lt a b); [by left|right; lra]. Qed.

Lemma Rle_antisymm : AntiSymm (=) Rle.
Proof. intros a b. apply Rle_antisym. Qed.

Lemma StronglySorted_lookup_le (l : list R) (i j : nat) (x y : R) :
  StronglySorted Rle l → (i ≤ j)%nat →
  l !! i = Some x → l !! j = Some y → x <= y.
Proof.
  intros Hs. revert i j. induction Hs as [|a l Hs IH Hall]; intros i j Hij Hi Hj;
    [by rewrite lookup_nil in Hi|].
  destruct i as [|i], j as [|j]; simpl in *; try lia.
  - injection Hi as <-. injection Hj as <-. lra.
  - injection Hi as <-. apply list_elem_of_lookup_2 in Hj.
    by eapply Forall_forall in Hall.
  - apply (IH i j); [lia|done|done].
Qed.

(** The levels of one sample are non-negative and ascend. *)
Lemma sample_levels_ascending (eig : matrix → list R) (Ec EJ ng : R)
    (nmat : matrix) (r r' : nat) (x y : R) :
  (r ≤ r')%nat →
  sample_levels eig Ec EJ nmat ng !! r = Some x →
  sample_levels eig Ec EJ nmat ng !! r' = Some y →
  0 <= x <= y.
Proof.
  intros Hrr. unfold sample_levels, vminus. rewrite !list_lookup_fmap.
  set (sorted := merge_sort Rle _).
  assert (StronglySorted Rle sorted) as Hs.
  { apply StronglySorted_merge_sort; [apply Rle_transitive|apply Rle_total]. }
  destruct (sorted !! r) as [sr|] eqn:Hr; [|done].
  destruct (sorted !! r') as [sr'|] eqn:Hr'; [|done].
  intros [= <-] [= <-].
  destruct (sorted !! 0%nat) as [s0|] eqn:H0; last first.
  { apply lookup_ge_None in H0. apply lookup_lt_Some in Hr. lia. }
  rewrite (head_lookup sorted), H0. cbn [default].
  pose proof (StronglySorted_lookup_le _ 0 r _ _ Hs ltac:(lia) H0 Hr).
  pose proof (StronglySorted_lookup_le _ r r' _ _ Hs Hrr Hr Hr').
  unfold Datatypes.id. lra.
Qed.

Lemma level_summary_value (elvls : matrix) (E0 E2 E1 : list R) (e10 : R) :
  elvls !! 0%nat = Some E0 → elvls !! 1%nat = Some (e10 :: E1) →
  elvls !! 2%nat = Some E2 →
  ∃ anh tphi,
    level_summary elvls
    = Ok (np_mean (e10 :: E1) / h / 1e9, anh,
          (e10 - list_min (e10 :: E1)) / h, tphi).
Proof.
  intros H0 H1 H2. unfold level_summary, mat_get.
  change 0%Z with (Z.of_nat 0). change 1%Z with (Z.of_nat 1).
  change 2%Z with (Z.of_nat 2).
  rewrite (py_get_nat _ _ _ H0), (py_get_nat _ _ _ H1), (py_get_nat _ _ _ H2).
  cbn [mbind result_bind].
  rewrite (py_get_nat (e10 :: E1) 0 e10) by done.
  cbn [mbind result_bind]. rewrite dispersion_value.
  cbn [mbind result_bind]. rewrite !np_mean_vdiv. by do 2 eexists.
Qed.

Lemma np_sum_nonneg (v : list R) : Forall (λ x, 0 <= x) v → 0 <= np_sum v.
Proof.
  induction 1 as [|x v Hx Hv IH]; [unfold np_sum; simpl; lra|].
  change (np_sum (x :: v)) with (x + np_sum v). lra.
Qed.

Lemma list_min_head (x : R) (l : list R) : list_min (x :: l) <= x.
Proof.
  unfold list_min. revert x. induction l as [|y l IH]; intros x; simpl; [lra|].
  etransitivity; [apply IH|]. apply Rmin_l.
Qed.
End solver_facts.

(** ** The charge dispersion on a grid of five samples *)

Section dispersion_scale.
Local Open Scope R_scope.

(** *** The first two entries of a sorted list *)

Lemma sorted_Rle (d : list R) : StronglySorted Rle (merge_sort Rle d).
Proof. apply StronglySorted_merge_sort; [apply Rle_transitive|apply Rle_total]. Qed.

Lemma sorted_first_le (d : list R) (x s0 : R) :
  x ∈ d → merge_sort Rle d !! 0%nat = Some s0 → s0 <= x.
Proof.
  intros Hx H0. rewrite <- (merge_sort_Permutation Rle d) in Hx.
  apply list_elem_of_lookup in Hx as [k Hk].
  exact (StronglySorted_lookup_le _ 0 k s0 x (sorted_Rle d) ltac:(lia) H0 Hk).
Qed.

Lemma sorted_first_ge (d : list R) (a s0 : R) :
  (∀ y, y ∈ d → a <= y) → merge_sort Rle d !! 0%nat = Some s0 → a <= s0.
Proof.
  intros Ha H0. apply Ha. rewrite <- (merge_sort_Permutation Rle d).
  by eapply list_elem_of_lookup_2.
Qed.

(** Two entries no larger than [b] push the second smallest entry below
    [b]. *)
Lemma sorted_second_le (d : list R) (i j : nat) (x y b s1 : R) :
  d !! i = Some x → d !! j = Some y → i ≠ j → x <= b → y <= b →
  merge_sort Rle d !! 1%nat = Some s1 → s1 <= b.
Proof.
  intros Hi Hj Hij Hx Hy H1.
  pose proof (merge_sort_Permutation Rle d) as Hp. symmetry in Hp.
  apply Permutation_inj in Hp as (_ & f & Hf & Hlk).
  rewrite Hlk in Hi, Hj.
  assert (f i ≠ f j) as Hne by (intros ?; by apply Hij, Hf).
  destruct (decide (1 ≤ f i)%nat) as [H1i|H0i].
  - pose proof (StronglySorted_lookup_le _ 1 (f i) s1 x (sorted_Rle d) H1i
                  H1 Hi). lra.
  - pose proof (StronglySorted_lookup_le _ 1 (f j) s1 y (sorted_Rle d)
                  ltac:(lia) H1 Hj). lra.
Qed.

(** When all entries but one are at least [a], the second smallest entry
    is. *)
Lemma sorted_second_ge (d : list R) (i0 : nat) (a s1 : R) :
  (∀ j y, d !! j = Some y → j ≠ i0 → a <= y) →
  merge_sort Rle d !! 1%nat = Some s1 → a <= s1.
Proof.
  intros Ha H1.
  pose proof (merge_sort_Permutation Rle d) as Hp.
  apply Permutation_inj in Hp as (_ & g & Hg & Hlk).
  destruct (merge_sort Rle d !! 0%nat) as [s0|] eqn:H0; last first.
  { apply lookup_ge_None in H0. apply lookup_lt_Some in H1. lia. }
  pose proof (StronglySorted_lookup_le _ 0 1 s0 s1 (sorted_Rle d) ltac:(lia)
                H0 H1) as Hle.
  rewrite Hlk in H0, H1.
  assert (g 0%nat ≠ g 1%nat) as Hne by (intros Heq; by apply Hg in Heq).
  destruct (decide (g 1%nat = i0)) as [Heq|Hne1].
  - pose proof (Ha _ _ H0 ltac:(congruence)). lra.
  - exact (Ha _ _ H1 Hne1).
Qed.

(** *** Largest and smallest element *)

Lemma foldl_Rmin_le (x : R) (l : list R) (y : R) :
  y = x ∨ y ∈ l → foldl Rmin x l <= y.
Proof.
  revert x y. induction l as [|z l IH]; intros x y; simpl.
  - intros [->|Hin]; [lra|by apply elem_of_nil in Hin].
  - intros [->|[->|Hin]%elem_of_cons].
    + apply Rle_trans with (Rmin x z); [apply IH; by left|apply Rmin_l].
    + apply Rle_trans with (Rmin x z); [apply IH; by left|apply Rmin_r].
    + apply IH. by right.
Qed.

Lemma foldl_Rmin_ge (a x : R) (l : list R) :
  a <= x → Forall (λ y, a <= y) l → a <= foldl Rmin x l.
Proof.
  intros Hx Hl. revert x Hx. induction Hl as [|z l Hz Hl IH]; intros x Hx;
    simpl; [done|].
  apply IH. by apply Rmin_glb.
Qed.

Lemma foldl_Rmax_le (b x : R) (l : list R) :
  x <= b → Forall (λ y, y <= b) l → foldl Rmax x l <= b.
Proof.
  intros Hx Hl. revert x Hx. induction Hl as [|z l Hz Hl IH]; intros x Hx;
    simpl; [done|].
  apply IH. by apply Rmax_lub.
Qed.

Lemma list_min_le (l : list R) (y : R) : y ∈ l → list_min l <= y.
Proof.
  destruct l as [|x l]; [by intros ?%elem_of_nil|].
  intros [->|Hin]%elem_of_cons; apply foldl_Rmin_le; auto.
Qed.

Lemma peak_to_peak_le (l : list R) (b : R) :
  l ≠ [] → Forall (λ y, 0 <= y <= b) l → peak_to_peak l <= b.
Proof.
  intros Hne Hl. destruct l as [|x l]; [done|].
  apply Forall_cons in Hl as [Hx Hl]. unfold peak_to_peak, list_max, list_min.
  assert (foldl Rmax x l <= b) as Hmax.
  { apply foldl_Rmax_le; [lra|]. eapply Forall_impl; [done|]. simpl. intros y [? ?]. lra. }
  assert (0 <= foldl Rmin x l) as Hmin.
  { apply foldl_Rmin_ge; [lra|]. eapply Forall_impl; [done|]. simpl. intros y [? ?]. lra. }
  lra.
Qed.

(** *** The rows and the diagonal of the Hamiltonian *)

Lemma np_sum_app (u v : list R) : np_sum (u ++ v) = np_sum u + np_sum v.
Proof.
  unfold np_sum. induction u as [|x u IH]; simpl; [lra|]. rewrite IH. lra.
Qed.

(** A row with at most two entries off zero, none above [c]. *)
Lemma np_sum_two (g : nat → R) (i n : nat) (c : R) :
  0 <= c →
  (∀ j, S j ≠ i → j ≠ S i → g j = 0) → (∀ j, g j <= c) →
  np_sum (g <$> seq 0 n) <= 2 * c.
Proof.
  intros Hc Hz Hg.
  assert (np_sum (g <$> seq 0 n)
          <= (if decide (S n ≤ i)%nat then 0
              else if decide (n ≤ S i)%nat then c else 2 * c)) as Hb.
  { induction n as [|n IH].
    - unfold np_sum. simpl. repeat case_decide; lra.
    - rewrite seq_S, fmap_app, np_sum_app. simpl.
      change (np_sum [g n]) with (g n + 0).
      destruct (decide (S n = i)) as [Hn1|Hn1];
        [|destruct (decide (n = S i)) as [Hn2|Hn2]].
      + pose proof (Hg n). repeat case_decide; try lia; lra.
      + pose proof (Hg n). repeat case_decide; try lia; lra.
      + rewrite (Hz n Hn1 Hn2). repeat case_decide; try lia; lra. }
  repeat case_decide; lra.
Qed.

Lemma imap_fmap_seq {A B} (h : nat → A → B) (f : nat → A) (n : nat) :
  imap h (f <$> seq 0 n) = (λ j, h j (f j)) <$> seq 0 n.
Proof.
  apply list_eq. intros j.
  rewrite list_lookup_imap, !list_lookup_fmap.
  destruct (decide (j < n)%nat) as [Hj|Hj].
  - by rewrite lookup_seq_lt.
  - by rewrite lookup_seq_ge by lia.
Qed.

Lemma hamiltonian_offdiag (Ec EJ ng : R) (nmat : matrix) (i : nat)
    (row : list R) :
  charge_operator = Ok nmat → 0 <= EJ →
  hamiltonian Ec EJ nmat josephson_operator ng !! i = Some row →
  offdiag_sum i row <= EJ.
Proof.
  intros Hn HEJ. rewrite (hamiltonian_tabulate _ _ _ _ Hn).
  intros Hrow.
  assert (i < dim)%nat as Hi.
  { apply lookup_lt_Some in Hrow. by rewrite tabulate_length in Hrow. }
  rewrite tabulate_lookup in Hrow by done.
  apply (inj Some) in Hrow. subst row.
  unfold offdiag_sum. rewrite imap_fmap_seq.
  apply Rle_trans with (2 * (EJ / 2)); [|lra].
  apply (np_sum_two _ i dim (EJ / 2)); [lra| |].
  - intros j Hj1 Hj2. case_decide; [done|].
    rewrite !decide_False by done.
    replace (_ + _) with 0 by ring. by rewrite Rabs_R0.
  - intros j. case_decide; [lra|].
    rewrite !(decide_False (P := i = j)) by done.
    replace (4 * Ec * (0 - ng * 0) ^ 2 + _)
      with (EJ * ((if decide (j = S i) then -0.5 else 0)
                  + (if decide (i = S j) then -0.5 else 0))) by ring.
    repeat case_decide; try lia;
      apply Rabs_le; lra.
Qed.

Lemma hamiltonian_diagonal (Ec EJ ng : R) (nmat : matrix) (i : nat) :
  charge_operator = Ok nmat → (i < dim)%nat →
  np_diagonal (hamiltonian Ec EJ nmat josephson_operator ng) !! i
  = Some (4 * Ec * (IZR (Z.of_nat i - Z.of_nat nmax) - ng) ^ 2).
Proof.
  intros Hn Hi. rewrite (hamiltonian_tabulate _ _ _ _ Hn).
  unfold np_diagonal. rewrite list_lookup_imap, tabulate_lookup by done.
  cbn [fmap option_fmap option_map].
  rewrite list_lookup_fmap, lookup_seq_lt by done.
  cbn [fmap option_fmap option_map default]. f_equal. unfold Datatypes.id.
  rewrite !decide_True by done.
  rewrite !decide_False by lia. ring.
Qed.

Lemma hamiltonian_diagonal_inv (Ec EJ ng : R) (nmat : matrix) (i : nat)
    (y : R) :
  charge_operator = Ok nmat →
  np_diagonal (hamiltonian Ec EJ nmat josephson_operator ng) !! i = Some y →
  (i < dim)%nat ∧ y = 4 * Ec * (IZR (Z.of_nat i - Z.of_nat nmax) - ng) ^ 2.
Proof.
  intros Hn Hy.
  assert (i < dim)%nat as Hi.
  { apply lookup_lt_Some in Hy. unfold np_diagonal in Hy.
    by rewrite length_imap, (hamiltonian_length _ _ _ _ Hn) in Hy. }
  rewrite (hamiltonian_diagonal _ _ _ _ _ Hn Hi) in Hy. by injection Hy as <-.
Qed.
End dispersion_scale.

Section weyl.
Local Open Scope R_scope.
Variable eig : matrix → list R.
Hypothesis eig_weyl : eig_near_diagonal eig.
Variable nmat : matrix.
Hypothesis Hnmat : charge_operator = Ok nmat.
Variables Ec EJ : R.
Hypothesis HEc : 0 <= Ec.
Hypothesis HEJ : 0 <= EJ.

Lemma Rabs_le_bounds (x a : R) : Rabs x <= a → - a <= x <= a.
Proof. unfold Rabs. destruct (Rcase_abs x); lra. Qed.

(** Level 1 of a sample is the gap between the two smallest eigenvalues,
    each within [EJ] of the entry of the sorted diagonal at its place. *)
Lemma level_1_gap (ng x : R) :
  sample_levels eig Ec EJ nmat ng !! 1%nat = Some x →
  ∃ d0 d1,
    merge_sort Rle (np_diagonal (hamiltonian Ec EJ nmat josephson_operator ng))
      !! 0%nat = Some d0
    ∧ merge_sort Rle
        (np_diagonal (hamiltonian Ec EJ nmat josephson_operator ng))
      !! 1%nat = Some d1
    ∧ d1 - d0 - 2 * EJ <= x <= d1 - d0 + 2 * EJ.
Proof.
  unfold sample_levels, vminus. rewrite list_lookup_fmap.
  set (H := hamiltonian Ec EJ nmat josephson_operator ng).
  destruct (merge_sort Rle (eig H) !! 1%nat) as [l1|] eqn:Hl1; [|done].
  destruct (merge_sort Rle (eig H) !! 0%nat) as [l0|] eqn:Hl0; last first.
  { apply lookup_ge_None in Hl0. apply lookup_lt_Some in Hl1. lia. }
  rewrite (head_lookup (merge_sort Rle (eig H))), Hl0.
  cbn [fmap option_fmap option_map default]. unfold Datatypes.id.
  intros [= <-].
  assert (length (merge_sort Rle (np_diagonal H)) = dim) as Hlen.
  { rewrite (Permutation_length (merge_sort_Permutation Rle _)).
    unfold np_diagonal. rewrite length_imap.
    by apply hamiltonian_length. }
  destruct (lookup_lt_is_Some_2 (merge_sort Rle (np_diagonal H)) 0)
    as [d0 Hd0]; [rewrite Hlen; unfold dim, nmax; lia|].
  destruct (lookup_lt_is_Some_2 (merge_sort Rle (np_diagonal H)) 1)
    as [d1 Hd1]; [rewrite Hlen; unfold dim, nmax; lia|].
  exists d0, d1. do 2 (split; [done|]).
  assert (∀ k l d, merge_sort Rle (eig H) !! k = Some l →
                   merge_sort Rle (np_diagonal H) !! k = Some d →
                   Rabs (l - d) <= EJ) as Hnear.
  { apply eig_weyl.
    - unfold H. rewrite (hamiltonian_length _ _ _ _ Hnmat).
      rewrite (hamiltonian_tabulate _ _ _ _ Hnmat).
      apply Forall_forall. intros row Hrow. unfold tabulate in Hrow.
      apply list_elem_of_fmap in Hrow as (i & -> & _).
      by rewrite length_fmap, length_seq.
    - pose proof (hamiltonian_hermitian Ec EJ ng nmat Hnmat) as Hh.
      by unfold np_conj in Hh.
    - intros i row Hrow. by eapply hamiltonian_offdiag. }
  pose proof (Hnear _ _ _ Hl0 Hd0) as H0%Rabs_le_bounds.
  pose proof (Hnear _ _ _ Hl1 Hd1) as H1%Rabs_le_bounds.
  lra.
Qed.

Lemma IZR_apart (z : Z) : IZR z <= -1 ∨ z = 0%Z ∨ 1 <= IZR z.
Proof.
  destruct (Z.lt_trichotomy z 0) as [Hz|[->|Hz]]; [left|by right; left|].
  - apply (IZR_le z (-1)). lia.
  - right; right. apply (IZR_le 1 z). lia.
Qed.

(** Level 1 of any sample of the grid is at most [4 * Ec + 2 * EJ]. *)
Lemma level_1_upper (ng x : R) :
  -1 <= ng <= 1 →
  sample_levels eig Ec EJ nmat ng !! 1%nat = Some x →
  x <= 4 * Ec + 2 * EJ.
Proof.
  intros Hng (d0 & d1 & Hd0 & Hd1 & Hx)%level_1_gap.
  assert (0 <= d0) as H0.
  { apply (sorted_first_ge _ 0 d0) in Hd0; [done|].
    intros y [i Hy]%list_elem_of_lookup.
    apply (hamiltonian_diagonal_inv _ _ _ _ _ _ Hnmat) in Hy as [_ ->].
    apply Rmult_le_pos; [lra|]. apply pow2_ge_0. }
  assert (d1 <= 4 * Ec) as H1.
  { assert (40 < dim)%nat as H40 by (unfold dim, nmax; lia).
    assert (39 < dim)%nat as H39 by (unfold dim, nmax; lia).
    assert (41 < dim)%nat as H41 by (unfold dim, nmax; lia).
    pose proof (hamiltonian_diagonal Ec EJ ng nmat 40 Hnmat H40) as Hm.
    change (Z.of_nat 40 - Z.of_nat nmax)%Z with 0%Z in Hm.
    assert (4 * Ec * (0 - ng) ^ 2 <= 4 * Ec) as Hmid.
    { assert ((0 - ng) ^ 2 <= 1) by nra. nra. }
    destruct (Rle_or_lt ng 0) as [Hneg|Hpos].
    - pose proof (hamiltonian_diagonal Ec EJ ng nmat 39 Hnmat H39) as Hs.
      change (Z.of_nat 39 - Z.of_nat nmax)%Z with (-1)%Z in Hs.
      eapply (sorted_second_le _ 39 40);
        [exact Hs|exact Hm|lia| |exact Hmid|exact Hd1].
      assert ((-1 - ng) ^ 2 <= 1) by nra. nra.
    - pose proof (hamiltonian_diagonal Ec EJ ng nmat 41 Hnmat H41) as Hs.
      change (Z.of_nat 41 - Z.of_nat nmax)%Z with 1%Z in Hs.
      eapply (sorted_second_le _ 41 40);
        [exact Hs|exact Hm|lia| |exact Hmid|exact Hd1].
      assert ((1 - ng) ^ 2 <= 1) by nra. nra. }
  lra.
Qed.

(** At the first sample, [ng = -1], level 1 is at least
    [4 * Ec - 2 * EJ]. *)
Lemma level_1_integer (x : R) :
  sample_levels eig Ec EJ nmat (-1) !! 1%nat = Some x →
  4 * Ec - 2 * EJ <= x.
Proof.
  intros (d0 & d1 & Hd0 & Hd1 & Hx)%level_1_gap.
  assert (39 < dim)%nat as H39 by (unfold dim, nmax; lia).
  assert (d0 <= 0) as H0.
  { apply (sorted_first_le _ 0 d0) in Hd0; [done|].
    apply list_elem_of_lookup. exists 39%nat.
    rewrite (hamiltonian_diagonal Ec EJ (-1) nmat 39 Hnmat H39).
    change (Z.of_nat 39 - Z.of_nat nmax)%Z with (-1)%Z.
    f_equal. ring. }
  assert (4 * Ec <= d1) as H1.
  { apply (sorted_second_ge _ 39 (4 * Ec) d1) in Hd1; [done|].
    intros j y Hy Hj.
    apply (hamiltonian_diagonal_inv _ _ _ _ _ _ Hnmat) in Hy as [_ ->].
    replace (IZR (Z.of_nat j - Z.of_nat nmax) - -1)
      with (IZR (Z.of_nat j - 39)).
    2:{ change (Z.of_nat nmax) with 40%Z. rewrite !minus_IZR. lra. }
    destruct (IZR_apart (Z.of_nat j - 39)) as [Hz|[Hz|Hz]]; [|lia|].
    - assert (1 <= IZR (Z.of_nat j - 39) ^ 2) by nra. nra.
    - assert (1 <= IZR (Z.of_nat j - 39) ^ 2) by nra. nra. }
  lra.
Qed.

(** Half-way between two integers, [ng = -1/2], level 1 is at most
    [2 * EJ]. *)
Lemma level_1_half (x : R) :
  sample_levels eig Ec EJ nmat (-1 / 2) !! 1%nat = Some x →
  x <= 2 * EJ.
Proof.
  intros (d0 & d1 & Hd0 & Hd1 & Hx)%level_1_gap.
  assert (39 < dim)%nat as H39 by (unfold dim, nmax; lia).
  assert (40 < dim)%nat as H40 by (unfold dim, nmax; lia).
  assert (Ec <= d0) as H0.
  { apply (sorted_first_ge _ Ec d0) in Hd0; [done|].
    intros y [i Hy]%list_elem_of_lookup.
    apply (hamiltonian_diagonal_inv _ _ _ _ _ _ Hnmat) in Hy as [_ ->].
    set (t := IZR (Z.of_nat i - Z.of_nat nmax) - -1 / 2).
    assert (1 / 4 <= t ^ 2) as Ht; [|nra].
    unfold t.
    destruct (IZR_apart (Z.of_nat i - Z.of_nat nmax)) as [Hz|[Hz|Hz]].
    - nra.
    - rewrite Hz. lra.
    - nra. }
  assert (d1 <= Ec) as H1.
  { pose proof (hamiltonian_diagonal Ec EJ (-1 / 2) nmat 39 Hnmat H39) as Hs.
    pose proof (hamiltonian_diagonal Ec EJ (-1 / 2) nmat 40 Hnmat H40) as Hm.
    change (Z.of_nat 39 - Z.of_nat nmax)%Z with (-1)%Z in Hs.
    change (Z.of_nat 40 - Z.of_nat nmax)%Z with 0%Z in Hm.
    eapply (sorted_second_le _ 39 40); [exact Hs|exact Hm|lia| | |exact Hd1];
      nra. }
  lra.
Qed.
End weyl.

Section five_samples.
Local Open Scope R_scope.

Lemma offdiag_sum_nonneg (i : nat) (row : list R) : 0 <= offdiag_sum i row.
Proof.
  unfold offdiag_sum. apply np_sum_nonneg, Forall_lookup. intros j y.
  rewrite list_lookup_imap. destruct (row !! j) as [x|]; [|done].
  intros [= <-]. case_decide; [lra|apply Rabs_pos].
Qed.

(** The diagonal itself, which holds the eigenvalues of a diagonal matrix,
    is as close to the diagonal as can be. *)
Lemma np_diagonal_near : eig_near_diagonal np_diagonal.
Proof.
  intros H r _ _ Hrows k x d Hx Hd. rewrite Hx in Hd. injection Hd as <-.
  replace (x - x) with 0 by ring. rewrite Rabs_R0.
  destruct (H !! 0%nat) as [row|] eqn:Hrow.
  - pose proof (Hrows 0%nat row Hrow). pose proof (offdiag_sum_nonneg 0 row).
    lra.
  - apply lookup_ge_None in Hrow. apply lookup_lt_Some in Hx.
    rewrite (Permutation_length (merge_sort_Permutation Rle _)) in Hx.
    unfold np_diagonal in Hx. rewrite length_imap in Hx. lia.
Qed.

Lemma energies_65 :
  0 <= charging_energy 65 ∧ 0 <= josephson_energy 0.1
  ∧ 4 * charging_energy 65 + 2 * josephson_energy 0.1 <= 1e-24
  ∧ 1e8 * h <= 4 * charging_energy 65 - 4 * josephson_energy 0.1.
Proof.
  unfold charging_energy, josephson_energy, e, hbar, h. repeat split; lra.
Qed.

Lemma np_linspace_5 (i : nat) :
  (i < 5)%nat →
  ∃ ng, np_linspace (-1) 1 5 !! i = Some ng ∧ -1 <= ng <= 1
    ∧ (i = 0%nat → ng = -1) ∧ (i = 1%nat → ng = -1 / 2).
Proof.
  intros Hi. unfold np_linspace. eexists.
  rewrite list_lookup_fmap, lookup_seq_lt by done. split; [reflexivity|].
  cbn [fmap option_fmap option_map]. rewrite decide_True by (simpl; lia).
  do 5 (destruct i as [|i]; [simpl; repeat split; intros; try lia; lra|]).
  lia.
Qed.
End five_samples.


(** X13. The matrix handed to the eigenvalue routine is the tridiagonal
    charge-basis Hamiltonian: [4 Ec (n - ng)^2] on the diagonal for the
    charge numbers [n = -nmax .. nmax], [-EJ/2] beside it, zero elsewhere. *)
Theorem hamiltonian_entries (Ec EJ ng : R) (i j : nat) :
  (i < dim)%nat → (j < dim)%nat →
  ∃ nmat, charge_operator = Ok nmat
    ∧ entry (hamiltonian Ec EJ nmat josephson_operator ng) i j
      = Some (if decide (i = j)
              then 4 * Ec * (IZR (Z.of_nat i - Z.of_nat nmax) - ng) ^ 2
              else if decide (j = S i ∨ i = S j) then - EJ / 2
              else 0)%R.
Proof.
  intros Hi Hj. eexists. split; [apply charge_operator_diagonal|].
  rewrite hamiltonian_tabulate by apply charge_operator_diagonal.
  unfold entry. rewrite tabulate_lookup by done. cbn [mbind option_bind].
  rewrite list_lookup_fmap, lookup_seq_lt by done. cbn [fmap option_fmap option_map].
  f_equal. repeat case_decide; try lia; try lra.
  all: destruct_or?; try lia.
Qed.

Lemma hamiltonian_entries_witness :
  ∃ nmat, charge_operator = Ok nmat
    ∧ entry (hamiltonian 1 2 nmat josephson_operator 0) 3 4
      = Some (if decide (3 = 4)%nat
              then 4 * 1 * (IZR (Z.of_nat 3 - Z.of_nat nmax) - 0) ^ 2
              else if decide (4 = 4 ∨ 3 = 5)%nat then - 2 / 2
              else 0)%R.
Proof.
  apply (hamiltonian_entries 1 2 0 3 4); unfold dim, nmax; lia.
Defined.

(** A level table is produced only for a non-zero capacitance. *)
Lemma level_table_defined (eig : matrix → list R) (Cq IC : R) (N : nat)
    (elvls : matrix) :
  level_table eig Cq IC N = Ok elvls → Cq ≠ 0%R.
Proof.
  intros Ht ->. unfold level_table, py_div in Ht.
  rewrite decide_True in Ht by lra. discriminate Ht.
Qed.

(** X14. Over the reals (the arithmetic of the source taken as exact):
    whenever the level table is produced, the levels in each of its columns
    (one column per offset charge) are non-negative and ascend with the
    level index. *)
Theorem level_table_ascending (eig : matrix → list R) (Cq IC : R) (N : nat)
    (elvls : matrix) :
  eig_shape eig → level_table eig Cq IC N = Ok elvls →
  ∀ i r r' x y, (r ≤ r')%nat →
    entry elvls r i = Some x → entry elvls r' i = Some y →
    (0 <= x <= y)%R.
Proof.
  intros Heig Htab.
  pose proof (level_table_defined eig Cq IC N elvls Htab) as HCq.
  destruct (level_table_ok eig Heig Cq IC N HCq)
    as (nmat & elvls' & Hn & Ht & Hlen & Hrows & Hent).
  rewrite Htab in Ht. injection Ht as <-.
  intros i r r' x y Hrr Hx Hy.
  assert (i < N)%nat as Hi.
  { unfold entry in Hx. destruct (elvls !! r) as [row|] eqn:Hrow; [|done].
    cbn [mbind option_bind] in Hx. apply lookup_lt_Some in Hx.
    by rewrite (Forall_lookup_1 _ _ _ _ Hrows Hrow) in Hx. }
  destruct (lookup_lt_is_Some_2 (np_linspace (-1) 1 N) i) as [ng Hng];
    [by rewrite np_linspace_length|].
  rewrite (Hent i ng r Hng) in Hx. rewrite (Hent i ng r' Hng) in Hy.
  exact (sample_levels_ascending eig _ _ ng nmat r r' x y Hrr Hx Hy).
Qed.

Lemma level_table_ascending_witness :
  ∃ elvls, level_table np_diagonal 65 30 3 = Ok elvls
    ∧ ∀ i r r' x y, (r ≤ r')%nat →
        entry elvls r i = Some x → entry elvls r' i = Some y →
        (0 <= x <= y)%R.
Proof.
  destruct (level_table_ok np_diagonal np_diagonal_shape 65 30 3)
    as (nmat & elvls & _ & Ht & _); [lra|].
  exists elvls. split; [exact Ht|].
  exact (level_table_ascending np_diagonal 65 30 3 elvls np_diagonal_shape Ht).
Defined.

(** X15. The four outputs do not depend on the order in which the eigenvalue
    routine lists the eigenvalues. *)
Theorem levels_eig_order (eig eig' : matrix → list R) (Cq IC : R) (N : nat) :
  (∀ H, eig H ≡ₚ eig' H) →
  levels_vs_ng_real_units eig Cq IC N = levels_vs_ng_real_units eig' Cq IC N.
Proof.
  intros Hperm.
  assert (∀ H, merge_sort Rle (eig H) = merge_sort Rle (eig' H)) as Hsort.
  { intros H. pose proof Rle_transitive. pose proof Rle_total.
    pose proof Rle_antisymm.
    apply (StronglySorted_unique Rle);
      [apply StronglySorted_merge_sort; done..|].
    by rewrite !merge_sort_Permutation. }
  unfold levels_vs_ng_real_units, level_table.
  destruct (py_div _ _) as [Ec|]; [|done]. cbn [mbind result_bind].
  destruct charge_operator as [nmat|]; [|done]. cbn [mbind result_bind].
  unfold for_range.
  rewrite (for_loop_ext _ _
             (level_step eig' Ec (IC * 1e-9 * (hbar / 2 / e)) nmat
                josephson_operator (np_linspace (-1) 1 N))); [done|].
  intros i s _. unfold level_step.
  destruct (py_get _ _) as [ng|]; [|done]. cbn [mbind result_bind].
  cbv zeta. by rewrite Hsort.
Qed.

Lemma levels_eig_order_witness :
  levels_vs_ng_real_units np_diagonal 65 30 3
  = levels_vs_ng_real_units (λ H, reverse (np_diagonal H)) 65 30 3.
Proof.
  apply (levels_eig_order np_diagonal (λ H, reverse (np_diagonal H))).
  intros H. by rewrite reverse_Permutation.
Defined.



(** X17. Over the reals (the arithmetic of the source taken as exact, with
    no overflow to [inf] or [nan]): whenever the solver returns its four
    numbers, the qubit frequency and the charge dispersion among them are
    non-negative. *)
Theorem levels_nonnegative (eig : matrix → list R) (Cq IC : R) (N : nat)
    (fq anh disp tphi : R) :
  eig_shape eig →
  levels_vs_ng_real_units eig Cq IC N = Ok (fq, anh, disp, tphi) →
  (0 <= fq)%R ∧ (0 <= disp)%R.
Proof.
  intros Heig Hret. unfold levels_vs_ng_real_units in Hret.
  destruct (level_table eig Cq IC N) as [elvls|err] eqn:Htab; [|done].
  cbn [mbind result_bind] in Hret.
  pose proof (level_table_defined eig Cq IC N elvls Htab) as HCq.
  destruct (level_table_ok eig Heig Cq IC N HCq)
    as (nmat & elvls' & Hn & Ht & Hlen & Hrows & Hent).
  rewrite Htab in Ht. injection Ht as <-.
  destruct (lookup_lt_is_Some_2 elvls 0) as [E0 HE0];
    [rewrite Hlen; unfold dim, nmax; lia|].
  destruct (lookup_lt_is_Some_2 elvls 1) as [E1 HE1];
    [rewrite Hlen; unfold dim, nmax; lia|].
  destruct (lookup_lt_is_Some_2 elvls 2) as [E2 HE2];
    [rewrite Hlen; unfold dim, nmax; lia|].
  pose proof (Forall_lookup_1 _ _ _ _ Hrows HE1) as Hl1. simpl in Hl1.
  assert (Forall (λ x, 0 <= x)%R E1) as Hpos.
  { apply Forall_lookup. intros i x Hx.
    assert (i < N)%nat as Hi by (rewrite <- Hl1; by eapply lookup_lt_Some).
    destruct (lookup_lt_is_Some_2 (np_linspace (-1) 1 N) i) as [ng Hng];
      [by rewrite np_linspace_length|].
    assert (entry elvls 1 i = Some x) as He by (unfold entry; by rewrite HE1).
    rewrite (Hent i ng 1%nat Hng) in He.
    by destruct (sample_levels_ascending eig _ _ ng nmat 1 1 x x (le_n 1) He He). }
  destruct E1 as [|e10 E1].
  { unfold level_summary, mat_get in Hret.
    assert (py_get elvls 0 = Ok E0) as H0
      by exact (py_get_nat elvls 0 E0 HE0).
    assert (py_get elvls 1 = Ok []) as H1
      by exact (py_get_nat elvls 1 [] HE1).
    assert (py_get elvls 2 = Ok E2) as H2
      by exact (py_get_nat elvls 2 E2 HE2).
    rewrite H0, H1, H2 in Hret. discriminate Hret. }
  destruct (level_summary_value elvls E0 E2 E1 e10 HE0 HE1 HE2)
    as (anh' & tphi' & Hsum).
  rewrite Hsum in Hret. injection Hret as <- _ <- _.
  pose proof h_pos as Hh. split.
  - apply Rmult_le_pos; [|left; apply Rinv_0_lt_compat; lra].
    apply Rmult_le_pos;
      [|left; by apply Rinv_0_lt_compat].
    unfold np_mean. apply Rmult_le_pos; [by apply np_sum_nonneg|].
    left. apply Rinv_0_lt_compat. apply lt_0_INR. simpl. lia.
  - apply Rmult_le_pos; [|left; by apply Rinv_0_lt_compat].
    pose proof (list_min_head e10 E1) as Hmin.
    change (list_min (e10 :: E1)) with (foldl Rmin e10 E1) in Hmin. lra.
Qed.

Lemma levels_nonnegative_witness :
  ∃ fq anh disp tphi,
    levels_vs_ng_real_units np_diagonal 65 30 3 = Ok (fq, anh, disp, tphi)
    ∧ (0 <= fq)%R ∧ (0 <= disp)%R.
Proof.
  destruct (levels_vs_ng_is_ok np_diagonal 65 30 3 np_diagonal_shape)
    as (fq & anh & disp & tphi & Hret); [lra|lia|].
  exists fq, anh, disp, tphi. split; [exact Hret|].
  exact (levels_nonnegative np_diagonal 65 30 3 fq anh disp tphi
           np_diagonal_shape Hret).
Defined.

(** ** The helpers of the reducer *)

Section reducer_facts.
Local Open Scope R_scope.

Lemma for_loop_app {S} (l1 l2 : list nat) (body : nat → S → result S) (s : S) :
  for_loop (l1 ++ l2) body s = for_loop l1 body s ≫= for_loop l2 body.
Proof.
  revert s. induction l1 as [|i l1 IH]; intros s; simpl; [done|].
  destruct (body i s); simpl; [apply IH|done].
Qed.

Lemma py_get_pred {T} (l : list T) (i : nat) (x : T) :
  (0 < i)%nat → l !! (i - 1)%nat = Some x → py_get l (Z.of_nat i - 1) = Ok x.
Proof.
  intros Hi Hx. replace (Z.of_nat i - 1)%Z with (Z.of_nat (i - 1)) by lia.
  by apply py_get_nat.
Qed.

(** A list of bus frequencies with fewer than [N - 1] entries stops the
    loop at [fb[ii - 1]]. *)
Lemma resonator_frequencies_short (N : nat) (fs : list R) (fr : R) :
  (length fs < N - 1)%nat →
  resonator_frequencies N (FreqList fs) fr = Raise IndexError.
Proof.
  intros Hlt. unfold resonator_frequencies, for_range.
  match goal with |- for_loop _ ?b _ = _ => set (body := b) end.
  set (k := S (length fs)).
  assert (seq 0 N = seq 0 k ++ k :: seq (S k) (N - S k)) as ->.
  { replace N with (k + S (N - S k))%nat at 1 by (unfold k; lia).
    by rewrite seq_app. }
  rewrite for_loop_app.
  destruct (for_loop_invariant (λ _ s, length s = N) body k 0 (np_zeros N))
    as (s' & -> & Hl).
  { apply length_replicate. }
  { intros i s Hi Hs. unfold body. case_decide as Hi0.
    - rewrite set_item_ok by lia. eexists. split; [done|].
      by rewrite length_insert.
    - destruct (lookup_lt_is_Some_2 fs (i - 1)) as [f Hf]; [unfold k in Hi; lia|].
      rewrite (py_get_pred fs i f) by (done || lia). cbn [mbind result_bind].
      rewrite set_item_ok by (unfold k in Hi; lia). eexists. split; [done|].
      by rewrite length_insert. }
  cbn [mbind result_bind for_loop].
  assert (body k s' = Raise IndexError) as ->; [|done].
  unfold body. rewrite decide_False by done.
  assert (py_get fs (Z.of_nat k - 1) = Raise IndexError) as ->; [|done].
  unfold py_get, norm_index, k.
  rewrite decide_False by lia. by rewrite decide_False by lia.
Qed.

Lemma np_sum_recip_ge (t : R) (v : list R) :
  Forall (λ x, 0 < x) v → t ∈ v → / t <= np_sum (vrecip 1 v).
Proof.
  induction 1 as [|x v Hx Hv IH]; intros Hin; [by apply elem_of_nil in Hin|].
  change (np_sum (vrecip 1 (x :: v))) with (1 / x + np_sum (vrecip 1 v)).
  assert (0 <= np_sum (vrecip 1 v)) as Hpos.
  { apply np_sum_nonneg. unfold vrecip. apply Forall_fmap.
    eapply Forall_impl; [exact Hv|]. intros y Hy. simpl.
    apply Rlt_le, Rdiv_lt_0_compat; lra. }
  assert (0 < / x) by by apply Rinv_0_lt_compat.
  apply elem_of_cons in Hin as [->|Hin].
  - unfold Rdiv. lra.
  - specialize (IH Hin). unfold Rdiv. lra.
Qed.
End reducer_facts.

(** X18. [wr] holds one angular frequency per port: the read-out frequency [fr]
    first, then the bus frequencies, which are all [fb] for a number and
    [fb[0], fb[1], ...] for a list that is long enough. *)
Theorem resonator_frequencies_values (N : nat) (fr : R) :
  (∀ f, resonator_frequencies N (FreqScalar f) fr
        = Ok ((λ ii, 2 * PI * (if decide (ii = 0%nat) then fr else f) * 1e9)%R
              <$> seq 0 N))
  ∧ (∀ fs, (N - 1 ≤ length fs)%nat →
       resonator_frequencies N (FreqList fs) fr
       = Ok ((λ ii, 2 * PI * (if decide (ii = 0%nat) then fr
                              else default 0 (fs !! (ii - 1)%nat)) * 1e9)%R
             <$> seq 0 N)).
Proof.
  split.
  - intros f. unfold resonator_frequencies, for_range.
    rewrite <- (for_range_fill _ N (np_zeros N)) by apply length_replicate.
    apply for_loop_ext. intros i s _. by case_decide.
  - intros fs Hlen. unfold resonator_frequencies, for_range.
    rewrite <- (for_range_fill _ N (np_zeros N)) by apply length_replicate.
    apply for_loop_ext. intros i s Hi%elem_of_seq. case_decide; [done|].
    destruct (lookup_lt_is_Some_2 fs (i - 1)) as [f Hf]; [lia|].
    rewrite (py_get_pred fs i f) by (done || lia). by rewrite Hf.
Qed.

Lemma resonator_frequencies_values_witness :
  resonator_frequencies 3 (FreqList [4; 5]%R) 7
  = Ok ((λ ii, 2 * PI * (if decide (ii = 0%nat) then 7
                         else default 0 ([4; 5] !! (ii - 1)%nat)) * 1e9)%R
        <$> seq 0 3).
Proof.
  apply (proj2 (resonator_frequencies_values 3 7) [4; 5]%R). simpl. lia.
Defined.

(** X19. With [N] ports the reducer needs [N - 1] bus frequencies: a shorter
    list makes it fail with an [IndexError] once the input checks are
    passed. *)
Theorem extract_short_fb (eig : matrix → list R) (capMatrix : matrix)
    (Ic CJ : R) (N : Z) (fs : list R) (fr : R)
    (res_L4_corr : option (list bool)) (g_scale : R) (print_info : bool) :
  (0 ≤ N)%Z → Z.of_nat (length capMatrix) = (N + 3)%Z →
  (Z.of_nat (length fs) < N - 1)%Z →
  extract_transmon_coupled_Noscillator eig capMatrix Ic CJ N (FreqList fs) fr
    res_L4_corr g_scale print_info = Raise IndexError.
Proof.
  intros HN Hlen Hfs. unfold extract_transmon_coupled_Noscillator, extract_locals.
  rewrite error_checks_pass by done. cbn [mbind result_bind].
  rewrite resonator_frequencies_short by lia. done.
Qed.

Lemma extract_short_fb_witness :
  extract_transmon_coupled_Noscillator np_diagonal
    (replicate 6 (replicate 6 0%R)) 1 1 3 (FreqList [5%R]) 7 None 1 false
  = Raise IndexError.
Proof.
  apply (extract_short_fb np_diagonal (replicate 6 (replicate 6 0%R)) 1 1 3
           [5%R] 7 None 1 false); simpl; lia.
Defined.

(** X20. The quarter-wave correction halves [Cr] and doubles [Lr] at the flagged
    ports and leaves the others alone; the product [Cr * Lr], and with it
    the resonance frequency, is the same before and after. *)
Theorem apply_L4_corr_flagged (flags : list bool) (Cr Lr : list R) :
  length Lr = length Cr → (length flags ≤ length Cr)%nat →
  ∃ Cr' Lr',
    apply_L4_corr (Some flags) (Cr, Lr) = Ok (Cr', Lr')
    ∧ length Cr' = length Cr ∧ length Lr' = length Lr
    ∧ ∀ i c l, Cr !! i = Some c → Lr !! i = Some l →
        ∃ c' l', Cr' !! i = Some c' ∧ Lr' !! i = Some l'
          ∧ (c' * l' = c * l)%R
          ∧ c' = (if decide (flags !! i = Some true) then c / 2 else c)%R
          ∧ l' = (if decide (flags !! i = Some true) then l * 2 else l)%R.
Proof.
  intros HlL Hlf. unfold apply_L4_corr, for_range.
  match goal with |- context [for_loop _ ?b _] => set (body := b) end.
  set (fC := λ (k i : nat) (c : R),
         if decide ((i < k)%nat ∧ flags !! i = Some true) then (c / 2)%R else c).
  set (fL := λ (k i : nat) (l : R),
         if decide ((i < k)%nat ∧ flags !! i = Some true) then (l * 2)%R else l).
  destruct (for_loop_invariant
              (λ k s, s = (imap (fC k) Cr, imap (fL k) Lr))
              body (length flags) 0 (Cr, Lr)) as ([Cr' Lr'] & Hloop & Hinv).
  { f_equal; apply list_eq; intros i; rewrite list_lookup_imap;
      (destruct (_ !! i) as [x|]; [|done]);
      cbn [fmap option_fmap option_map]; f_equal;
      unfold fC, fL; (case_decide as Hd; [destruct Hd; lia|done]). }
  { intros i s Hi ->. unfold body.
    assert (∀ f (g : nat → nat → R → R) (v : list R),
              (∀ c, g (S i) i c = f c) → (∀ c, g i i c = c) →
              (∀ j c, j ≠ i → g (S i) j c = g i j c) →
              ∀ c, v !! i = Some c →
                <[i:=f c]> (imap (g i) v) = imap (g (S i)) v) as Hstep.
    { intros f g v Hg1 Hg2 Hg3 c Hc. apply list_eq. intros j.
      rewrite list_lookup_insert, !list_lookup_imap, length_imap.
      case_decide as Hj.
      - destruct Hj as [<- _]. by rewrite Hc, <- Hg1.
      - destruct (decide (j = i)) as [->|Hne].
        + apply lookup_lt_Some in Hc. lia.
        + destruct (v !! j) as [x|]; [|done]. simpl. by rewrite Hg3. }
    assert (∀ j c, j ≠ i → fC (S i) j c = fC i j c) as HC3.
    { intros j c Hne. unfold fC. repeat case_decide; try done;
        destruct_and?; exfalso; naive_solver lia. }
    assert (∀ j l, j ≠ i → fL (S i) j l = fL i j l) as HL3.
    { intros j l Hne. unfold fL. repeat case_decide; try done;
        destruct_and?; exfalso; naive_solver lia. }
    assert (∀ c, fC i i c = c) as HC2.
    { intros c. unfold fC. rewrite decide_False; [done|lia]. }
    assert (∀ l, fL i i l = l) as HL2.
    { intros l. unfold fL. rewrite decide_False; [done|lia]. }
    destruct (lookup_lt_is_Some_2 Cr i) as [c Hc]; [lia|].
    destruct (lookup_lt_is_Some_2 Lr i) as [l Hl]; [lia|].
    assert (imap (fC i) Cr !! i = Some c) as HCi.
    { rewrite list_lookup_imap, Hc. cbn [fmap option_fmap option_map].
      by rewrite HC2. }
    assert (imap (fL i) Lr !! i = Some l) as HLi.
    { rewrite list_lookup_imap, Hl. cbn [fmap option_fmap option_map].
      by rewrite HL2. }
    cbv beta iota.
    destruct (flags !! i) as [[|]|] eqn:Hfl.
    - rewrite (py_get_nat _ i c HCi).
      cbn [mbind result_bind].
      rewrite set_item_ok by (rewrite length_imap; lia).
      cbn [mbind result_bind].
      rewrite (py_get_nat _ i l HLi).
      cbn [mbind result_bind].
      rewrite set_item_ok by (rewrite length_imap; lia).
      cbn [mbind result_bind]. eexists. split; [done|].
      f_equal.
      + apply (Hstep (λ c, c / 2.0)%R fC); try done.
        intros c0. unfold fC. rewrite decide_True by (split; [lia|done]). lra.
      + apply (Hstep (λ l, l * 2.0)%R fL); try done.
        intros l0. unfold fL. rewrite decide_True by (split; [lia|done]). lra.
    - eexists. split; [done|].
      assert (∀ x, fC (S i) i x = x) as HC1.
      { intros x. unfold fC. case_decide as Hd; [|done].
        destruct Hd as [_ Hd]. congruence. }
      assert (∀ x, fL (S i) i x = x) as HL1.
      { intros x. unfold fL. case_decide as Hd; [|done].
        destruct Hd as [_ Hd]. congruence. }
      f_equal; apply list_eq; intros j; rewrite !list_lookup_imap;
        (destruct (_ !! j) as [x|]; [|done]);
        cbn [fmap option_fmap option_map]; f_equal;
        (destruct (decide (j = i)) as [->|Hne];
           [by rewrite ?HC1, ?HC2, ?HL1, ?HL2
           |by rewrite ?HC3, ?HL3 by done]).
    - apply lookup_ge_None in Hfl. lia. }
  injection Hinv as -> ->. exists (imap (fC (length flags)) Cr),
    (imap (fL (length flags)) Lr).
  split; [done|]. rewrite !length_imap. do 2 (split; [done|]).
  intros i c l Hc Hl. rewrite !list_lookup_imap, Hc, Hl. simpl.
  eexists _, _. do 2 (split; [done|]). unfold fC, fL.
  destruct (decide (flags !! i = Some true)) as [Hfl|Hfl].
  - pose proof (lookup_lt_Some _ _ _ Hfl).
    rewrite !decide_True by done. split; [field|done].
  - rewrite !decide_False by (by intros [_ ?]). done.
Qed.

Lemma apply_L4_corr_flagged_witness :
  ∃ Cr' Lr',
    apply_L4_corr (Some [true; false]) ([4; 6]%R, [1; 3]%R) = Ok (Cr', Lr')
    ∧ length Cr' = 2%nat ∧ length Lr' = 2%nat
    ∧ ∀ i c l, [4; 6]%R !! i = Some c → [1; 3]%R !! i = Some l →
        ∃ c' l', Cr' !! i = Some c' ∧ Lr' !! i = Some l'
          ∧ (c' * l' = c * l)%R
          ∧ c' = (if decide ([true; false] !! i = Some true) then c / 2
                  else c)%R
          ∧ l' = (if decide ([true; false] !! i = Some true) then l * 2
                  else l)%R.
Proof.
  apply (apply_L4_corr_flagged [true; false] [4; 6]%R [1; 3]%R);
    [reflexivity|simpl; lia].
Defined.

(** X21. Over the reals (the arithmetic of the source taken as exact, with
    no rounding), the decay channels of the ports add up like parallel
    resistors: with at least one port and positive port lifetimes,
    [1 / T1] is the sum of the [1 / T1bus], and [T1] is positive and no
    longer than the lifetime of any single port. *)
Theorem total_T1_parallel (N : Z) (T1bus : list R) :
  (0 < N)%Z → T1bus ≠ [] → Forall (λ t, 0 < t)%R T1bus →
  (0 < total_T1 N T1bus)%R
  ∧ (1 / total_T1 N T1bus = np_sum (vrecip 1 T1bus))%R
  ∧ ∀ t, t ∈ T1bus → (total_T1 N T1bus <= t)%R.
Proof.
  intros HN Hne Hpos. unfold total_T1. rewrite decide_True by lia.
  destruct T1bus as [|t0 T1bus]; [done|].
  assert (0 < np_sum (vrecip 1 (t0 :: T1bus)))%R as Hsum.
  { pose proof (np_sum_recip_ge t0 (t0 :: T1bus) Hpos ltac:(left)) as Hge.
    apply Forall_cons in Hpos as [H0 _].
    pose proof (Rinv_0_lt_compat _ H0). lra. }
  split; [|split].
  - apply Rdiv_lt_0_compat; lra.
  - field. lra.
  - intros t Ht. pose proof (np_sum_recip_ge t _ Hpos Ht) as Hge.
    assert (0 < t)%R as Htpos by (by eapply Forall_forall in Hpos).
    pose proof (Rinv_0_lt_compat _ Htpos) as Hinv.
    apply (Rmult_le_reg_r (np_sum (vrecip 1 (t0 :: T1bus)))); [done|].
    replace (1 / np_sum (vrecip 1 (t0 :: T1bus))
             * np_sum (vrecip 1 (t0 :: T1bus)))%R with 1%R by (field; lra).
    assert (t * / t = 1)%R as Ht1 by (field; lra).
    pose proof (Rmult_le_compat_l t _ _ (Rlt_le _ _ Htpos) Hge). lra.
Qed.

Lemma total_T1_parallel_witness :
  (0 < total_T1 2 [2; 2])%R
  ∧ (1 / total_T1 2 [2; 2] = np_sum (vrecip 1 [2; 2]))%R
  ∧ ∀ t, t ∈ [2; 2]%R → (total_T1 2 [2; 2] <= t)%R.
Proof.
  apply (total_T1_parallel 2 [2; 2]%R); [lia|done|].
  repeat constructor; lra.
Defined.

(** ** The converters, the dispersive shift and the cost function *)

Section converter_facts.
Local Open Scope R_scope.

Lemma hbar_pos : 0 < hbar.
Proof. unfold hbar. lra. Qed.

Lemma e_pos : 0 < e.
Proof. unfold e. lra. Qed.

Lemma py_div_ok (x y : R) : y ≠ 0 → py_div x y = Ok (x / y).
Proof. intros Hy. unfold py_div. by rewrite decide_False. Qed.
End converter_facts.

(** X22. Over the reals (the arithmetic of the source taken as exact, with
    no rounding, overflow or underflow), the converters invert
    [transmon_props]: from the inductance and the two energies it returns
    (given there as angular frequencies, so times [hbar]), [Ic_from_Lj],
    [Ic_from_Ej] and [Cs_from_Ec] give back the critical current and the
    capacitance it was called with; the qubit frequency is the plasma
    frequency less the charging energy. *)
Theorem transmon_props_round_trip (Ic Cq : R) :
  Ic ≠ 0%R → Cq ≠ 0%R →
  ∃ LJ EJ Zqp EC wq wq0 eps1,
    transmon_props Ic Cq = Ok (LJ, EJ, Zqp, EC, wq, wq0, eps1)
    ∧ Ic_from_Lj LJ = Ok Ic
    ∧ Ic_from_Ej (EJ * hbar) = Ok Ic
    ∧ Cs_from_Ec (EC * hbar) = Ok Cq
    ∧ wq = (wq0 - EC)%R.
Proof.
  intros HIc HCq. pose proof phi0_neq_0 as Hphi. pose proof hbar_pos as Hh.
  pose proof e_pos as He.
  assert (phi0 / Ic ≠ 0)%R as HLJ.
  { unfold Rdiv. apply Rmult_integral_contrapositive_currified; [done|].
    by apply Rinv_neq_0_compat. }
  unfold transmon_props. rewrite (py_div_ok _ _ HIc). cbn [mbind result_bind].
  rewrite (py_div_ok _ _ HLJ). cbn [mbind result_bind].
  do 7 eexists. split; [done|].
  unfold Ic_from_Lj, Ic_from_Ej, Cs_from_Ec.
  rewrite (py_div_ok _ _ HLJ), (py_div_ok _ _ Hphi).
  rewrite py_div_ok; last first.
  { assert (e ^ 2 / 2 / Cq / hbar * hbar = e ^ 2 / 2 / Cq)%R as ->
      by (field; split; lra).
    assert (0 < e ^ 2)%R as He2 by (by apply pow_lt).
    intros H0. assert (e ^ 2 / 2 * / Cq = 0)%R as H1 by (unfold Rdiv in H0; lra).
    apply Rmult_integral in H1 as [H1|H1]; [lra|].
    by apply (Rinv_neq_0_compat Cq). }
  split; [f_equal; field; done|].
  split; [f_equal; field; repeat split; lra|].
  split; [f_equal; field; repeat split; lra|]. done.
Qed.

Lemma transmon_props_round_trip_witness :
  ∃ LJ EJ Zqp EC wq wq0 eps1,
    transmon_props 3e-8 65e-15 = Ok (LJ, EJ, Zqp, EC, wq, wq0, eps1)
    ∧ Ic_from_Lj LJ = Ok 3e-8%R
    ∧ Ic_from_Ej (EJ * hbar) = Ok 3e-8%R
    ∧ Cs_from_Ec (EC * hbar) = Ok 65e-15%R
    ∧ wq = (wq0 - EC)%R.
Proof. apply (transmon_props_round_trip 3e-8 65e-15); lra. Defined.

(** X23. The dispersive shift is quadratic in the coupling [g] and even in the
    resonator frequency [wr]. *)
Theorem chi_scaling (c g wr w01 w12 : R) :
  chi (c * g) wr w01 w12 = (c ^ 2 * chi g wr w01 w12)%R
  ∧ chi g (- wr) w01 w12 = chi g wr w01 w12.
Proof.
  split; unfold chi; cbv zeta.
  - unfold Rdiv. ring.
  - replace (w01 - - wr)%R with (w01 + wr)%R by ring.
    replace (w12 - - wr)%R with (w12 + wr)%R by ring.
    replace (w01 + - wr)%R with (w01 - wr)%R by ring.
    replace (w12 + - wr)%R with (w12 - wr)%R by ring.
    replace ((- wr) ^ 2)%R with (wr ^ 2)%R by ring.
    unfold Rdiv. ring.
Qed.



(** ** The reducer with ports *)

Section ports.
Local Open Scope R_scope.

Lemma for_range_preserves {S} (P : S → Prop) (n : nat)
    (body : nat → S → result S) (s : S) :
  P s → (∀ i s, (i < n)%nat → P s → ∃ s', body i s = Ok s' ∧ P s') →
  ∃ s', for_range n body s = Ok s' ∧ P s'.
Proof.
  intros Hs Hbody. unfold for_range.
  destruct (for_loop_invariant (λ _ s, P s) body n 0 s) as (s' & Hl & HP).
  { done. }
  { intros i s0 Hi HP. apply Hbody; [lia|done]. }
  by exists s'.
Qed.

Lemma py_get_lt {T} (l : list T) (i : nat) :
  (i < length l)%nat → ∃ x, py_get l (Z.of_nat i) = Ok x ∧ l !! i = Some x.
Proof.
  intros Hi. destruct (lookup_lt_is_Some_2 l i Hi) as [x Hx].
  exists x. split; [by apply py_get_nat|done].
Qed.

Lemma mat_set_shape (n m : nat) (M : matrix) (i j : nat) (x : R) :
  shape n m M → (i < n)%nat → (j < m)%nat →
  ∃ M', mat_set M i j x = Ok M' ∧ shape n m M'.
Proof.
  intros [Hl Hr] Hi Hj. unfold mat_set.
  destruct (lookup_lt_is_Some_2 M i) as [row Hrow]; [lia|]. rewrite Hrow.
  pose proof (Forall_lookup_1 _ _ _ _ Hr Hrow) as Hlr. simpl in Hlr.
  rewrite set_item_ok by lia. cbn [mbind result_bind].
  eexists. split; [done|]. split; [by rewrite length_insert|].
  apply Forall_insert; [done|]. by rewrite length_insert.
Qed.

Lemma mat_get_shape (n m : nat) (M : matrix) (i j : nat) :
  shape n m M → (i < n)%nat → (j < m)%nat →
  ∃ x, mat_get M (Z.of_nat i) (Z.of_nat j) = Ok x ∧ entry M i j = Some x.
Proof.
  intros [Hl Hr] Hi Hj.
  destruct (lookup_lt_is_Some_2 M i) as [row Hrow]; [lia|].
  pose proof (Forall_lookup_1 _ _ _ _ Hr Hrow) as Hlr. simpl in Hlr.
  destruct (lookup_lt_is_Some_2 row j) as [x Hx]; [lia|].
  assert (entry M i j = Some x) as He by (unfold entry; by rewrite Hrow).
  exists x. split; [by apply entry_mat_get|done].
Qed.

Lemma mat_col_shape (n m : nat) (M : matrix) (j : nat) :
  shape n m M → (j < m)%nat → ∃ col, mat_col M (Z.of_nat j) = Ok col.
Proof.
  intros [Hl Hr] Hj. apply mapM_result_ok. intros row Hrow.
  eapply Forall_forall in Hr; [|done]. simpl in Hr.
  destruct (py_get_lt row j) as (x & Hx & _); [lia|]. by exists x.
Qed.

Lemma mat_get_coupling (n : nat) (M : matrix) (a b : nat) :
  shape n n M → (a < n)%nat → (b < n)%nat →
  mat_get M (Z.of_nat a) (Z.of_nat b) = Ok (- coupling M a b).
Proof.
  intros Hs Ha Hb. destruct (mat_get_shape n n M a b Hs Ha Hb) as (x & -> & He).
  unfold coupling. rewrite He. cbn [default from_option]. f_equal.
  unfold Datatypes.id. lra.
Qed.

(** A double loop that writes [f ii jj] at [(ii, jj)], or skips a position
    where [f] is zero, fills an array of zeros with the table of [f]. *)
Lemma for_range2_tabulate (n m : nat) (f : nat → nat → R)
    (body : nat → nat → matrix → result matrix) :
  (∀ ii jj g, (ii < n)%nat → (jj < m)%nat → g ii jj = 0 →
     body ii jj (tabulate n m g)
     = Ok (tabulate n m
             (λ a b, if decide (a = ii ∧ b = jj) then f ii jj else g a b))) →
  for_range n (λ ii M, for_range m (λ jj M, body ii jj M) M) (np_zeros2 n m)
  = Ok (tabulate n m f).
Proof.
  intros Hbody. unfold for_range.
  destruct (for_loop_invariant
    (λ k M, M = tabulate n m (λ a b, if decide (a < k)%nat then f a b else 0))
    (λ ii M, for_loop (seq 0 m) (λ jj M, body ii jj M) M)
    n 0 (np_zeros2 n m)) as (M & -> & ->).
  - rewrite np_zeros2_tabulate. apply tabulate_ext. intros a b _ _.
    by rewrite decide_False by lia.
  - intros ii M Hii ->.
    destruct (for_loop_invariant
      (λ k M, M = tabulate n m
         (λ a b, if decide ((a < ii)%nat ∨ (a = ii ∧ (b < k)%nat))
                 then f a b else 0))
      (λ jj M, body ii jj M) m 0
      (tabulate n m (λ a b, if decide (a < ii)%nat then f a b else 0)))
      as (M & -> & ->).
    + apply tabulate_ext. intros a b _ _.
      destruct (decide (a < ii)%nat).
      * by rewrite decide_True by (by left).
      * rewrite decide_False; [done|]. intros [?|[_ ?]]; lia.
    + intros jj M Hjj ->. eexists. split.
      * apply Hbody; [lia|lia|]. rewrite decide_False; [done|].
        intros [?|[_ ?]]; lia.
      * apply tabulate_ext. intros a b _ _.
        destruct (decide (a = ii ∧ b = jj)) as [[-> ->]|Hne].
        -- by rewrite decide_True by (right; lia).
        -- destruct (decide ((a < ii)%nat ∨ (a = ii ∧ (b < jj)%nat)))
             as [Hc|Hc].
           ++ rewrite decide_True; [done|].
              destruct Hc as [?|[? ?]]; [by left|right; lia].
           ++ rewrite decide_False; [done|].
              intros [?|[-> Hb]]; [apply Hc; by left|].
              destruct (decide (b = jj)) as [->|]; [by apply Hne|].
              apply Hc. right. split; [done|lia].
    + eexists. split; [done|]. apply tabulate_ext. intros a b _ Hb.
      destruct (decide (a < S ii)%nat) as [Ha|Ha].
      * rewrite decide_True; [done|].
        destruct (decide (a = ii)) as [->|]; [right; split; [done|lia]|left; lia].
      * rewrite decide_False; [done|]. intros [?|[? _]]; lia.
  - f_equal. apply tabulate_ext. intros a b Ha _.
    by rewrite decide_True by (simpl; lia).
Qed.

Lemma tabulate_shape (n m : nat) (f : nat → nat → R) :
  shape n m (tabulate n m f).
Proof.
  split; [apply tabulate_length|]. apply Forall_forall. intros row Hrow.
  unfold tabulate in Hrow. apply list_elem_of_fmap in Hrow as (i & -> & _).
  by rewrite length_fmap, length_seq.
Qed.

Lemma entry_tabulate (n m : nat) (f : nat → nat → R) (i j : nat) :
  (i < n)%nat → (j < m)%nat → entry (tabulate n m f) i j = Some (f i j).
Proof.
  intros Hi Hj. unfold entry. rewrite tabulate_lookup by done.
  cbn [mbind option_bind]. by rewrite list_lookup_fmap, lookup_seq_lt.
Qed.

(** The node positions behind the index lists of the reducer. *)
Lemma ground_index_position (N : nat) :
  ground_index (Z.of_nat N) = Z.of_nat (ground_position N).
Proof. unfold ground_index, ground_position. lia. Qed.

Lemma qubit_index_positions (N : nat) :
  qubit_index (Z.of_nat N)
  = [Z.of_nat (qubit_position N 0); Z.of_nat (qubit_position N 1)].
Proof.
  unfold qubit_index, ground_index, qubit_position. f_equal; [lia|].
  f_equal. lia.
Qed.

Lemma bus_index_positions (N : nat) :
  bus_index N (N + 3) = Ok ((λ j, Z.of_nat (bus_position N j)) <$> seq 0 N).
Proof.
  rewrite bus_index_table. f_equal. apply list_fmap_ext.
  intros i j [-> Hj]%lookup_seq. unfold bus_position. simpl.
  case_decide; lia.
Qed.

Lemma position_bounds (N : nat) :
  (ground_position N < N + 3)%nat
  ∧ (∀ i, (i < 2)%nat → (qubit_position N i < N + 3)%nat)
  ∧ (∀ j, (j < N)%nat → (bus_position N j < N + 3)%nat).
Proof.
  unfold ground_position, qubit_position, bus_position.
  split; [lia|]. split; [intros; lia|]. intros j Hj. case_decide; lia.
Qed.

(** [Cbus]: the couplings of the two qubit pads to the port pads. *)
Lemma pad_to_bus_tabulate (capMatrix : matrix) (N : nat) :
  shape (N + 3) (N + 3) capMatrix →
  pad_to_bus capMatrix
    [Z.of_nat (qubit_position N 0); Z.of_nat (qubit_position N 1)]
    ((λ j, Z.of_nat (bus_position N j)) <$> seq 0 N) N
  = Ok (tabulate 2 N
          (λ i j, coupling capMatrix (qubit_position N i) (bus_position N j))).
Proof.
  intros Hs. destruct (position_bounds N) as (_ & Hq & Hb).
  unfold pad_to_bus. apply for_range2_tabulate. intros ii jj g Hii Hjj _.
  assert (py_get [Z.of_nat (qubit_position N 0); Z.of_nat (qubit_position N 1)]
            (Z.of_nat ii) = Ok (Z.of_nat (qubit_position N ii))) as ->.
  { apply py_get_nat. by destruct ii as [|[|ii]]; [| |lia]. }
  cbn [mbind result_bind].
  rewrite (py_get_nat _ jj (Z.of_nat (bus_position N jj)))
    by (by rewrite list_lookup_fmap, lookup_seq_lt).
  cbn [mbind result_bind].
  rewrite (mat_get_coupling (N + 3)) by auto. cbn [mbind result_bind].
  rewrite Ropp_involutive. by apply mat_set_tabulate.
Qed.

(** [Cbusbus]: the couplings among the port pads, with a zero diagonal. *)
Lemma bus_to_bus_tabulate (capMatrix : matrix) (N : nat) :
  shape (N + 3) (N + 3) capMatrix →
  bus_to_bus capMatrix ((λ j, Z.of_nat (bus_position N j)) <$> seq 0 N) N
  = Ok (tabulate N N
          (λ i j, if decide (i ≠ j)
                  then coupling capMatrix (bus_position N i) (bus_position N j)
                  else 0)).
Proof.
  intros Hs. destruct (position_bounds N) as (_ & _ & Hb).
  unfold bus_to_bus. apply for_range2_tabulate. intros ii jj g Hii Hjj Hg.
  destruct (decide (ii ≠ jj)) as [Hne|Heq].
  - rewrite (py_get_nat _ ii (Z.of_nat (bus_position N ii)))
      by (by rewrite list_lookup_fmap, lookup_seq_lt).
    cbn [mbind result_bind].
    rewrite (py_get_nat _ jj (Z.of_nat (bus_position N jj)))
      by (by rewrite list_lookup_fmap, lookup_seq_lt).
    cbn [mbind result_bind].
    rewrite (mat_get_coupling (N + 3)) by auto. cbn [mbind result_bind].
    rewrite Ropp_involutive. by apply mat_set_tabulate.
  - f_equal. apply tabulate_ext. intros a b _ _.
    case_decide as Hab; [|done]. destruct Hab as [-> ->]. done.
Qed.
End ports.

Section ports_main.
Local Open Scope R_scope.

Lemma resonator_frequencies_length (N : nat) (fb : freq_arg) (fr : R) :
  enough_frequencies N fb →
  ∃ wr, resonator_frequencies N fb fr = Ok wr ∧ length wr = N.
Proof.
  intros Hfb. unfold resonator_frequencies.
  apply (for_range_preserves (λ wr, length wr = N));
    [apply length_replicate|].
  intros i s Hi Hs. case_decide.
  - rewrite set_item_ok by lia. eexists. split; [done|].
    by rewrite length_insert.
  - destruct fb as [f|fs].
    + rewrite set_item_ok by lia. eexists. split; [done|].
      by rewrite length_insert.
    + simpl in Hfb.
      destruct (lookup_lt_is_Some_2 fs (i - 1)) as [f Hf]; [lia|].
      rewrite (py_get_pred fs i f) by (done || lia). cbn [mbind result_bind].
      rewrite set_item_ok by lia. eexists. split; [done|].
      by rewrite length_insert.
Qed.

Lemma apply_L4_corr_length (N : nat) (res_L4_corr : option (list bool))
    (Cr Lr : list R) :
  flags_fit N res_L4_corr → length Cr = N → length Lr = N →
  ∃ Cr' Lr', apply_L4_corr res_L4_corr (Cr, Lr) = Ok (Cr', Lr')
    ∧ length Cr' = N ∧ length Lr' = N.
Proof.
  intros Hfit HC HL. destruct res_L4_corr as [flags|]; [|by exists Cr, Lr].
  simpl in Hfit. unfold apply_L4_corr.
  match goal with |- context [for_range ?n ?b ?i] =>
    destruct (for_range_preserves
                (λ s : list R * list R, length s.1 = N ∧ length s.2 = N)
                n b i) as ([Cr' Lr'] & -> & HC' & HL') end.
  { done. }
  { intros i [C L] Hi [HC' HL']. simpl in HC', HL'.
    destruct (flags !! i) as [[|]|]; [|by eexists..].
    destruct (py_get_lt C i) as (c & -> & _); [lia|].
    cbn [mbind result_bind]. rewrite set_item_ok by lia.
    cbn [mbind result_bind].
    destruct (py_get_lt L i) as (l & -> & _); [lia|].
    cbn [mbind result_bind]. rewrite set_item_ok by lia.
    cbn [mbind result_bind]. eexists. split; [done|]. simpl.
    by rewrite !length_insert. }
  by exists Cr', Lr'.
Qed.

Lemma py_get_0 {T} (l : list T) (x : T) :
  l !! 0%nat = Some x → py_get l 0 = Ok x.
Proof. exact (py_get_nat l 0 x). Qed.

Lemma py_get_1 {T} (l : list T) (x : T) :
  l !! 1%nat = Some x → py_get l 1 = Ok x.
Proof. exact (py_get_nat l 1 x). Qed.

Lemma mat_get_rows (m : nat) (M : matrix) (j : nat) :
  shape 2 m M → (j < m)%nat →
  ∃ x y, mat_get M 0 (Z.of_nat j) = Ok x ∧ mat_get M 1 (Z.of_nat j) = Ok y.
Proof.
  intros Hs Hj.
  destruct (mat_get_shape 2 m M 0 j Hs) as (x & Hx & _); [lia..|].
  destruct (mat_get_shape 2 m M 1 j Hs) as (y & Hy & _); [lia..|].
  by exists x, y.
Qed.

Lemma port_quality_factors (N : nat) :
  for_range N
    (λ ii Qbus, if decide (ii = 0%nat) then set_item Qbus ii 1e4
                else set_item Qbus ii 1e5)
    (np_zeros N)
  = Ok ((λ ii, if decide (ii = 0%nat) then 1e4 else 1e5) <$> seq 0 N).
Proof.
  rewrite <- (for_range_fill _ N (np_zeros N)) by apply length_replicate.
  apply for_loop_ext. intros i s _. by case_decide.
Qed.
End ports_main.

Ltac vector_length :=
  unfold vrecip, vtimes, vsq, vquot, vsqrt, vdiv, vsub, vscale, vmul, vminus,
    vadd, vneg, vshift;
  repeat first
    [rewrite length_fmap | rewrite length_zip_with | rewrite length_seq];
  lia.

(** X25. The reducer with any number of ports, over the reals (exact
    arithmetic: no rounding, overflow or underflow). For an [N + 3] by
    [N + 3] capacitance matrix, enough bus frequencies, a list of
    quarter-wave flags that is not longer than [N], a non-zero critical
    current, pad capacitances with [C1S + C2S] other than zero and a
    non-zero total qubit capacitance, the reducer runs to its [return]
    without raising. The capacitance it hands to the level solver is
    [Cs + C1S * C2S / (C1S + C2S) + CJ], [Cbus] holds the couplings of the
    two qubit pads to the nodes named by [bus_index], and the arrays over
    the ports ([T1bus], and [gbus] and [chi_in_MHz] in the returned
    dictionary) have [N] entries. *)
Theorem extract_ports (eig : matrix → list R) (capMatrix : matrix)
    (Ic CJ : R) (N : nat) (fb : freq_arg) (fr : R)
    (res_L4_corr : option (list bool)) (g_scale : R) (print_info : bool) :
  eig_shape eig → shape (N + 3) (N + 3) capMatrix →
  enough_frequencies N fb → flags_fit N res_L4_corr →
  Ic ≠ 0%R →
  (pad_total capMatrix N 0 + pad_total capMatrix N 1 ≠ 0)%R →
  qubit_capacitance capMatrix N CJ ≠ 0%R →
  ∃ l gbus chis,
    extract_locals eig capMatrix Ic CJ (Z.of_nat N) fb fr res_L4_corr g_scale
    = Ok l
    ∧ extract_transmon_coupled_Noscillator eig capMatrix Ic CJ (Z.of_nat N)
        fb fr res_L4_corr g_scale print_info = Ok (l_ham_dict l)
    ∧ l_Cq l = qubit_capacitance capMatrix N CJ
    ∧ l_Cbus l
      = tabulate 2 N
          (λ i j, coupling capMatrix (qubit_position N i) (bus_position N j))
    ∧ length (l_T1bus l) = N
    ∧ l_ham_dict l !! "gbus"%string = Some (VArray gbus) ∧ length gbus = N
    ∧ l_ham_dict l !! "chi_in_MHz"%string = Some (VArray chis)
    ∧ length chis = N.
Proof.
  intros Heig Hs Hfb Hfit HIc _ HCq.
  destruct (position_bounds N) as (Hg & Hq & Hb).
  pose proof Hs as [Hlen Hrows].
  unfold extract_transmon_coupled_Noscillator, extract_locals. cbv zeta.
  rewrite error_checks_pass by lia.
  cbn [mbind result_bind]. rewrite Nat2Z.id.
  destruct (resonator_frequencies_length N fb fr Hfb) as (wr & -> & Hwr).
  cbn [mbind result_bind].
  match goal with |- context [apply_L4_corr ?r (?c, ?l)] =>
    destruct (apply_L4_corr_length N r c l Hfit) as (Cr & Lr & -> & HCr & HLr)
  end; [vector_length..|].
  cbn [mbind result_bind].
  rewrite Hlen, bus_index_positions. cbn [mbind result_bind].
  rewrite qubit_index_positions, ground_index_position.
  rewrite (py_get_0 _ (Z.of_nat (qubit_position N 0))) by done.
  cbn [mbind result_bind].
  rewrite (py_get_1 _ (Z.of_nat (qubit_position N 1))) by done.
  cbn [mbind result_bind].
  rewrite !(mat_get_coupling (N + 3)) by auto. cbn [mbind result_bind].
  rewrite !Ropp_involutive.
  rewrite pad_to_bus_tabulate, bus_to_bus_tabulate by done.
  cbn [mbind result_bind].
  set (Cbus := tabulate 2 N
         (λ i j, coupling capMatrix (qubit_position N i) (bus_position N j))).
  set (Cbusbus := tabulate N N _).
  assert (shape 2 N Cbus) as HsCbus by apply tabulate_shape.
  assert (shape N N Cbusbus) as HsCbb by apply tabulate_shape.
  rewrite (py_get_0 _ (coupling capMatrix (qubit_position N 0)
                         (ground_position N))) by done.
  cbn [mbind result_bind].
  rewrite (py_get_1 _ (coupling capMatrix (qubit_position N 1)
                         (ground_position N))) by done.
  cbn [mbind result_bind].
  rewrite (py_get_0 Cbus
             ((λ j, coupling capMatrix (qubit_position N 0) (bus_position N j))
              <$> seq 0 N))
    by (unfold Cbus; by rewrite tabulate_lookup by lia).
  cbn [mbind result_bind].
  rewrite (py_get_1 Cbus
             ((λ j, coupling capMatrix (qubit_position N 1) (bus_position N j))
              <$> seq 0 N))
    by (unfold Cbus; by rewrite tabulate_lookup by lia).
  cbn [mbind result_bind].
  rewrite port_quality_factors.
  match goal with |- context [for_range N ?b (np_zeros N)] =>
    destruct (for_range_preserves (λ s : list R, length s = N) N b (np_zeros N))
      as (tCSbus & -> & HtCSbus)
  end.
  { apply length_replicate. }
  { intros ii s Hii Hls.
    destruct (py_get_lt Cr ii) as (cr & -> & _); [lia|].
    cbn [mbind result_bind].
    destruct (mat_get_rows N Cbus ii HsCbus) as (b0 & b1 & -> & ->); [lia|].
    cbn [mbind result_bind].
    destruct (mat_col_shape 2 N Cbus ii HsCbus) as (col & ->); [lia|].
    cbn [mbind result_bind].
    destruct (py_get_lt Cbusbus ii) as (row & -> & _);
      [destruct HsCbb; lia|].
    cbn [mbind result_bind].
    rewrite set_item_ok by lia. eexists. split; [done|].
    by rewrite length_insert. }
  cbn [mbind result_bind].
  match goal with |- context [for_range N ?b (np_zeros2 N N)] =>
    destruct (for_range_preserves (shape N N) N b (np_zeros2 N N))
      as (tCqbusbus & -> & HtCq)
  end.
  { apply np_zeros2_shape. }
  { intros ii M Hii HM. apply (for_range_preserves (shape N N)); [done|].
    intros jj M' Hjj HM'.
    destruct (mat_get_shape N N Cbusbus ii jj HsCbb) as (c & -> & _); [lia..|].
    cbn [mbind result_bind].
    destruct (mat_get_rows N Cbus ii HsCbus) as (a0 & a1 & -> & ->); [lia|].
    cbn [mbind result_bind].
    destruct (mat_get_rows N Cbus jj HsCbus) as (b0 & b1 & -> & ->); [lia|].
    cbn [mbind result_bind].
    by apply mat_set_shape. }
  cbn [mbind result_bind].
  match goal with |- context [transmon_props Ic ?c] => set (Cq := c) end.
  assert (Cq = qubit_capacitance capMatrix N CJ) as HCqv by reflexivity.
  destruct (transmon_props_ok Ic Cq HIc)
    as (LJ & EJ & Zqp & EC & wq & wq0 & eps1 & ->).
  cbn [mbind result_bind].
  match goal with |- context [levels_vs_ng_real_units eig ?a ?b 51] =>
    destruct (levels_vs_ng_is_ok eig a b 51 Heig)
      as (fq & alpha & disp & tphi & ->)
  end.
  { rewrite HCqv. unfold Rdiv.
    apply Rmult_integral_contrapositive_currified; [done|lra]. }
  { lia. }
  cbn [mbind result_bind].
  match goal with |- context [for_range N ?b (np_zeros2 N N)] =>
    destruct (for_range_preserves (shape N N) N b (np_zeros2 N N))
      as (gbusbus & -> & Hgbb)
  end.
  { apply np_zeros2_shape. }
  { intros ii M Hii HM. apply (for_range_preserves (shape N N)); [done|].
    intros jj M' Hjj HM'.
    destruct (mat_get_shape N N tCqbusbus ii jj HtCq) as (t & -> & _); [lia..|].
    cbn [mbind result_bind].
    destruct (py_get_lt tCSbus ii) as (si & -> & _); [lia|].
    cbn [mbind result_bind].
    destruct (py_get_lt tCSbus jj) as (sj & -> & _); [lia|].
    cbn [mbind result_bind].
    by apply mat_set_shape. }
  cbn [mbind result_bind fmap result_fmap].
  eexists _, _, _. split; [reflexivity|]. split; [reflexivity|].
  cbn [l_Cq l_Cbus l_T1bus l_ham_dict].
  split; [done|]. split; [done|]. split; [vector_length|].
  split; [by rewrite lookup_insert_ne, lookup_insert_eq by done|].
  split; [vector_length|].
  split; [by rewrite lookup_insert_eq|]. vector_length.
Qed.

(** One read-out port: a 4 by 4 matrix with ground at 0, the qubit pads at
    1 and 2 and the read-out pad at 3. *)
Lemma extract_ports_witness :
  ∃ l gbus chis,
    extract_locals np_diagonal
      [[10; -1; -1; -1]; [-1; 10; -1; -1]; [-1; -1; 10; -1];
       [-1; -1; -1; 10]]%R 1 1 (Z.of_nat 1) (FreqList []) 7 (Some [true]) 1
    = Ok l
    ∧ extract_transmon_coupled_Noscillator np_diagonal
        [[10; -1; -1; -1]; [-1; 10; -1; -1]; [-1; -1; 10; -1];
         [-1; -1; -1; 10]]%R 1 1 (Z.of_nat 1) (FreqList []) 7 (Some [true]) 1
        false = Ok (l_ham_dict l)
    ∧ l_Cq l
      = qubit_capacitance
          [[10; -1; -1; -1]; [-1; 10; -1; -1]; [-1; -1; 10; -1];
           [-1; -1; -1; 10]]%R 1 1
    ∧ l_Cbus l
      = tabulate 2 1
          (λ i j, coupling
                    [[10; -1; -1; -1]; [-1; 10; -1; -1]; [-1; -1; 10; -1];
                     [-1; -1; -1; 10]]%R
                    (qubit_position 1 i) (bus_position 1 j))
    ∧ length (l_T1bus l) = 1%nat
    ∧ l_ham_dict l !! "gbus"%string = Some (VArray gbus)
    ∧ length gbus = 1%nat
    ∧ l_ham_dict l !! "chi_in_MHz"%string = Some (VArray chis)
    ∧ length chis = 1%nat.
Proof.
  apply (extract_ports np_diagonal
           [[10; -1; -1; -1]; [-1; 10; -1; -1]; [-1; -1; 10; -1];
            [-1; -1; -1; 10]]%R 1 1 1 (FreqList []) 7 (Some [true]) 1 false
           np_diagonal_shape).
  - split; [done|]. repeat constructor.
  - simpl. lia.
  - simpl. lia.
  - lra.
  - unfold pad_total, coupling, entry, qubit_position, ground_position,
      bus_position, np_sum.
    simpl. lra.
  - unfold qubit_capacitance, pad_total, coupling, entry, qubit_position,
      ground_position, bus_position, np_sum.
    simpl.
    replace (- (-1) + (- (-1) + 0) + (- (-1) + (- (-1) + 0)))%R with 4%R
      by lra.
    lra.
Defined.

(** X26. [Cbusbus], the table of the capacitances among the port pads, has
    zeros on its diagonal, holds off the diagonal the couplings between the
    nodes that [bus_index] names (the read-out pad, which is the last node,
    first), and is symmetric when the capacitance matrix is. *)
Theorem bus_to_bus_entries (capMatrix : matrix) (N : nat) :
  shape (N + 3) (N + 3) capMatrix →
  ∃ Cbusbus,
    bus_index N (N + 3) ≫= (λ bus, bus_to_bus capMatrix bus N) = Ok Cbusbus
    ∧ shape N N Cbusbus
    ∧ (∀ i, (i < N)%nat → entry Cbusbus i i = Some 0%R)
    ∧ (∀ i j, (i < N)%nat → (j < N)%nat → i ≠ j →
         entry Cbusbus i j
         = Some (coupling capMatrix (bus_position N i) (bus_position N j)))
    ∧ (symmetric_table capMatrix → symmetric_table Cbusbus).
Proof.
  intros Hs. rewrite bus_index_positions. cbn [mbind result_bind].
  rewrite bus_to_bus_tabulate by done. eexists. split; [done|].
  split; [apply tabulate_shape|]. split; [|split].
  - intros i Hi. rewrite entry_tabulate by done.
    by rewrite decide_False by (intros Hne; by apply Hne).
  - intros i j Hi Hj Hne. rewrite entry_tabulate by done.
    by rewrite decide_True.
  - intros Hsym a b. fold (entry (tabulate N N
      (λ i j, if decide (i ≠ j)
              then coupling capMatrix (bus_position N i) (bus_position N j)
              else 0%R)) a b).
    match goal with |- _ = ?r => change r with (entry (tabulate N N
      (λ i j, if decide (i ≠ j)
              then coupling capMatrix (bus_position N i) (bus_position N j)
              else 0%R)) b a) end.
    destruct (decide (a < N)%nat) as [Ha|Ha];
      [destruct (decide (b < N)%nat) as [Hb|Hb]|].
    + rewrite !entry_tabulate by done.
      destruct (decide (a = b)) as [->|Hne]; [done|].
      rewrite !decide_True by done. f_equal. unfold coupling, entry.
      by rewrite (Hsym (bus_position N a) (bus_position N b)).
    + unfold entry. rewrite (lookup_ge_None_2 _ b)
        by (rewrite tabulate_length; lia).
      rewrite tabulate_lookup by done. cbn [mbind option_bind].
      apply lookup_ge_None_2. rewrite length_fmap, length_seq. lia.
    + unfold entry. rewrite (lookup_ge_None_2 _ a)
        by (rewrite tabulate_length; lia).
      cbn [mbind option_bind]. symmetry.
      destruct (decide (b < N)%nat) as [Hb|Hb].
      * rewrite tabulate_lookup by done. cbn [mbind option_bind].
        apply lookup_ge_None_2. rewrite length_fmap, length_seq. lia.
      * by rewrite (lookup_ge_None_2 _ b) by (rewrite tabulate_length; lia).
Qed.

Lemma bus_to_bus_entries_witness :
  ∃ Cbusbus,
    bus_index 2 (2 + 3)
      ≫= (λ bus, bus_to_bus (tabulate 5 5 (λ i j, INR (i + j))) bus 2)
    = Ok Cbusbus
    ∧ shape 2 2 Cbusbus
    ∧ (∀ i, (i < 2)%nat → entry Cbusbus i i = Some 0%R)
    ∧ (∀ i j, (i < 2)%nat → (j < 2)%nat → i ≠ j →
         entry Cbusbus i j
         = Some (coupling (tabulate 5 5 (λ i j, INR (i + j)))
                   (bus_position 2 i) (bus_position 2 j)))
    ∧ (symmetric_table (tabulate 5 5 (λ i j, INR (i + j)))
       → symmetric_table Cbusbus).
Proof.
  apply (bus_to_bus_entries (tabulate 5 5 (λ i j, INR (i + j))) 2).
  apply (tabulate_shape 5 5).
Defined.

(** ** Two more edge cases *)

(** X27. A negative target counts from the end of the indices that are left: with
    [m] indices left, the target [i_to] in [-m .. -1] puts the block in
    front of the remaining index number [i_to + m], so that [-1] puts it in
    front of the last remaining index, not behind it. *)
Theorem move_index_to_negative_target (i_from : list Z) (i_to : Z) (n : nat)
    (F : list nat) :
  positions n i_from = Ok F →
  (- Z.of_nat (length (filter (λ k, k ∉ F) (seq 0 n))) ≤ i_to < 0)%Z →
  move_index_to i_from i_to n
  = move_index_to i_from
      (i_to + Z.of_nat (length (filter (λ k, k ∉ F) (seq 0 n)))) n.
Proof.
  intros HF Hto. unfold move_index_to.
  rewrite (np_delete_arange _ _ _ HF). cbn [mbind result_bind].
  unfold np_insert. rewrite length_fmap.
  rewrite !(decide_False (P := (_ ∨ _))) by lia.
  rewrite decide_True by lia. by rewrite decide_False by lia.
Qed.

Lemma move_index_to_negative_target_witness :
  move_index_to [0%Z] (-1) 3 = move_index_to [0%Z] (-1 + Z.of_nat 2) 3
  ∧ move_index_to [0%Z] (-1) 3 = Ok [1; 0; 2]%Z.
Proof.
  split; [|reflexivity].
  apply (move_index_to_negative_target [0%Z] (-1) 3 [0%nat]); [reflexivity|].
  vm_compute. split; [discriminate|reflexivity].
Defined.

(** X28. Over the reals (Python's float division with exact arithmetic: no
    rounding, no overflow, no underflow of the denominator to zero),
    [chargeline_T1] divides by [Ccharge**2 * 50 * (2 pi f01)**2]: it raises
    [ZeroDivisionError] exactly when [Ccharge] or [f01] is zero, and
    otherwise returns the [T1] for which [T1] times that denominator is
    [Cq], positive for positive [Cq]. *)
Theorem chargeline_T1_defined (Ccharge Cq f01 : R) :
  (chargeline_T1 Ccharge Cq f01 = Raise ZeroDivisionError
   ↔ Ccharge = 0%R ∨ f01 = 0%R)
  ∧ (Ccharge ≠ 0%R → f01 ≠ 0%R →
     ∃ T1, chargeline_T1 Ccharge Cq f01 = Ok T1
       ∧ (T1 * (Ccharge ^ 2 * 50 * (2 * PI * f01) ^ 2) = Cq)%R
       ∧ ((0 < Cq)%R → (0 < T1)%R)).
Proof.
  pose proof PI_RGT_0 as Hpi.
  assert (Ccharge ≠ 0%R → f01 ≠ 0%R →
          (0 < Ccharge ^ 2 * 50 * (2 * PI * f01) ^ 2)%R) as Hden.
  { intros HC Hf.
    assert (∀ x : R, x ≠ 0%R → (0 < x ^ 2)%R) as Hsq.
    { intros x Hx. destruct (Rtotal_order x 0) as [?|[?|?]]; [nra|done|nra]. }
    assert (0 < Ccharge ^ 2)%R by by apply Hsq.
    assert (0 < (2 * PI * f01) ^ 2)%R by (apply Hsq; nra).
    nra. }
  unfold chargeline_T1, py_div. split; [split|].
  - case_decide as Hz; [|done]. intros _.
    destruct (decide (Ccharge = 0%R)) as [|HC]; [by left|].
    destruct (decide (f01 = 0%R)) as [|Hf]; [by right|].
    specialize (Hden HC Hf). lra.
  - intros Hz. rewrite decide_True; [done|].
    destruct Hz as [-> | ->]; ring.
  - intros HC Hf. specialize (Hden HC Hf).
    rewrite decide_False by lra. eexists. split; [done|]. split.
    + field. lra.
    + intros HCq. by apply Rdiv_lt_0_compat.
Qed.

Lemma chargeline_T1_defined_witness :
  ∃ T1, chargeline_T1 1 2 3 = Ok T1
    ∧ (T1 * (1 ^ 2 * 50 * (2 * PI * 3) ^ 2) = 2)%R
    ∧ ((0 < 2)%R → (0 < T1)%R).
Proof.
  apply (proj2 (chargeline_T1_defined 1 2 3)); lra.
Defined.
